(** * Explosion profiling: a shallow embedding of the two Python entry points

    [example_explode_analysis.py] (local string metrics, row-order references,
    explosion classification, combination generator) and
    [profile_exploded.py] (library-backed metrics, timestamp references).

    Conventions of the embedding

    - a Python [str] is a Rocq [string]; the metric code walks it as a
      [list ascii];
    - a Python [int] is a [nat] where the code only counts, a [Z] where it
      subtracts (the Jaro match window);
    - a Python [float] is a binary64 number ([PrimFloat.float]) wherever the
      code decides on it: [jaro_winkler_float] is the value that
      [jaro_winkler] returns, operation by operation, and the comparison
      with the literal [0.88] is the binary64 one.  The theorems about the
      size of the similarity read the same expression over exact rationals
      ([jaro_winkler], with [0.1], [1.0] and [0.0] the rationals they
      denote);
    - a Python [dict] is an insertion-ordered association list ([PyDict]);
    - a pandas data frame is a list of rows in row order, a row carrying its
      identifier and a total map from column name to cell. *)

From Corelib Require Import PrimFloat.
From Stdlib Require Import List Arith ZArith QArith Bool Lia Lqa.
From Stdlib Require Import String Ascii Permutation Sorted.
Import ListNotations.

Local Open Scope nat_scope.

(** [len(xs)]. *)
Abbreviation len := (@List.length _) (only parsing).

(** ** Small Python built-ins *)

(** [enumerate(xs, start)]. *)
Fixpoint enumerate {A : Type} (start : nat) (xs : list A) : list (nat * A) :=
  match xs with
  | [] => []
  | x :: xs' => (start, x) :: enumerate (S start) xs'
  end.

(** [min(x, y, z)] on integers. *)
Definition min3 (x y z : nat) : nat := Nat.min x (Nat.min y z).

(** [range(lo, hi)] on integers, empty when [hi <= lo]. *)
Definition zrange (lo hi : Z) : list Z :=
  map (fun k => (lo + Z.of_nat k)%Z) (seq 0 (Z.to_nat (hi - lo))).

(** [xs[i] = v] for an index inside the list. *)
Fixpoint set_nth {A : Type} (i : nat) (v : A) (xs : list A) : list A :=
  match xs, i with
  | [], _ => []
  | _ :: xs', O => v :: xs'
  | x :: xs', S i' => x :: set_nth i' v xs'
  end.

(** [(ca != cb)] used as an integer. *)
Definition neq_cost (ca cb : ascii) : nat :=
  if Ascii.eqb ca cb then 0 else 1.

(** ** [levenshtein] (example_explode_analysis.py) *)

(** One pass of the inner loop: [curr.append(min(ins, rem, sub))]. *)
Definition lev_cell (ca : ascii) (prev curr : list nat) (jcb : nat * ascii)
  : list nat :=
  let '(j, cb) := jcb in
  let ins := nth j prev 0 + 1 in
  let rem := nth (j - 1) curr 0 + 1 in
  let sub := nth (j - 1) prev 0 + neq_cost ca cb in
  curr ++ [min3 ins rem sub].

(** The body of the outer loop: builds [curr] from [prev]. *)
Definition lev_row (b : list ascii) (prev : list nat) (ica : nat * ascii)
  : list nat :=
  let '(i, ca) := ica in
  fold_left (lev_cell ca prev) (enumerate 1 b) [i].

Definition lev_rows (a b : list ascii) : list nat :=
  fold_left (lev_row b) (enumerate 1 a) (seq 0 (len b + 1)).

Definition levenshtein_chars (a b : list ascii) : nat :=
  let '(a, b) :=
    if len a <? len b then (b, a) else (a, b) in
  last (lev_rows a b) 0.

Definition levenshtein (a b : string) : nat :=
  levenshtein_chars (list_ascii_of_string a) (list_ascii_of_string b).

(** ** [jaro_winkler] (example_explode_analysis.py) *)

Record jaro_state := JaroState {
  s1m : list bool;
  s2m : list bool;
  matches : nat
}.

(** The guard of the inner loop at index [j]. *)
Definition jaro_hit (c : ascii) (s2 : list ascii) (m2 : list bool) (j : Z)
  : bool :=
  negb (nth (Z.to_nat j) m2 false)
  && Ascii.eqb c (nth (Z.to_nat j) s2 zero).

(** The inner [for j ... break] loop: the first index of the window that
    passes the guard is flagged, and the loop stops. *)
Definition jaro_scan (s1 s2 : list ascii) (match_dist : Z)
    (st : jaro_state) (i : nat) : jaro_state :=
  let lo := Z.max 0 (Z.of_nat i - match_dist) in
  let hi := Z.min (Z.of_nat i + match_dist + 1) (Z.of_nat (len s2)) in
  match find (jaro_hit (nth i s1 zero) s2 (s2m st)) (zrange lo hi) with
  | Some j =>
      JaroState (set_nth i true (s1m st))
                (set_nth (Z.to_nat j) true (s2m st))
                (S (matches st))
  | None => st
  end.

(** [match_dist = max(len1, len2) // 2 - 1]. *)
Definition match_dist (s1 s2 : list ascii) : Z :=
  (Z.of_nat (Nat.max (len s1) (len s2)) / 2 - 1)%Z.

(** The state before the loop: no flag set, no match. *)
Definition jaro_init (s1 s2 : list ascii) : jaro_state :=
  JaroState (repeat false (len s1)) (repeat false (len s2)) 0.

Definition jaro_match (s1 s2 : list ascii) : jaro_state :=
  fold_left (jaro_scan s1 s2 (match_dist s1 s2)) (seq 0 (len s1))
    (jaro_init s1 s2).

(** [[s[i] for i in range(len(s)) if flags[i]]]. *)
Definition flagged (s : list ascii) (flags : list bool) : list ascii :=
  map (fun i => nth i s zero)
      (filter (fun i => nth i flags false) (seq 0 (len s))).

(** [sum(1 for a, b in zip(s1r, s2r) if a != b)]. *)
Definition mismatched (s1r s2r : list ascii) : nat :=
  len (filter (fun ab => negb (Ascii.eqb (fst ab) (snd ab)))
                 (combine s1r s2r)).

(** The common-prefix loop, before the cap. *)
Fixpoint common_prefix (s1 s2 : list ascii) : nat :=
  match s1, s2 with
  | a :: s1', b :: s2' =>
      if Ascii.eqb a b then S (common_prefix s1' s2') else 0
  | _, _ => 0
  end.

Definition Qnat (n : nat) : Q := inject_Z (Z.of_nat n).

(** The default of the parameter [p]. *)
Definition p_default : Q := 1 # 10.

(** The Jaro score [j] from the counters of the match loop. *)
Definition jaro_score (len1 len2 m mism : nat) : Q :=
  let trans := (Qnat mism / 2)%Q in
  ((Qnat m / Qnat len1 + Qnat m / Qnat len2
    + (Qnat m - trans) / Qnat m) / 3)%Q.

Definition winkler (j : Q) (prefix : nat) (p : Q) : Q :=
  (j + Qnat prefix * p * (1 - j))%Q.


(** The value of the local [j], computed from the state after the loop. *)
Definition jaro_of (s1 s2 : list ascii) (st : jaro_state) : Q :=
  let s1r := flagged s1 (s1m st) in
  let s2r := flagged s2 (s2m st) in
  jaro_score (len s1) (len s2) (matches st) (mismatched s1r s2r).

Definition jaro_winkler_chars (s1 s2 : list ascii) (p : Q) : Q :=
  if list_eq_dec ascii_dec s1 s2 then 1%Q
  else
    let st := jaro_match s1 s2 in
    if matches st =? 0 then 0%Q
    else
      let j := jaro_of s1 s2 st in
      let prefix := Nat.min (common_prefix s1 s2) 4 in
      winkler j prefix p.

Definition jaro_winkler (s1 s2 : string) : Q :=
  jaro_winkler_chars (list_ascii_of_string s1) (list_ascii_of_string s2)
                     p_default.

(** ** [jaro_winkler] in binary64

    The value that the interpreter computes: the counters come from the
    same loop as above, and every arithmetic operation is the rounded one,
    in the order in which the source writes them.  This is the number that
    the classifier and the metadata compare with [0.88]. *)

#[local] Set Warnings "-inexact-float".

(** [float(n)] for a small counter. *)
Fixpoint float_of_nat (n : nat) : PrimFloat.float :=
  match n with
  | O => 0%float
  | S k => PrimFloat.add (float_of_nat k) 1%float
  end.

Definition jaro_score_float (len1 len2 m mism : nat) : PrimFloat.float :=
  let trans := (float_of_nat mism / 2)%float in
  ((float_of_nat m / float_of_nat len1 + float_of_nat m / float_of_nat len2
    + (float_of_nat m - trans) / float_of_nat m) / 3)%float.

Definition jaro_winkler_float (a b : string) : PrimFloat.float :=
  let s1 := list_ascii_of_string a in
  let s2 := list_ascii_of_string b in
  if list_eq_dec ascii_dec s1 s2 then 1%float
  else
    let st := jaro_match s1 s2 in
    if matches st =? 0 then 0%float
    else
      let j := jaro_score_float (len s1) (len s2) (matches st)
                 (mismatched (flagged s1 (s1m st)) (flagged s2 (s2m st))) in
      let prefix := Nat.min (common_prefix s1 s2) 4 in
      (j + float_of_nat prefix * 0.1 * (1 - j))%float.

(** ** Edit distance as a recursive specification

    [lev_spec] peels both strings from the front.  The loop of [levenshtein]
    grows prefixes at the back, so it computes [lev_spec] of the reversed
    strings ([lev_rows_spec] below). *)

Fixpoint lev_spec (a : list ascii) : list ascii -> nat :=
  match a with
  | [] => fun b => len b
  | x :: a' =>
      fix lev_inner (b : list ascii) : nat :=
        match b with
        | [] => S (len a')
        | y :: b' =>
            min3 (lev_spec a' b + 1) (lev_inner b' + 1)
                 (lev_spec a' b' + neq_cost x y)
        end
  end.

(** The table entry for two prefixes. *)
Definition lev_table (x y : list ascii) : nat := lev_spec (rev x) (rev y).

(** Row [x] of the table over all prefixes of [b]. *)
Definition lev_row_spec (x b : list ascii) : list nat :=
  map (fun j => lev_table x (firstn j b)) (seq 0 (len b + 1)).

(** ** Invariants of the Jaro match loop *)



(** ** Keys with a boolean equality (identifiers and strings) *)

Class Key (K : Type) := {
  keqb : K -> K -> bool;
  keqb_eq : forall x y, keqb x y = true <-> x = y
}.

#[export] Instance Key_Z : Key Z := {| keqb := Z.eqb; keqb_eq := Z.eqb_eq |}.

#[export] Instance Key_string : Key string :=
  {| keqb := String.eqb; keqb_eq := String.eqb_eq |}.

Section KeyOps.
Context {K : Type} `{Key K}.

(** [x in xs]. *)
Definition mem (x : K) (xs : list K) : bool := existsb (keqb x) xs.

(** pandas [Series.unique()]: the distinct values in order of first
    appearance. *)
Fixpoint unique_from (seen : list K) (xs : list K) : list K :=
  match xs with
  | [] => []
  | x :: xs' =>
      if mem x seen then unique_from seen xs'
      else x :: unique_from (x :: seen) xs'
  end.

Definition unique (xs : list K) : list K := unique_from [] xs.

End KeyOps.

(** ** Sorting ([sorted], and the key order of [groupby]) *)

Section Sort.
Context {A : Type} (leb : A -> A -> bool).

Fixpoint insert_sorted (x : A) (xs : list A) : list A :=
  match xs with
  | [] => [x]
  | y :: xs' =>
      if leb x y then x :: xs else y :: insert_sorted x xs'
  end.

Definition sort_by (xs : list A) : list A :=
  fold_right insert_sorted [] xs.

End Sort.

Module PyDict.
Section Dict.
Context {K V : Type} `{Key K}.

Definition t : Type := list (K * V).

(** [d.get(k)]: [None] stands for a missing key. *)
Fixpoint get (k : K) (d : t) : option V :=
  match d with
  | [] => None
  | (k', v) :: d' => if keqb k k' then Some v else get k d'
  end.

(** [d[k] = v]: an existing key keeps its position. *)
Fixpoint set (k : K) (v : V) (d : t) : t :=
  match d with
  | [] => [(k, v)]
  | (k', v') :: d' =>
      if keqb k k' then (k, v) :: d' else (k', v') :: set k v d'
  end.

Definition keys (d : t) : list K := map fst d.

End Dict.

End PyDict.

Arguments PyDict.t : clear implicits.

(** ** Helpers shared by the two entry points *)

(** [datetime.date]. *)
Record date := Date { year : Z; month : Z; day : Z }.

Definition date_eqb (d1 d2 : date) : bool :=
  (year d1 =? year d2)%Z && (month d1 =? month d2)%Z && (day d1 =? day d2)%Z.

(** [mismatch_positions(a, b)], the same in both files. *)
Fixpoint mismatch_from (i : nat) (a b : list ascii) : list nat :=
  match a, b with
  | ca :: a', cb :: b' =>
      if Ascii.eqb ca cb then mismatch_from (S i) a' b'
      else i :: mismatch_from (S i) a' b'
  | _, _ => []
  end.

Definition mismatch_positions (a b : string) : list nat :=
  mismatch_from 0 (list_ascii_of_string a) (list_ascii_of_string b).

(** The literal [0.88]: the binary64 number nearest to 88/100. *)
Definition threshold : PrimFloat.float := 0.88%float.

(** The tuple [('first_name', 'last_name')]. *)
Definition name_fields : list string := ["first_name"; "last_name"]%string.

(** The tuple [('first_name', 'last_name', 'postcode')]. *)
Definition key_fields : list string :=
  ["first_name"; "last_name"; "postcode"]%string.

(** [itertools.product] of the unpacked lists: the last list varies
    fastest. *)
Fixpoint product {A : Type} (lists : list (list A)) : list (list A) :=
  match lists with
  | [] => [[]]
  | l :: rest =>
      flat_map (fun x => map (cons x) (product rest)) l
  end.

(** [x * y * ...] over a list of sizes. *)
Definition prod_sizes (ns : list nat) : nat := fold_right Nat.mul 1 ns.

(** Sequencing of a list of computations that may raise. *)
Fixpoint all_some {A : Type} (xs : list (option A)) : option (list A) :=
  match xs with
  | [] => Some []
  | Some x :: xs' =>
      match all_some xs' with Some l => Some (x :: l) | None => None end
  | None :: _ => None
  end.

(** The info dictionary of one variant in the metadata of either file; a
    key that the code does not set is [None]. *)
Record info := Info {
  frequency : nat;
  edit_distance : option nat;
  low_similarity : option bool;
  mismatch_first4 : option bool;
  exploded : option bool
}.

(** [Counter(xs)]. *)
Definition counter (xs : list string) : PyDict.t string nat :=
  fold_left
    (fun d x =>
       PyDict.set x (S (match PyDict.get x d with
                        | Some n => n
                        | None => 0
                        end)) d)
    xs [].

(** Pairs of keys are keys ([groupby] on two columns). *)
Definition pair_eqb {K1 K2 : Type} `{Key K1} `{Key K2} (x y : K1 * K2)
  : bool :=
  keqb (fst x) (fst y) && keqb (snd x) (snd y).

Lemma pair_eqb_eq {K1 K2 : Type} `{Key K1} `{Key K2} (x y : K1 * K2) :
  pair_eqb x y = true <-> x = y.
Proof.
  destruct x as [x1 x2], y as [y1 y2]. unfold pair_eqb. simpl.
  rewrite andb_true_iff, !keqb_eq. split.
  - intros [-> ->]. reflexivity.
  - intros E. inversion E. auto.
Qed.

#[export] Instance Key_pair {K1 K2 : Type} `{Key K1} `{Key K2}
  : Key (K1 * K2) :=
  {| keqb := pair_eqb; keqb_eq := pair_eqb_eq |}.

(** * example_explode_analysis.py *)

Module ExampleExplodeAnalysis.

(** A row of [df]: the [id] cell and the cells of the other columns. *)
Record row := Row { row_id : Z; cell : string -> string }.

(** [df]: [columns] lists the columns other than ['id'], in order. *)
Record frame := Frame { columns : list string; rows : list row }.

(** One row of [df_long]. *)
Record long_row := LongRow {
  l_id : Z; l_field : string; l_variant : string
}.

(** [grouped]: index, columns, and the cell of an index and a column (the
    fill value [[]] where the pair has no row in [df_long]). *)
Record grouped_frame := Grouped {
  g_index : list Z;
  g_columns : list string;
  g_cell : Z -> string -> list string
}.

(** [df_wide]: a cell missing from a row dictionary would be NaN, [None]. *)
Record wide_frame := Wide {
  w_columns : list string;
  w_rows : list (Z * list (option string))
}.

Section Pipeline.

(** [dateutil.parser.parse(s, dayfirst=True).date()]; [None] stands for
    any exception raised on the way. *)
Variable parse : string -> option date.

Definition date_exploded (ref var : string) : bool :=
  match parse ref with
  | None => true
  | Some d1 =>
      match parse var with
      | None => true
      | Some d2 => negb (date_eqb d1 d2)
      end
  end.

(** *** Grouping *)

(** The keys of [df.groupby('id')], in ascending order. *)
Definition group_keys (df : frame) : list Z :=
  sort_by Z.leb (unique (map row_id (rows df))).

(** [df[df['id'] == rid]], rows in their original order. *)
Definition get_group (df : frame) (rid : Z) : list row :=
  filter (fun r => (row_id r =? rid)%Z) (rows df).

Definition groupby (df : frame) : list (Z * list row) :=
  map (fun rid => (rid, get_group df rid)) (group_keys df).

(** [group[fld]]. *)
Definition series (fld : string) (group : list row) : list string :=
  map (fun r => cell r fld) group.

(** [s.iloc[-1]] on the series of a group, which has a row. *)
Definition iloc_last (s : list string) : string := last s EmptyString.

(** *** 1) [reference_by_id] *)

Definition reference_by_id (df : frame)
  : PyDict.t string (PyDict.t Z string) :=
  map (fun fld =>
         (fld, map (fun g => (fst g, iloc_last (series fld (snd g))))
                   (groupby df)))
      (columns df).

(** [s[s != ref_val]]. *)
Definition differing (ref_val : string) (s : list string) : list string :=
  filter (fun v => negb (String.eqb v ref_val)) s.

(** *** 2) [metadata] *)

Definition variant_info (fld ref_val var : string) (count : nat) : info :=
  if mem fld name_fields then
    Info count
         (Some (levenshtein ref_val var))
         (Some (PrimFloat.ltb (jaro_winkler_float ref_val var) threshold))
         (Some (existsb (fun p => p <? 4)
                        (mismatch_positions ref_val var)))
         None
  else if mem fld ["dob"; "postcode"]%string then
    if String.eqb fld "dob" then
      Info count None None None (Some (date_exploded ref_val var))
    else
      Info count (Some (levenshtein ref_val var)) None None None
  else Info count None None None None.

(** The body of the loop over [mapping.items()]; it ends with
    [metadata[fld][ref_val] = {'variants': var_meta}]. *)
Definition metadata_step (df : frame) (fld : string)
    (meta_fld : PyDict.t string (PyDict.t string info))
    (item : Z * string) : PyDict.t string (PyDict.t string info) :=
  let '(rid, ref_val) := item in
  let sub := get_group df rid in
  let variants := differing ref_val (series fld sub) in
  let freq := counter variants in
  let var_meta :=
    fold_left
      (fun vm vc =>
         PyDict.set (fst vc) (variant_info fld ref_val (fst vc) (snd vc))
                    vm)
      freq [] in
  PyDict.set ref_val var_meta meta_fld.

Definition metadata (df : frame)
  : PyDict.t string (PyDict.t string (PyDict.t string info)) :=
  fold_left
    (fun md item =>
       PyDict.set (fst item)
                  (fold_left (metadata_step df (fst item)) (snd item) [])
                  md)
    (reference_by_id df) [].

(** *** 2) [explosions_by_id] *)

(** The [if/elif] chain that sets [explode]. *)
Definition explode_of (fld ref_val var : string) : bool :=
  if mem fld name_fields
  then PrimFloat.ltb (jaro_winkler_float ref_val var) threshold
  else if String.eqb fld "dob" then date_exploded ref_val var
  else if String.eqb fld "postcode" then 0 <? levenshtein ref_val var
  else true.

Definition explosions := PyDict.t Z (list (string * string)).

(** Reading [explosions_by_id[rid]] of the [defaultdict(list)]. *)
Definition entries (rid : Z) (d : explosions) : list (string * string) :=
  match PyDict.get rid d with
  | Some l => l
  | None => []
  end.

(** [explosions_by_id[rid].append(x)]. *)
Definition append_to (rid : Z) (x : string * string) (d : explosions)
  : explosions :=
  PyDict.set rid (entries rid d ++ [x]) d.

(** The body of [for var in variants]; the state is the dictionary and
    [exploded_any]. *)
Definition variant_step (rid : Z) (fld ref_val : string)
    (st : explosions * bool) (var : string) : explosions * bool :=
  if explode_of fld ref_val var
  then (append_to rid (fld, var) (fst st), true)
  else st.

(** The body of [for fld, mapping in reference_by_id.items()];
    [None] is the [KeyError] of [mapping[rid]]. *)
Definition field_step (rid : Z) (group : list row)
    (acc : option explosions) (item : string * PyDict.t Z string)
  : option explosions :=
  match acc with
  | None => None
  | Some d =>
      let '(fld, mapping) := item in
      match PyDict.get rid mapping with
      | None => None
      | Some ref_val =>
          let variants := unique (differing ref_val (series fld group)) in
          let st := fold_left (variant_step rid fld ref_val) variants
                              (d, false) in
          Some (if mem fld key_fields && negb (snd st)
                then append_to rid (fld, ref_val) (fst st)
                else fst st)
      end
  end.

Definition group_step (refs : PyDict.t string (PyDict.t Z string))
    (acc : option explosions) (g : Z * list row) : option explosions :=
  fold_left (field_step (fst g) (snd g)) refs acc.

Definition explosions_by_id (df : frame) : option explosions :=
  fold_left (group_step (reference_by_id df)) (groupby df) (Some []).

(** *** The exploded combinations *)

Definition records (e : explosions) : list long_row :=
  flat_map (fun item =>
              map (fun fv => LongRow (fst item) (fst fv) (snd fv))
                  (snd item))
           e.

(** [df_long.groupby(["id","field"])["variant"].unique()
    .unstack(fill_value=[])]. *)
Definition grouped (df_long : list long_row) : grouped_frame :=
  Grouped
    (sort_by Z.leb (unique (map l_id df_long)))
    (sort_by String.leb (unique (map l_field df_long)))
    (fun rid fld =>
       unique (map l_variant
                   (filter (fun r => (l_id r =? rid)%Z
                                     && String.eqb (l_field r) fld)
                           df_long))).

(** [reference_by_id[fld][rec_id]]. *)
Definition reference_of (refs : PyDict.t string (PyDict.t Z string))
    (fld : string) (rec_id : Z) : option string :=
  match PyDict.get fld refs with
  | Some mapping => PyDict.get rec_id mapping
  | None => None
  end.

(** The body of [for fld in all_fields]: the appended list. *)
Definition variant_list (refs : PyDict.t string (PyDict.t Z string))
    (g : grouped_frame) (rec_id : Z) (fld : string)
  : option (list string) :=
  let exploded :=
    if mem fld (g_columns g) then g_cell g rec_id fld else [] in
  match exploded with
  | _ :: _ => Some exploded
  | [] =>
      match reference_of refs fld rec_id with
      | Some r => Some [r]
      | None => None
      end
  end.

(** [out = {"id": rec_id}; out.update(dict(zip(all_fields, combo)))]:
    the identifier and the field part of [out]. *)
Definition out_of (all_fields : list string) (rec_id : Z)
    (combo : list string) : Z * PyDict.t string string :=
  (rec_id, fold_left (fun d kv => PyDict.set (fst kv) (snd kv) d)
                     (combine all_fields combo) []).

(** The rows appended for one [rec_id]. *)
Definition rows_of (refs : PyDict.t string (PyDict.t Z string))
    (g : grouped_frame) (all_fields : list string) (rec_id : Z)
  : option (list (Z * PyDict.t string string)) :=
  match all_some (map (variant_list refs g rec_id) all_fields) with
  | Some variant_lists =>
      Some (map (out_of all_fields rec_id) (product variant_lists))
  | None => None
  end.

(** [df_wide[["id"] + sorted(all_fields)]]. *)
Definition reorder (all_fields : list string)
    (rows : list (Z * PyDict.t string string)) : wide_frame :=
  let cols := sort_by String.leb all_fields in
  Wide ("id"%string :: cols)
       (map (fun out =>
               (fst out, map (fun c => PyDict.get c (snd out)) cols))
            rows).

(** The whole second half of the script; [None] is an exception: the
    [KeyError] of [mapping[rid]] or of a reference lookup, or the one that
    [groupby(["id", "field"])] raises on a [df_long] without rows. *)
Definition df_wide (df : frame) : option wide_frame :=
  match explosions_by_id df with
  | None => None
  | Some e =>
      let refs := reference_by_id df in
      match records e with
      | [] => None
      | df_long =>
          let g := grouped df_long in
          let all_fields := PyDict.keys refs in
          match all_some (map (rows_of refs g all_fields) (g_index g)) with
          | Some per_id => Some (reorder all_fields (List.concat per_id))
          | None => None
          end
      end
  end.

(** *** What the classification loop appends

    [reference] is the value the loop reads as [mapping[rid]],
    [exploded_variants] the variants for which [explode] is true, and
    [field_entries] the pairs appended for one identifier and field. *)

Definition reference (df : frame) (fld : string) (rid : Z) : string :=
  iloc_last (series fld (get_group df rid)).

Definition variants_of (df : frame) (rid : Z) (fld : string)
  : list string :=
  unique (differing (reference df fld rid)
                    (series fld (get_group df rid))).

Definition exploded_variants (df : frame) (rid : Z) (fld : string)
  : list string :=
  filter (explode_of fld (reference df fld rid)) (variants_of df rid fld).

Definition fallback_entry (df : frame) (rid : Z) (fld : string)
  : list (string * string) :=
  if mem fld key_fields
     && negb (existsb (explode_of fld (reference df fld rid))
                      (variants_of df rid fld))
  then [(fld, reference df fld rid)]
  else [].

Definition field_entries (df : frame) (rid : Z) (fld : string)
  : list (string * string) :=
  map (pair fld) (exploded_variants df rid fld)
  ++ fallback_entry df rid fld.

(** The part of an identifier's list that belongs to one field. *)
Definition entries_for (fld : string) (l : list (string * string))
  : list (string * string) :=
  filter (fun fv => String.eqb (fst fv) fld) l.

(** One field of one group, given the reference read from [mapping]. *)
Definition appended (fld ref_val : string) (group : list row)
  : list (string * string) :=
  let variants := unique (differing ref_val (series fld group)) in
  map (pair fld) (filter (explode_of fld ref_val) variants)
  ++ (if mem fld key_fields
         && negb (existsb (explode_of fld ref_val) variants)
      then [(fld, ref_val)] else []).

(** *** What the combination loop builds

    [field_list] is the list appended to [variant_lists] for one field: the
    values of the field in [explosions_by_id[rid]], or the reference alone.
    [wide_row] is the row of [df_wide] made from one tuple of the product. *)

Definition field_list (e : explosions) (df : frame) (rid : Z) (fld : string)
  : list string :=
  match map snd (entries_for fld (entries rid e)) with
  | [] => [reference df fld rid]
  | l => l
  end.

Definition wide_row (all_fields : list string) (rid : Z)
    (combo : list string) : Z * list (option string) :=
  (rid, map (fun c => PyDict.get c (combine all_fields combo))
            (sort_by String.leb all_fields)).

(** The rows of [df_wide] whose [id] cell is [rid]. *)
Definition rows_with_id (rid : Z) (w : wide_frame)
  : list (Z * list (option string)) :=
  filter (fun r => (fst r =? rid)%Z) (w_rows w).

End Pipeline.

End ExampleExplodeAnalysis.

(** * profile_exploded.py *)

Module ProfileExploded.

(** A row of the input frame: the cells of [id_col], of [ts_col] and of the
    other columns.  [main] passes every profiled column through
    [astype(str).str.lower()], so each cell is a string and none is null. *)
Record row := Row { row_id : Z; row_ts : Z; cell : string -> string }.

(** A row of [freq_df]. *)
Record freq_row := FreqRow {
  f_id : Z; f_variant : string; f_frequency : nat; f_field : string
}.

(** A row of [ref_df]: the identifier and the selected columns. *)
Record ref_row := RefRow { r_id : Z; r_cell : string -> string }.

(** A row of [merged]: a row of [freq_df] with the reference of its
    identifier. *)
Record merged_row := MergedRow {
  m_id : Z; m_variant : string; m_frequency : nat; m_field : string;
  m_reference : string
}.

(** A row of [refs], the melted [ref_df]. *)
Record melted_row := MeltedRow {
  mr_id : Z; mr_field : string; mr_reference : string
}.

(** The exceptions that the loop of [find_explosions] can raise. *)
Inductive exn := ValueError | IndexError.

Section Library.

(** [dateutil.parser.parse(s, dayfirst=True).date()]; [None] stands for any
    exception raised on the way. *)
Variable parse : string -> option date.

(** [rapidfuzz.distance.JaroWinkler.similarity], a Python [float]. *)
Variable JaroWinkler_similarity : string -> string -> PrimFloat.float.

(** [rapidfuzz.distance.Levenshtein.distance]. *)
Variable Levenshtein_distance : string -> string -> nat.

(** [df.sort_values(ts_col)]: pandas sorts with its default quicksort, so
    the order of rows with equal timestamps is left to the library. *)
Variable sort_values : list row -> list row.

(** The keys of [groupby(id_col)], in ascending order. *)
Definition group_keys (df : list row) : list Z :=
  sort_by Z.leb (unique (map row_id df)).

Definition get_group (df : list row) (rid : Z) : list row :=
  filter (fun r => (row_id r =? rid)%Z) df.

(** [GroupBy.last()] on one column of a group. *)
Definition last_cell (fld : string) (group : list row) : string :=
  last (map (fun r => cell r fld) group) EmptyString.

(** [get_references]: the rows of [latest], one per identifier.  The final
    selection [latest[[id_col] + fields]] drops columns and changes no
    cell, so a row keeps the cell of every column. *)
Definition get_references (df : list row) : list ref_row :=
  let sorted := sort_values df in
  map (fun rid => RefRow rid (fun fld => last_cell fld (get_group sorted rid)))
      (group_keys sorted).

(** [groupby([id_col, fld], sort=False).size()] for each field, the pieces
    concatenated. *)
Definition compute_frequencies (df : list row) (fields : list string)
  : list freq_row :=
  flat_map
    (fun fld =>
       map (fun iv =>
              FreqRow (fst iv) (snd iv)
                      (len (filter (fun r => keqb (row_id r, cell r fld) iv)
                                   df))
                      fld)
           (unique (map (fun r => (row_id r, cell r fld)) df)))
    fields.

Definition date_exploded (ref var : string) : bool :=
  match parse ref with
  | None => true
  | Some d1 =>
      match parse var with
      | None => true
      | Some d2 => negb (date_eqb d1 d2)
      end
  end.

(** [f.merge(ref_df[[id_col, fld]].rename(columns={fld: 'reference'}),
    on=id_col, how='inner')]. *)
Definition merge_reference (f : list freq_row) (ref_df : list ref_row)
    (fld : string) : list merged_row :=
  flat_map
    (fun fr =>
       map (fun rr =>
              MergedRow (f_id fr) (f_variant fr) (f_frequency fr)
                        (f_field fr) (r_cell rr fld))
           (filter (fun rr => (r_id rr =? f_id fr)%Z) ref_df))
    f.

Definition variant_info (fld ref_val variant : string) (count : nat) : info :=
  if mem fld name_fields then
    Info count
         (Some (Levenshtein_distance ref_val variant))
         (Some (PrimFloat.ltb (JaroWinkler_similarity ref_val variant)
                              threshold))
         (Some (existsb (fun i => i <? 4)
                        (mismatch_positions ref_val variant)))
         None
  else if mem fld ["dob"; "postcode"]%string then
    if String.eqb fld "dob" then
      Info count None None None (Some (date_exploded ref_val variant))
    else
      Info count (Some (Levenshtein_distance ref_val variant)) None None None
  else Info count None None None None.

(** The body of [for ref_val, group in merged.groupby('reference',
    sort=False)]. *)
Definition reference_step (fld : string) (merged : list merged_row)
    (meta_fld : PyDict.t string (PyDict.t string info)) (ref_val : string)
  : PyDict.t string (PyDict.t string info) :=
  let group := filter (fun m => String.eqb (m_reference m) ref_val) merged in
  let subs :=
    filter (fun m => negb (String.eqb (m_variant m) ref_val)) group in
  let freq := counter (map m_variant subs) in
  let variants_meta :=
    fold_left
      (fun vm vc =>
         PyDict.set (fst vc) (variant_info fld ref_val (fst vc) (snd vc)) vm)
      freq [] in
  PyDict.set ref_val variants_meta meta_fld.

Definition build_metadata (freq_df : list freq_row) (ref_df : list ref_row)
    (fields : list string)
  : PyDict.t string (PyDict.t string (PyDict.t string info)) :=
  fold_left
    (fun meta fld =>
       let f := filter (fun fr => String.eqb (f_field fr) fld) freq_df in
       let merged := merge_reference f ref_df fld in
       PyDict.set fld
                  (fold_left (reference_step fld merged)
                             (unique (map m_reference merged)) [])
                  meta)
    fields [].

(** The inner function of [find_explosions]. *)
Definition should_explode (row : merged_row) : bool :=
  let fld := m_field row in
  let ref := m_reference row in
  let var := m_variant row in
  if String.eqb var ref then false
  else if mem fld name_fields then
    PrimFloat.ltb (JaroWinkler_similarity ref var) threshold
  else if String.eqb fld "dob" then date_exploded ref var
  else if String.eqb fld "postcode" then 0 <? Levenshtein_distance ref var
  else true.

(** *** [find_explosions] *)

(** [ref_df.melt(id_vars=[id_col], value_vars=fields, var_name='field',
    value_name='reference')]: one block of rows per field. *)
Definition melt (ref_df : list ref_row) (fields : list string)
  : list melted_row :=
  flat_map
    (fun fld => map (fun rr => MeltedRow (r_id rr) fld (r_cell rr fld)) ref_df)
    fields.

(** [freq_df.merge(refs, on=[id_col, 'field'], how='inner')]. *)
Definition merge_refs (freq_df : list freq_row) (refs : list melted_row)
  : list merged_row :=
  flat_map
    (fun fr =>
       map (fun mr =>
              MergedRow (f_id fr) (f_variant fr) (f_frequency fr)
                        (f_field fr) (mr_reference mr))
           (filter (fun mr => (mr_id mr =? f_id fr)%Z
                              && String.eqb (mr_field mr) (f_field fr))
                   refs))
    freq_df.

(** [merged['explode'] = merged.apply(should_explode, axis=1)]: a row of
    [merged] with its cell of the new column. *)
Definition with_explode (merged : list merged_row)
  : list (merged_row * bool) :=
  map (fun m => (m, should_explode m)) merged.

(** The truth value of a [str] cell. *)
Definition str_truth (s : string) : bool :=
  negb (String.eqb s EmptyString).

(** [DataFrame.any()]: one truth value per column, in the order of the
    columns of [merged]: the identifier, [variant], [frequency], [field],
    [reference], [explode]. *)
Definition frame_any (rows : list (merged_row * bool)) : list bool :=
  [ existsb (fun r => negb (m_id (fst r) =? 0)%Z) rows;
    existsb (fun r => str_truth (m_variant (fst r))) rows;
    existsb (fun r => negb (m_frequency (fst r) =? 0)) rows;
    existsb (fun r => str_truth (m_field (fst r))) rows;
    existsb (fun r => str_truth (m_reference (fst r))) rows;
    existsb snd rows ].

(** [bool(s)] of a Series [s], which [not s] evaluates: pandas raises
    [ValueError] ("The truth value of a Series is ambiguous") for every
    Series, whatever it holds. *)
Definition series_bool (s : list bool) : exn + bool := inl ValueError.

(** The body of [for fld in fields], on the list [pairs];
    [.iloc[0]] raises [IndexError] on an empty selection. *)
Definition fallback_step (ref_df : list ref_row) (rid : Z)
    (exploded : list (merged_row * bool))
    (acc : exn + list (string * string)) (fld : string)
  : exn + list (string * string) :=
  match acc with
  | inl ex => inl ex
  | inr pairs =>
      match filter (fun rr => (r_id rr =? rid)%Z) ref_df with
      | [] => inl IndexError
      | rr :: _ =>
          let refs_for_id := r_cell rr fld in
          if mem fld key_fields then
            match series_bool
                    (frame_any
                       (filter (fun r => String.eqb (m_field (fst r)) fld)
                               exploded)) with
            | inl ex => inl ex
            | inr b =>
                if negb b then inr (pairs ++ [(fld, refs_for_id)])%list
                else inr pairs
            end
          else inr pairs
      end
  end.

(** The body of [for rid, group in merged.groupby(id_col)]. *)
Definition id_step (ref_df : list ref_row) (fields : list string)
    (merged : list (merged_row * bool))
    (acc : exn + PyDict.t Z (list (string * string))) (rid : Z)
  : exn + PyDict.t Z (list (string * string)) :=
  match acc with
  | inl ex => inl ex
  | inr explosions =>
      let group := filter (fun r => (m_id (fst r) =? rid)%Z) merged in
      let exploded := filter snd group in
      let pairs :=
        map (fun r => (m_field (fst r), m_variant (fst r))) exploded in
      match fold_left (fallback_step ref_df rid exploded) fields
                      (inr pairs) with
      | inl ex => inl ex
      | inr pairs' => inr (PyDict.set rid pairs' explosions)
      end
  end.

(** What [find_explosions] does when [merged] has no row is left to the
    library: [apply] on an empty frame returns no column of truth values,
    and the assignment of [explode] differs between pandas versions. *)
Variable empty_merged_outcome : exn + PyDict.t Z (list (string * string)).

(** [find_explosions]: the dictionary returned, or the exception raised. *)
Definition find_explosions (freq_df : list freq_row)
    (ref_df : list ref_row) (fields : list string)
  : exn + PyDict.t Z (list (string * string)) :=
  match merge_refs freq_df (melt ref_df fields) with
  | [] => empty_merged_outcome
  | rows =>
      let merged := with_explode rows in
      fold_left (id_step ref_df fields merged)
                (sort_by Z.leb (unique (map (fun r => m_id (fst r)) merged)))
                (inr [])
  end.

End Library.

End ProfileExploded.

(** ** The data frame built by the script *)

Module ScriptData.
Import ExampleExplodeAnalysis.
Local Open Scope string_scope.

(** [str.lower()] on the ASCII letters, which is all the data holds. *)
Definition lower_char (c : ascii) : ascii :=
  let n := nat_of_ascii c in
  if ((65 <=? n) && (n <=? 90))%nat then ascii_of_nat (n + 32) else c.

Fixpoint lower (s : string) : string :=
  match s with
  | EmptyString => EmptyString
  | String c s' => String (lower_char c) (lower s')
  end.

(** The dictionary [fields], column by column. *)
Definition fields_id : list Z := [1; 1; 1; 2; 2; 2]%Z.

Definition fields : list (string * list string) :=
  [ ("first_name", ["john"; "jon"; "jahn"; "jhon"; "johm"; "johnny"]);
    ("last_name", ["smith"; "smoth"; "smyth"; "smih"; "smiht"; "smith"]);
    ("sex", ["M"; "Male"; "m"; "F"; "f"; "Female"]);
    ("dob", ["1985-06-15"; "15-06-1985"; "1985/06/15";
             "1985-06-16"; "1985-6-15"; "19850615"]);
    ("address", ["123 Main St"; "123 Main Street"; "124 Main St";
                 "123 Main St."; "123 Main St Apt1"; "123 Main St, Apt 1"]);
    ("postcode", ["SW1A1AA"; "SW1A 1AA"; "SW1A1A";
                  "SW1A1AB"; "SW1A1BA"; "SW1A1AA"]);
    ("telephone", ["02079460000"; "+442079460000"; "0207946000";
                   "2079460000"; "+44 20 79460000"; "0207946000"]);
    ("email", ["john.smith@exmaple.com"; "john.smith@example.co.uk";
               "johnsmith@example.com"; "john.smit@example.com";
               "john.smith@example.org"; "john.smith@example.com"]) ].

(** Row [i] of [pd.DataFrame(fields)] after the lower-casing loop. *)
Definition script_row (i : nat) (rid : Z) : row :=
  Row rid
      (fun c =>
         match PyDict.get c fields with
         | Some col => lower (nth i col "")
         | None => ""
         end).

Definition df : frame :=
  Frame (map fst fields)
        (map (fun ir => script_row (fst ir) (snd ir))
             (combine (seq 0 (len fields_id)) fields_id)).

(** A date parser for the examples: it reads the six [dob] cells of the
    script day first and finds every other string unparsable. *)
Definition fixture_parse (s : string) : option date :=
  if mem s ["1985-06-15"; "15-06-1985"; "1985/06/15"; "1985-6-15";
            "19850615"]
  then Some (Date 1985 6 15)
  else if String.eqb s "1985-06-16" then Some (Date 1985 6 16)
  else None.

(** The same six records as an input of profile_exploded.py, the row number
    standing for the timestamp. *)
Definition profile_rows : list ProfileExploded.row :=
  map (fun ir =>
         ProfileExploded.Row (snd ir) (Z.of_nat (fst ir))
                             (cell (script_row (fst ir) (snd ir))))
      (combine (seq 0 (len fields_id)) fields_id).

(** A sort by timestamp for the examples (an insertion sort). *)
Definition ts_leb (a b : ProfileExploded.row) : bool :=
  (ProfileExploded.row_ts a <=? ProfileExploded.row_ts b)%Z.

Definition fixture_sort
  : list ProfileExploded.row -> list ProfileExploded.row :=
  sort_by ts_leb.

(** The second scenario of the specification: one identifier whose three
    postcodes are equal. *)
Definition same_postcode : frame :=
  Frame ["postcode"]
        (map (fun _ : nat => Row 2 (fun _ => "sw1a1aa")) (seq 0 3)).

(** The first scenario: three first names of one identifier. *)
Definition three_names : frame :=
  Frame ["first_name"]
        (map (fun v => Row 1 (fun _ => v)) ["john"; "jon"; "jahn"]).

(** One identifier whose variant occurs twice. *)
Definition repeated_variant : list ProfileExploded.row :=
  map (fun iv => ProfileExploded.Row 1 (Z.of_nat (fst iv)) (fun _ => snd iv))
      (combine (seq 0 3) ["a"; "a"; "b"]).

End ScriptData.


(** ** Parts of the loop bodies

    The dictionary built inside one pass of a metadata loop, named so
    that statements can speak about it. *)

Module LoopParts.

Section Parts.

Variable parse : string -> option date.

(** example_explode_analysis.py, lines 98-116: [var_meta] when the loop
    over [freq.items()] has ended, for the identifier [rid] and the
    reference [ref_val] of the field. *)
Definition var_meta (df : ExampleExplodeAnalysis.frame) (fld : string)
    (rid : Z) (ref_val : string) : PyDict.t string info :=
  fold_left
    (fun vm vc =>
       PyDict.set (fst vc)
                  (ExampleExplodeAnalysis.variant_info parse fld ref_val
                     (fst vc) (snd vc))
                  vm)
    (counter (ExampleExplodeAnalysis.differing ref_val
                (ExampleExplodeAnalysis.series fld
                   (ExampleExplodeAnalysis.get_group df rid))))
    [].

End Parts.

End LoopParts.
(** * Facts *)

(** ** The recursive edit distance is a metric *)

Section LevSpec.

Lemma lev_spec_nil_r a : lev_spec a [] = len a.
Proof. destruct a; reflexivity. Qed.

Lemma lev_spec_cons x a y b :
  lev_spec (x :: a) (y :: b)
  = min3 (lev_spec a (y :: b) + 1) (lev_spec (x :: a) b + 1)
         (lev_spec a b + neq_cost x y).
Proof. reflexivity. Qed.

Lemma neq_cost_sym x y : neq_cost x y = neq_cost y x.
Proof. unfold neq_cost. now rewrite Ascii.eqb_sym. Qed.

Lemma neq_cost_refl x : neq_cost x x = 0.
Proof. unfold neq_cost. now rewrite Ascii.eqb_refl. Qed.

Lemma neq_cost_zero x y : neq_cost x y = 0 -> x = y.
Proof.
  unfold neq_cost. destruct (Ascii.eqb x y) eqn:E; [|discriminate].
  intros _. now apply Ascii.eqb_eq.
Qed.

Lemma neq_cost_le1 x y : neq_cost x y <= 1.
Proof. unfold neq_cost. destruct (Ascii.eqb x y); lia. Qed.

Lemma neq_cost_triangle x y z :
  neq_cost x z <= neq_cost x y + neq_cost y z.
Proof.
  unfold neq_cost.
  destruct (Ascii.eqb x y) eqn:Exy; destruct (Ascii.eqb y z) eqn:Eyz;
    destruct (Ascii.eqb x z) eqn:Exz; try lia.
  apply Ascii.eqb_eq in Exy, Eyz. subst.
  rewrite Ascii.eqb_refl in Exz. discriminate.
Qed.

Lemma lev_spec_sym a : forall b, lev_spec a b = lev_spec b a.
Proof.
  induction a as [|x a IHa]; intros b.
  - now rewrite lev_spec_nil_r.
  - induction b as [|y b IHb].
    + reflexivity.
    + rewrite !lev_spec_cons, IHb, (IHa (y :: b)), (IHa b),
        (neq_cost_sym x y).
      unfold min3. lia.
Qed.

Lemma lev_spec_refl a : lev_spec a a = 0.
Proof.
  induction a as [|x a IH]; [reflexivity|].
  rewrite lev_spec_cons, IH, neq_cost_refl. unfold min3. lia.
Qed.

Lemma lev_spec_zero a : forall b, lev_spec a b = 0 -> a = b.
Proof.
  induction a as [|x a IH]; intros [|y b] H; try discriminate.
  - reflexivity.
  - rewrite lev_spec_cons in H. unfold min3 in H.
    assert (H0 : lev_spec a b = 0 /\ neq_cost x y = 0) by lia.
    destruct H0 as [Hab Hxy].
    now rewrite (IH b Hab), (neq_cost_zero x y Hxy).
Qed.

(** The distance is at least the difference of the lengths. *)
Lemma lev_spec_len_lower a :
  forall b, len a <= len b + lev_spec a b /\ len b <= len a + lev_spec a b.
Proof.
  induction a as [|x a IHa]; intros b.
  - simpl. lia.
  - induction b as [|y b IHb].
    + simpl. lia.
    + rewrite lev_spec_cons. unfold min3.
      pose proof (IHa (y :: b)) as H1. pose proof (IHa b) as H2.
      simpl List.length in *. lia.
Qed.

Lemma lev_spec_len_upper a : forall b, lev_spec a b <= len a + len b.
Proof.
  induction a as [|x a IHa]; intros b.
  - simpl. lia.
  - induction b as [|y b IHb].
    + simpl. lia.
    + rewrite lev_spec_cons. unfold min3.
      pose proof (IHa b) as H2. pose proof (neq_cost_le1 x y).
      simpl List.length in *. lia.
Qed.

Lemma lev_spec_triangle_n n :
  forall a b c, len a + len b + len c <= n ->
                lev_spec a c <= lev_spec a b + lev_spec b c.
Proof.
  induction n as [|n IH]; intros a b c Hn.
  - destruct a, b, c; simpl in Hn; lia.
  - pose proof (lev_spec_len_lower a b) as Lab.
    pose proof (lev_spec_len_lower b c) as Lbc.
    pose proof (lev_spec_len_upper a c) as Uac.
    destruct a as [|x a]; [cbn [lev_spec] in *; lia|].
    destruct b as [|y b];
      [rewrite lev_spec_nil_r in *; cbn [lev_spec] in *; lia|].
    destruct c as [|z c]; [rewrite !lev_spec_nil_r in *; lia|].
    clear Lab Lbc Uac.
    simpl List.length in Hn.
    pose proof (IH a (y :: b) (z :: c)) as I1.
    pose proof (IH (x :: a) (y :: b) c) as I2.
    pose proof (IH (x :: a) b (z :: c)) as I3.
    pose proof (IH (x :: a) b c) as I4.
    pose proof (IH a b (z :: c)) as I5.
    pose proof (IH a b c) as I6.
    simpl List.length in I1, I2, I3, I4, I5, I6.
    specialize (I1 ltac:(lia)). specialize (I2 ltac:(lia)).
    specialize (I3 ltac:(lia)). specialize (I4 ltac:(lia)).
    specialize (I5 ltac:(lia)). specialize (I6 ltac:(lia)).
    pose proof (neq_cost_triangle x y z) as Hc.
    pose proof (lev_spec_cons x a y b) as Eab.
    pose proof (lev_spec_cons y b z c) as Ebc.
    pose proof (lev_spec_cons x a z c) as Eac.
    unfold min3 in Eab, Ebc, Eac.
    fold (lev_spec (x :: a)) in *.
    lia.
Qed.

Lemma lev_spec_triangle a b c :
  lev_spec a c <= lev_spec a b + lev_spec b c.
Proof. now apply (lev_spec_triangle_n (len a + len b + len c)). Qed.

End LevSpec.

(** ** The loop of [levenshtein] fills the table row by row *)

Section LevLoop.

Lemma nth_map_seq {A : Type} (f : nat -> A) (d : A) n j :
  j < n -> nth j (map f (seq 0 n)) d = f j.
Proof.
  intros Hj.
  rewrite (nth_indep _ d (f 0)) by now rewrite length_map, length_seq.
  rewrite (map_nth f (seq 0 n) 0 j), seq_nth by assumption.
  reflexivity.
Qed.

Lemma map_seq_snoc {A : Type} (f : nat -> A) n :
  map f (seq 0 (n + 1)) = map f (seq 0 n) ++ [f n].
Proof. now rewrite seq_app, map_app. Qed.

Lemma enumerate_app {A : Type} (xs ys : list A) : forall k,
  enumerate k (xs ++ ys) = enumerate k xs ++ enumerate (k + len xs) ys.
Proof.
  induction xs as [|x xs IH]; intros k; simpl.
  - now rewrite Nat.add_0_r.
  - rewrite IH. do 3 f_equal. lia.
Qed.

Lemma lev_table_nil_l y : lev_table [] y = len y.
Proof. unfold lev_table. simpl. apply length_rev. Qed.

Lemma lev_table_nil_r x : lev_table x [] = len x.
Proof. unfold lev_table. simpl. rewrite lev_spec_nil_r. apply length_rev. Qed.

Lemma lev_table_snoc x c y d :
  lev_table (x ++ [c]) (y ++ [d])
  = min3 (lev_table x (y ++ [d]) + 1) (lev_table (x ++ [c]) y + 1)
         (lev_table x y + neq_cost c d).
Proof. unfold lev_table. rewrite !rev_unit. apply lev_spec_cons. Qed.

Lemma firstn_snoc (b1 : list ascii) d b2 :
  firstn (len b1 + 1) (b1 ++ d :: b2) = b1 ++ [d].
Proof.
  rewrite firstn_app, firstn_all2 by lia.
  replace (len b1 + 1 - len b1) with 1 by lia. reflexivity.
Qed.

Lemma firstn_exact (b1 b2 : list ascii) : firstn (len b1) (b1 ++ b2) = b1.
Proof.
  rewrite firstn_app, firstn_all, Nat.sub_diag. simpl. apply app_nil_r.
Qed.

(** The inner loop, started after the prefix [b1] of [b]. *)
Lemma lev_inner_loop x c b : forall b2 b1,
  b = b1 ++ b2 ->
  fold_left (lev_cell c (lev_row_spec x b)) (enumerate (len b1 + 1) b2)
    (map (fun j => lev_table (x ++ [c]) (firstn j b)) (seq 0 (len b1 + 1)))
  = lev_row_spec (x ++ [c]) b.
Proof.
  induction b2 as [|d b2 IH]; intros b1 Hb.
  - simpl. unfold lev_row_spec. subst b. now rewrite app_nil_r.
  - cbn [fold_left enumerate].
    assert (Hb' : b = (b1 ++ [d]) ++ b2) by now rewrite <- app_assoc.
    specialize (IH (b1 ++ [d]) Hb').
    rewrite length_app in IH. simpl List.length in IH.
    rewrite <- IH. f_equal; [f_equal; lia|].
    unfold lev_cell.
    rewrite (map_seq_snoc _ (len b1 + 1)). f_equal. f_equal.
    assert (Hlen : len b = len b1 + S (len b2))
      by (subst b; now rewrite length_app).
    unfold lev_row_spec.
    rewrite !nth_map_seq by lia.
    replace (len b1 + 1 - 1) with (len b1) by lia.
    subst b. rewrite firstn_snoc, firstn_exact.
    symmetry. apply lev_table_snoc.
Qed.

Lemma lev_row_ok x c b :
  lev_row b (lev_row_spec x b) (len x + 1, c) = lev_row_spec (x ++ [c]) b.
Proof.
  unfold lev_row.
  rewrite <- (lev_inner_loop x c b b [] eq_refl). simpl.
  now rewrite lev_table_nil_r, length_app.
Qed.

(** The outer loop, started after the prefix [a1] of [a]. *)
Lemma lev_outer_loop b : forall a2 a1,
  fold_left (lev_row b) (enumerate (len a1 + 1) a2) (lev_row_spec a1 b)
  = lev_row_spec (a1 ++ a2) b.
Proof.
  induction a2 as [|c a2 IH]; intros a1.
  - simpl. now rewrite app_nil_r.
  - cbn [fold_left enumerate]. rewrite lev_row_ok.
    specialize (IH (a1 ++ [c])). rewrite length_app in IH.
    cbn [List.length] in IH.
    replace (S (len a1 + 1)) with (len a1 + 1 + 1) by lia.
    rewrite IH, <- app_assoc. reflexivity.
Qed.

Lemma lev_row_spec_nil b : lev_row_spec [] b = seq 0 (len b + 1).
Proof.
  unfold lev_row_spec.
  rewrite <- (map_id (seq 0 (len b + 1))) at 2.
  apply map_ext_in. intros j Hj. apply in_seq in Hj.
  rewrite lev_table_nil_l, length_firstn. lia.
Qed.

Lemma lev_rows_spec a b : lev_rows a b = lev_row_spec a b.
Proof.
  unfold lev_rows. rewrite <- lev_row_spec_nil.
  apply (lev_outer_loop b a []).
Qed.

Lemma last_lev_row_spec a b : last (lev_row_spec a b) 0 = lev_table a b.
Proof.
  unfold lev_row_spec. rewrite map_seq_snoc, last_last.
  now rewrite firstn_all.
Qed.

Lemma lev_table_sym a b : lev_table a b = lev_table b a.
Proof. apply lev_spec_sym. Qed.

(** The function computes the table entry of the two whole strings, in
    either branch of the initial swap. *)
Lemma levenshtein_chars_spec a b : levenshtein_chars a b = lev_table a b.
Proof.
  unfold levenshtein_chars.
  destruct (len a <? len b);
    rewrite lev_rows_spec, last_lev_row_spec; [apply lev_table_sym|easy].
Qed.

End LevLoop.

(** ** Invariants of the Jaro match loop *)

Section JaroLoop.



Lemma nth_set_nth_eq {A : Type} (v d : A) xs : forall i,
  i < len xs -> nth i (set_nth i v xs) d = v.
Proof.
  induction xs as [|x xs IH]; intros [|i] Hi; simpl in *; try lia; auto.
  apply IH. lia.
Qed.














End JaroLoop.

(** ** Bounds of the Jaro score and of the Winkler boost *)

Section JaroBounds.

Local Open Scope Q_scope.











End JaroBounds.

(** ** Keys, [unique] and sorting *)

Section KeyFacts.
Context {K : Type} `{Key K}.

Lemma keqb_refl (x : K) : keqb x x = true.
Proof. now apply keqb_eq. Qed.

Lemma keqb_neq (x y : K) : keqb x y = false <-> x <> y.
Proof.
  split.
  - intros E Heq. apply keqb_eq in Heq. congruence.
  - intros Hne. destruct (keqb x y) eqn:E; auto.
    apply keqb_eq in E. contradiction.
Qed.

Lemma mem_In (x : K) xs : mem x xs = true <-> In x xs.
Proof.
  unfold mem. rewrite existsb_exists. split.
  - intros (y & Hy & E). apply keqb_eq in E. now subst.
  - intros Hx. exists x. split; [assumption|apply keqb_refl].
Qed.

Lemma mem_cons (x y : K) xs : mem x (y :: xs) = keqb x y || mem x xs.
Proof. reflexivity. Qed.

Lemma mem_not_In (x : K) xs : mem x xs = false <-> ~ In x xs.
Proof.
  rewrite <- mem_In. destruct (mem x xs); split; congruence.
Qed.

Lemma unique_from_In seen xs x :
  In x (unique_from seen xs) <-> In x xs /\ ~ In x seen.
Proof.
  revert seen. induction xs as [|y xs IH]; intros seen; simpl.
  - tauto.
  - destruct (mem y seen) eqn:E.
    + apply mem_In in E. rewrite IH. split.
      * tauto.
      * intros [[->|Hx] Hn]; [contradiction|tauto].
    + apply mem_not_In in E. simpl. rewrite IH. simpl. split.
      * intros [->|[Hx Hn]]; [tauto|]. tauto.
      * intros [[->|Hx] Hn]; [tauto|].
        destruct (keqb y x) eqn:Eyx.
        -- apply keqb_eq in Eyx. tauto.
        -- apply keqb_neq in Eyx. right. tauto.
Qed.

Lemma unique_In xs x : In x (unique xs) <-> In x xs.
Proof. unfold unique. rewrite unique_from_In. simpl. tauto. Qed.

Lemma unique_from_NoDup seen xs : NoDup (unique_from seen xs).
Proof.
  revert seen. induction xs as [|y xs IH]; intros seen; simpl.
  - constructor.
  - destruct (mem y seen); [apply IH|].
    constructor; [|apply IH].
    rewrite unique_from_In. simpl. tauto.
Qed.

Lemma unique_NoDup xs : NoDup (unique xs).
Proof. apply unique_from_NoDup. Qed.

(** On a list without repetition [unique] changes nothing. *)
Lemma unique_from_id seen xs :
  NoDup xs -> (forall x, In x xs -> ~ In x seen) ->
  unique_from seen xs = xs.
Proof.
  revert seen. induction xs as [|y xs IH]; intros seen Hnd Hs; simpl.
  - reflexivity.
  - inversion Hnd as [|? ? Hy Hnd']; subst.
    assert (E : mem y seen = false).
    { apply mem_not_In. apply Hs. now left. }
    rewrite E. f_equal. apply IH; [assumption|].
    intros x Hx [->|Hin]; [contradiction|].
    apply (Hs x); [now right|assumption].
Qed.

Lemma unique_id xs : NoDup xs -> unique xs = xs.
Proof. intros Hnd. apply unique_from_id; auto. Qed.

End KeyFacts.

Section SortFacts.
Context {A : Type} (leb : A -> A -> bool).

Local Abbreviation insert_sorted := (insert_sorted leb).
Local Abbreviation sort_by := (sort_by leb).

Lemma insert_sorted_perm x xs : Permutation (x :: xs) (insert_sorted x xs).
Proof.
  induction xs as [|y xs IH]; simpl.
  - reflexivity.
  - destruct (leb x y); [reflexivity|].
    rewrite perm_swap. now constructor.
Qed.

Lemma sort_by_perm xs : Permutation xs (sort_by xs).
Proof.
  induction xs as [|x xs IH]; simpl.
  - constructor.
  - rewrite <- insert_sorted_perm. now constructor.
Qed.

Hypothesis leb_total : forall x y, leb x y = true \/ leb y x = true.

Lemma insert_sorted_sorted x xs :
  Sorted (fun a b => leb a b = true) xs ->
  Sorted (fun a b => leb a b = true) (insert_sorted x xs).
Proof.
  induction xs as [|y xs IH]; intros Hs; simpl.
  - repeat constructor.
  - destruct (leb x y) eqn:E.
    + constructor; [assumption|]. now constructor.
    + inversion Hs as [|? ? Hs' Hhd]; subst.
      constructor; [now apply IH|].
      destruct xs as [|z xs]; simpl.
      * constructor. destruct (leb_total x y); congruence.
      * destruct (leb x z).
        -- constructor. destruct (leb_total x y); congruence.
        -- inversion Hhd; subst. now constructor.
Qed.

Lemma sort_by_sorted xs : Sorted (fun a b => leb a b = true) (sort_by xs).
Proof.
  induction xs as [|x xs IH]; simpl.
  - constructor.
  - now apply insert_sorted_sorted.
Qed.

End SortFacts.

Lemma sort_by_In {A : Type} (leb : A -> A -> bool) xs x :
  In x (sort_by leb xs) <-> In x xs.
Proof.
  split; apply Permutation_in;
    [symmetry|]; apply sort_by_perm.
Qed.

Lemma sort_by_NoDup {A : Type} (leb : A -> A -> bool) xs :
  NoDup xs -> NoDup (sort_by leb xs).
Proof. apply Permutation_NoDup, sort_by_perm. Qed.

(** ** Python dictionaries as insertion-ordered association lists *)
(** ** Dictionaries *)

Module PyDictFacts.
Import PyDict.
Section Dict.
Context {K V : Type} `{Key K}.

Lemma get_set_eq (k : K) (v : V) (d : list (K * V)) :
  get k (set k v d) = Some v.
Proof.
  induction d as [|[k' v'] d IH]; simpl.
  - now rewrite keqb_refl.
  - destruct (keqb k k') eqn:E; simpl.
    + now rewrite keqb_refl.
    + now rewrite E.
Qed.

Lemma get_set_ne (k k' : K) (v : V) (d : list (K * V)) :
  k <> k' -> get k' (set k v d) = get k' d.
Proof.
  intros Hne. induction d as [|[k0 v0] d IH]; simpl.
  - assert (E : keqb k' k = false) by (apply keqb_neq; congruence).
    now rewrite E.
  - destruct (keqb k k0) eqn:E; simpl.
    + apply keqb_eq in E. subst k0.
      assert (E' : keqb k' k = false) by (apply keqb_neq; congruence).
      now rewrite E'.
    + destruct (keqb k' k0); auto.
Qed.

(** A dictionary comprehension [{k: f(k) for k in ks}]. *)
Lemma get_map (f : K -> V) (ks : list K) (k : K) :
  get k (map (fun k' => (k', f k')) ks)
  = if mem k ks then Some (f k) else None.
Proof.
  induction ks as [|k' ks IH]; simpl.
  - reflexivity.
  - destruct (keqb k k') eqn:E; simpl.
    + apply keqb_eq in E. now subst.
    + apply IH.
Qed.

End Dict.

End PyDictFacts.

(** ** Shared helpers *)

Lemma date_eqb_eq d1 d2 : date_eqb d1 d2 = true <-> d1 = d2.
Proof.
  destruct d1 as [y1 m1 a1], d2 as [y2 m2 a2]. unfold date_eqb. simpl.
  rewrite !andb_true_iff, !Z.eqb_eq. split.
  - intros [[-> ->] ->]. reflexivity.
  - intros E. inversion E. auto.
Qed.

(** ** The classification loop of example_explode_analysis.py *)

Section ExampleLoop.

Import ExampleExplodeAnalysis.

Variable parse : string -> option date.

Local Abbreviation explode_of := (explode_of parse).
Local Abbreviation variant_step := (variant_step parse).
Local Abbreviation field_step := (field_step parse).
Local Abbreviation group_step := (group_step parse).
Local Abbreviation explosions_by_id := (explosions_by_id parse).
Local Abbreviation appended := (appended parse).
Local Abbreviation field_entries := (field_entries parse).
Local Abbreviation exploded_variants := (exploded_variants parse).
Local Abbreviation fallback_entry := (fallback_entry parse).

Lemma entries_append_eq rid x d :
  entries rid (append_to rid x d) = entries rid d ++ [x].
Proof.
  unfold append_to. unfold entries at 1.
  now rewrite PyDictFacts.get_set_eq.
Qed.

Lemma entries_append_ne rid rid' x d :
  rid <> rid' -> entries rid' (append_to rid x d) = entries rid' d.
Proof.
  intros Hne. unfold append_to. unfold entries at 1 3.
  now rewrite PyDictFacts.get_set_ne.
Qed.

Lemma variant_loop rid fld ref_val : forall variants d any,
  let st := fold_left (variant_step rid fld ref_val) variants (d, any) in
  entries rid (fst st)
  = entries rid d
    ++ map (pair fld) (filter (explode_of fld ref_val) variants)
  /\ (forall rid', rid <> rid' -> entries rid' (fst st) = entries rid' d)
  /\ snd st = any || existsb (explode_of fld ref_val) variants.
Proof.
  induction variants as [|var variants IH]; intros d any; simpl.
  - rewrite app_nil_r, orb_false_r. auto.
  - replace (variant_step rid fld ref_val (d, any) var)
      with (if explode_of fld ref_val var
            then (append_to rid (fld, var) d, true) else (d, any))
      by reflexivity.
    destruct (explode_of fld ref_val var); simpl.
    + destruct (IH (append_to rid (fld, var) d) true) as (E1 & E2 & E3).
      rewrite E1, E3, entries_append_eq, <- app_assoc, orb_true_r.
      repeat split; auto.
      intros rid' Hne. rewrite E2 by assumption.
      now apply entries_append_ne.
    + destruct (IH d any) as (E1 & E2 & E3). auto.
Qed.

Lemma field_step_spec rid group d fld mapping ref_val :
  PyDict.get rid mapping = Some ref_val ->
  exists d',
    field_step rid group (Some d) (fld, mapping) = Some d'
    /\ entries rid d' = entries rid d ++ appended fld ref_val group
    /\ (forall rid', rid <> rid' -> entries rid' d' = entries rid' d).
Proof.
  intros Hget. unfold field_step. rewrite Hget.
  set (variants := unique (differing ref_val (series fld group))).
  destruct (variant_loop rid fld ref_val variants d false)
    as (E1 & E2 & E3).
  set (st := fold_left _ _ _) in *. simpl in E3.
  eexists. split; [reflexivity|].
  unfold appended. fold variants. rewrite E3.
  destruct (mem fld key_fields && negb (existsb _ variants)).
  - rewrite entries_append_eq, E1, <- app_assoc. split; [reflexivity|].
    intros rid' Hne. rewrite entries_append_ne by assumption. auto.
  - rewrite app_nil_r. auto.
Qed.

Lemma group_keys_In df rid :
  In rid (group_keys df) <-> exists r, In r (rows df) /\ row_id r = rid.
Proof.
  unfold group_keys. rewrite sort_by_In, unique_In, in_map_iff.
  split; intros (r & H1 & H2); exists r; auto.
Qed.

Lemma group_keys_NoDup df : NoDup (group_keys df).
Proof. apply sort_by_NoDup, unique_NoDup. Qed.

(** [mapping[rid]] never raises for the identifier of a group. *)
Lemma mapping_get df fld rid :
  In rid (group_keys df) ->
  PyDict.get rid
    (map (fun g => (fst g, iloc_last (series fld (snd g)))) (groupby df))
  = Some (reference df fld rid).
Proof.
  intros Hin. unfold groupby. rewrite map_map. simpl.
  rewrite (PyDictFacts.get_map (fun k => reference df fld k)).
  apply mem_In in Hin. now rewrite Hin.
Qed.

Lemma appended_field_entries df rid fld :
  appended fld (reference df fld rid) (get_group df rid)
  = field_entries df rid fld.
Proof. reflexivity. Qed.

Lemma group_step_spec df rid : In rid (group_keys df) ->
  forall cols d,
  exists d',
    fold_left (field_step rid (get_group df rid))
      (map (fun fld =>
              (fld, map (fun g => (fst g, iloc_last (series fld (snd g))))
                        (groupby df))) cols)
      (Some d) = Some d'
    /\ entries rid d'
       = entries rid d ++ flat_map (field_entries df rid) cols
    /\ (forall rid', rid <> rid' -> entries rid' d' = entries rid' d).
Proof.
  intros Hin. induction cols as [|fld cols IH]; intros d;
    cbn [fold_left map flat_map].
  - exists d. rewrite app_nil_r. auto.
  - destruct (field_step_spec rid (get_group df rid) d fld _ _
                (mapping_get df fld rid Hin)) as (d1 & Hd1 & E1 & E2).
    unfold PyDict.t in Hd1.
    destruct (IH d1) as (d2 & Hd2 & F1 & F2).
    exists d2. split; [rewrite Hd1; exact Hd2|]. split.
    + rewrite F1, E1, appended_field_entries, <- app_assoc. reflexivity.
    + intros rid' Hne. rewrite F2, E2 by assumption. reflexivity.
Qed.

Lemma groups_loop_spec df : forall keys d,
  NoDup keys -> (forall k, In k keys -> In k (group_keys df)) ->
  exists d',
    fold_left (group_step (reference_by_id df))
      (map (fun rid => (rid, get_group df rid)) keys) (Some d) = Some d'
    /\ forall rid,
         entries rid d'
         = entries rid d
           ++ (if mem rid keys
               then flat_map (field_entries df rid) (columns df)
               else []).
Proof.
  induction keys as [|k keys IH]; intros d Hnd Hsub;
    cbn [fold_left map].
  - exists d. split; [reflexivity|]. intros rid. now rewrite app_nil_r.
  - inversion Hnd as [|? ? Hk Hnd']; subst.
    unfold group_step at 2. cbn [fst snd]. unfold reference_by_id at 2.
    destruct (group_step_spec df k (Hsub k (or_introl eq_refl))
                (columns df) d) as (d1 & Hd1 & E1 & E2).
    destruct (IH d1 Hnd' (fun x Hx => Hsub x (or_intror Hx)))
      as (d2 & Hd2 & F).
    exists d2. split; [rewrite Hd1; exact Hd2|]. intros rid. rewrite F.
    rewrite mem_cons. change (keqb rid k) with (Z.eqb rid k).
    destruct (Z.eqb rid k) eqn:E; cbn [orb].
    + apply Z.eqb_eq in E. subst rid.
      apply mem_not_In in Hk. rewrite Hk, app_nil_r. apply E1.
    + apply Z.eqb_neq in E. rewrite E2 by congruence. reflexivity.
Qed.

(** The loop never raises, and the list of an identifier is the
    concatenation, in column order, of what each field appends. *)
Lemma explosions_by_id_spec df :
  exists e,
    explosions_by_id df = Some e
    /\ forall rid,
         entries rid e
         = if mem rid (group_keys df)
           then flat_map (field_entries df rid) (columns df)
           else [].
Proof.
  destruct (groups_loop_spec df (group_keys df) []
              (group_keys_NoDup df) (fun k Hk => Hk)) as (e & He & Hent).
  exists e. split; [exact He|]. intros rid. now rewrite Hent.
Qed.

End ExampleLoop.

(** ** [levenshtein] and [jaro_winkler] on strings *)

Section StringMetrics.

Lemma chars_inj (a b : string) :
  list_ascii_of_string a = list_ascii_of_string b -> a = b.
Proof.
  intros E.
  rewrite <- (string_of_list_ascii_of_string a),
          <- (string_of_list_ascii_of_string b).
  now rewrite E.
Qed.

Lemma rev_inj {A : Type} (x y : list A) : rev x = rev y -> x = y.
Proof.
  intros E. rewrite <- (rev_involutive x), <- (rev_involutive y).
  now rewrite E.
Qed.

Lemma levenshtein_spec a b :
  levenshtein a b
  = lev_spec (rev (list_ascii_of_string a)) (rev (list_ascii_of_string b)).
Proof. unfold levenshtein. apply levenshtein_chars_spec. Qed.

Lemma levenshtein_zero_iff a b : levenshtein a b = 0 <-> a = b.
Proof.
  rewrite levenshtein_spec. split.
  - intros E. apply chars_inj, rev_inj, lev_spec_zero, E.
  - intros ->. apply lev_spec_refl.
Qed.

Lemma levenshtein_pos a b : a <> b -> (0 <? levenshtein a b) = true.
Proof.
  intros Hne. apply Nat.ltb_lt.
  destruct (levenshtein a b) eqn:E; [|lia].
  apply levenshtein_zero_iff in E. contradiction.
Qed.






Lemma jaro_match_nil_l s2 : matches (jaro_match [] s2) = 0.
Proof. reflexivity. Qed.


End StringMetrics.

(** ** One more common leading character

    When the match distance stays the same, the loop on [c :: s1] and
    [c :: s2] pairs the two new characters and then repeats the old run one
    position to the right. *)

Section JaroPrefix.













Local Open Scope Q_scope.







End JaroPrefix.

(** ** The list of one identifier, field by field *)

Section ExampleEntries.

Import ExampleExplodeAnalysis.

Variable parse : string -> option date.

Local Abbreviation explode_of := (explode_of parse).
Local Abbreviation explosions_by_id := (explosions_by_id parse).
Local Abbreviation field_entries := (field_entries parse).
Local Abbreviation exploded_variants := (exploded_variants parse).
Local Abbreviation fallback_entry := (fallback_entry parse).

Lemma existsb_false_filter {A : Type} (f : A -> bool) (l : list A) :
  existsb f l = false <-> filter f l = [].
Proof.
  induction l as [|x l IH]; simpl.
  - tauto.
  - destruct (f x); simpl; [split; discriminate|exact IH].
Qed.

Lemma fallback_entry_cases df rid fld :
  (In fld key_fields /\ exploded_variants df rid fld = []
   /\ fallback_entry df rid fld = [(fld, reference df fld rid)])
  \/ ((~ In fld key_fields \/ exploded_variants df rid fld <> [])
      /\ fallback_entry df rid fld = []).
Proof.
  unfold fallback_entry, ExampleExplodeAnalysis.fallback_entry.
  destruct (mem fld key_fields) eqn:Ek; simpl.
  - apply mem_In in Ek.
    destruct (existsb _ _) eqn:Ex; simpl.
    + right. split; [|reflexivity]. right.
      unfold exploded_variants, ExampleExplodeAnalysis.exploded_variants.
      intros Hnil. apply existsb_false_filter in Hnil. congruence.
    + left. apply existsb_false_filter in Ex. auto.
  - apply mem_not_In in Ek. right. auto.
Qed.

Lemma field_entries_fst df rid fld fv :
  In fv (field_entries df rid fld) -> fst fv = fld.
Proof.
  unfold field_entries, ExampleExplodeAnalysis.field_entries.
  rewrite in_app_iff, in_map_iff. intros [(v & <- & _)|Hf].
  - reflexivity.
  - destruct (fallback_entry_cases df rid fld) as [(_ & _ & E)|(_ & E)];
      rewrite E in Hf; simpl in Hf; [|contradiction].
    destruct Hf as [<-|[]]. reflexivity.
Qed.

Lemma filter_all {A : Type} (f : A -> bool) (l : list A) :
  (forall x, In x l -> f x = true) -> filter f l = l.
Proof.
  induction l as [|x l IH]; intros H; simpl.
  - reflexivity.
  - rewrite (H x) by now left. f_equal. apply IH.
    intros y Hy. apply H. now right.
Qed.

Lemma filter_none {A : Type} (f : A -> bool) (l : list A) :
  (forall x, In x l -> f x = false) -> filter f l = [].
Proof.
  induction l as [|x l IH]; intros H; simpl.
  - reflexivity.
  - rewrite (H x) by now left. apply IH.
    intros y Hy. apply H. now right.
Qed.

Lemma entries_for_same df rid fld :
  entries_for fld (field_entries df rid fld) = field_entries df rid fld.
Proof.
  apply filter_all. intros fv Hfv.
  apply String.eqb_eq. now apply field_entries_fst with df rid.
Qed.

Lemma entries_for_other df rid fld fld' :
  fld <> fld' -> entries_for fld (field_entries df rid fld') = [].
Proof.
  intros Hne. apply filter_none. intros fv Hfv.
  apply String.eqb_neq. apply field_entries_fst in Hfv. congruence.
Qed.

Lemma entries_for_flat_map df rid fld cols :
  NoDup cols -> In fld cols ->
  entries_for fld (flat_map (field_entries df rid) cols)
  = field_entries df rid fld.
Proof.
  unfold entries_for.
  induction cols as [|c cols IH]; intros Hnd Hin; [contradiction|].
  inversion Hnd as [|? ? Hc Hnd']; subst.
  cbn [flat_map]. rewrite filter_app.
  destruct Hin as [->|Hin].
  - fold (entries_for fld (field_entries df rid fld)).
    rewrite entries_for_same.
    rewrite (filter_none _ (flat_map _ cols)); [apply app_nil_r|].
    intros fv Hfv. apply in_flat_map in Hfv.
    destruct Hfv as (c & Hc' & Hfv). apply field_entries_fst in Hfv.
    apply String.eqb_neq. intros E. subst. contradiction.
  - fold (entries_for fld (field_entries df rid c)).
    rewrite entries_for_other by (intros E; subst; contradiction).
    now apply IH.
Qed.

(** The part of the final list that belongs to one field of one group. *)
Lemma explosions_field df : NoDup (columns df) ->
  exists e,
    explosions_by_id df = Some e
    /\ forall rid fld,
         In rid (group_keys df) -> In fld (columns df) ->
         entries_for fld (entries rid e) = field_entries df rid fld.
Proof.
  intros Hnd. destruct (explosions_by_id_spec parse df) as (e & He & Hent).
  exists e. split; [exact He|]. intros rid fld Hrid Hfld.
  rewrite Hent. apply mem_In in Hrid. rewrite Hrid.
  now apply entries_for_flat_map.
Qed.

Lemma explode_of_name fld ref var :
  In fld name_fields ->
  explode_of fld ref var
  = PrimFloat.ltb (jaro_winkler_float ref var) threshold.
Proof.
  intros Hn. apply mem_In in Hn.
  unfold explode_of, ExampleExplodeAnalysis.explode_of. now rewrite Hn.
Qed.

Lemma explode_of_dob ref var :
  explode_of "dob" ref var = date_exploded parse ref var.
Proof. reflexivity. Qed.

Lemma explode_of_postcode ref var :
  explode_of "postcode" ref var = (0 <? levenshtein ref var).
Proof. reflexivity. Qed.

Lemma explode_of_other fld ref var :
  ~ In fld name_fields -> fld <> "dob"%string -> fld <> "postcode"%string ->
  explode_of fld ref var = true.
Proof.
  intros Hn Hd Hp. apply mem_not_In in Hn.
  apply String.eqb_neq in Hd, Hp.
  unfold explode_of, ExampleExplodeAnalysis.explode_of.
  now rewrite Hn, Hd, Hp.
Qed.

Lemma variants_of_In df rid fld v :
  In v (variants_of df rid fld)
  <-> In v (series fld (get_group df rid)) /\ v <> reference df fld rid.
Proof.
  unfold variants_of, differing. rewrite unique_In, filter_In.
  rewrite negb_true_iff, String.eqb_neq. tauto.
Qed.

Lemma exploded_variants_In df rid fld v :
  In v (exploded_variants df rid fld)
  <-> In v (series fld (get_group df rid)) /\ v <> reference df fld rid
      /\ explode_of fld (reference df fld rid) v = true.
Proof.
  unfold exploded_variants, ExampleExplodeAnalysis.exploded_variants.
  rewrite filter_In, variants_of_In. tauto.
Qed.

Lemma exploded_variants_NoDup df rid fld :
  NoDup (exploded_variants df rid fld).
Proof. apply NoDup_filter, unique_NoDup. Qed.

Lemma field_entries_In df rid fld v :
  In (fld, v) (field_entries df rid fld)
  <-> In v (exploded_variants df rid fld)
      \/ (v = reference df fld rid /\ In fld key_fields
          /\ exploded_variants df rid fld = []).
Proof.
  unfold field_entries, ExampleExplodeAnalysis.field_entries.
  rewrite in_app_iff, in_map_iff.
  destruct (fallback_entry_cases df rid fld) as [(K & N & E)|(N & E)];
    rewrite E; simpl.
  - split.
    + intros [(x & Hx & Hin)|[Hx|[]]]; inversion Hx; subst; auto.
    + intros [Hin|(-> & _)]; [left; eauto|right; auto].
  - split.
    + intros [(x & Hx & Hin)|[]]. inversion Hx; subst; auto.
    + intros [Hin|(_ & K & N')]; [left; eauto|].
      destruct N; contradiction.
Qed.

(** Membership in the final list, for a field among the columns. *)
Lemma explosions_In df : NoDup (columns df) ->
  exists e,
    explosions_by_id df = Some e
    /\ forall rid fld v,
         In rid (group_keys df) -> In fld (columns df) ->
         (In (fld, v) (entries rid e)
          <-> In v (exploded_variants df rid fld)
              \/ (v = reference df fld rid /\ In fld key_fields
                  /\ exploded_variants df rid fld = [])).
Proof.
  intros Hnd. destruct (explosions_field df Hnd) as (e & He & Hf).
  exists e. split; [exact He|]. intros rid fld v Hrid Hfld.
  rewrite <- field_entries_In, <- (Hf rid fld Hrid Hfld).
  unfold entries_for. rewrite filter_In. simpl.
  rewrite String.eqb_refl. tauto.
Qed.

End ExampleEntries.

(** ** Reference selection *)

Section RowOrder.

Import ExampleExplodeAnalysis.

Lemma last_snoc_exists {A : Type} (l : list A) :
  l <> [] -> exists l' x, l = l' ++ [x].
Proof.
  intros Hne. destruct (exists_last Hne) as (l' & x & E). eauto.
Qed.

Lemma get_group_nonempty df rid :
  In rid (group_keys df) -> get_group df rid <> [].
Proof.
  intros Hin. apply group_keys_In in Hin. destruct Hin as (r & Hr & Hid).
  intros E. assert (Hg : In r (get_group df rid)).
  { unfold get_group. apply filter_In. split; [assumption|].
    now apply Z.eqb_eq. }
  rewrite E in Hg. contradiction.
Qed.

Lemma reference_last df fld rid g r :
  get_group df rid = g ++ [r] -> reference df fld rid = cell r fld.
Proof.
  intros E. unfold reference, iloc_last, series.
  rewrite E, map_app. cbn [map]. apply last_last.
Qed.

Lemma reference_of_spec df fld rid :
  In fld (columns df) -> In rid (group_keys df) ->
  reference_of (reference_by_id df) fld rid = Some (reference df fld rid).
Proof.
  intros Hfld Hrid. unfold reference_of, reference_by_id.
  rewrite (PyDictFacts.get_map
             (fun f => map (fun g => (fst g, iloc_last (series f (snd g))))
                           (groupby df))).
  apply mem_In in Hfld. rewrite Hfld.
  now apply mapping_get.
Qed.

End RowOrder.

Section TimestampOrder.

Import ProfileExploded.

Variable sort_values : list row -> list row.

Hypothesis sort_values_perm : forall df, Permutation df (sort_values df).

Hypothesis sort_values_sorted : forall df,
  Sorted (fun a b => (row_ts a <= row_ts b)%Z) (sort_values df).

Local Abbreviation get_references := (get_references sort_values).

Lemma StronglySorted_last {A : Type} (R : A -> A -> Prop) (l : list A) x :
  StronglySorted R (l ++ [x]) -> forall y, In y l -> R y x.
Proof.
  induction l as [|z l IH]; intros Hs y Hy; [contradiction|].
  simpl in Hs. inversion Hs as [|? ? Hs' Hall]; subst.
  destruct Hy as [->|Hy].
  - rewrite Forall_forall in Hall. apply Hall.
    apply in_or_app. right. now left.
  - now apply IH.
Qed.

Lemma StronglySorted_filter {A : Type} (R : A -> A -> Prop) f (l : list A) :
  StronglySorted R l -> StronglySorted R (filter f l).
Proof.
  induction 1 as [|x l Hs IH Hall]; simpl; [constructor|].
  destruct (f x); [|assumption].
  constructor; [assumption|].
  rewrite Forall_forall in *. intros y Hy.
  apply filter_In in Hy. now apply Hall.
Qed.

Lemma sorted_group_strongly df rid :
  StronglySorted (fun a b => (row_ts a <= row_ts b)%Z)
                 (get_group (sort_values df) rid).
Proof.
  apply StronglySorted_filter, Sorted_StronglySorted.
  - intros a b c. apply Z.le_trans.
  - apply sort_values_sorted.
Qed.

Lemma group_keys_sorted_In df rid :
  In rid (group_keys (sort_values df)) <-> In rid (map row_id df).
Proof.
  unfold group_keys. rewrite sort_by_In, unique_In, !in_map_iff.
  split; intros (r & E & Hr); exists r; split; auto.
  - eapply Permutation_in; [symmetry; apply sort_values_perm|assumption].
  - eapply Permutation_in; [apply sort_values_perm|assumption].
Qed.

(** The row that [last()] reads: one of the group, with the largest
    timestamp of the group. *)
Lemma latest_row df rid :
  In rid (map row_id df) ->
  exists g r,
    get_group (sort_values df) rid = g ++ [r]
    /\ In r df /\ row_id r = rid
    /\ forall r', In r' df -> row_id r' = rid -> (row_ts r' <= row_ts r)%Z.
Proof.
  intros Hin. apply in_map_iff in Hin. destruct Hin as (r0 & Hid0 & Hr0).
  assert (Hg0 : In r0 (get_group (sort_values df) rid)).
  { apply filter_In. split.
    - eapply Permutation_in; [apply sort_values_perm|assumption].
    - now apply Z.eqb_eq. }
  destruct (last_snoc_exists (get_group (sort_values df) rid))
    as (g & r & E).
  { intros En. rewrite En in Hg0. contradiction. }
  exists g, r. split; [exact E|].
  assert (Hr : In r (get_group (sort_values df) rid)).
  { rewrite E. apply in_or_app. right. now left. }
  apply filter_In in Hr. destruct Hr as [Hr Hid]. apply Z.eqb_eq in Hid.
  split; [|split; [assumption|]].
  - eapply Permutation_in; [symmetry; apply sort_values_perm|assumption].
  - intros r' Hr' Hid'.
    assert (Hg' : In r' (g ++ [r])).
    { rewrite <- E. apply filter_In. split.
      - eapply Permutation_in; [apply sort_values_perm|assumption].
      - now apply Z.eqb_eq. }
    apply in_app_or in Hg'. destruct Hg' as [Hg'|[<-|[]]]; [|lia].
    pose proof (sorted_group_strongly df rid) as Hs. rewrite E in Hs.
    now apply (StronglySorted_last _ _ _ Hs).
Qed.

Lemma filter_map_single {A B : Type} (f : B -> bool) (g : A -> B)
    (eqb : A -> A -> bool) (l : list A) (x : A) :
  (forall a b, eqb a b = true <-> a = b) ->
  (forall a, f (g a) = eqb a x) ->
  NoDup l -> In x l -> filter f (map g l) = [g x].
Proof.
  intros Heqb Hf. induction l as [|a l IH]; intros Hnd Hin; [contradiction|].
  inversion Hnd as [|? ? Ha Hnd']; subst. simpl. rewrite Hf.
  destruct (eqb a x) eqn:E.
  - apply Heqb in E. subst a. f_equal.
    apply filter_none. intros b Hb. apply in_map_iff in Hb.
    destruct Hb as (a & <- & Ha'). rewrite Hf.
    destruct (eqb a x) eqn:E'; [|reflexivity].
    apply Heqb in E'. subst. contradiction.
  - destruct Hin as [->|Hin].
    + assert (eqb x x = true) by now apply Heqb. congruence.
    + now apply IH.
Qed.

(** [ref_df] has exactly one row for an identifier of the frame. *)
Lemma get_references_row df rid :
  In rid (map row_id df) ->
  filter (fun rr => (r_id rr =? rid)%Z) (get_references df)
  = [RefRow rid (fun fld => last_cell fld (get_group (sort_values df) rid))].
Proof.
  intros Hin. unfold get_references, ProfileExploded.get_references.
  apply (filter_map_single
           (fun rr => (r_id rr =? rid)%Z)
           (fun k => RefRow k (fun fld =>
                                 last_cell fld (get_group (sort_values df) k)))
           Z.eqb).
  - apply Z.eqb_eq.
  - reflexivity.
  - apply sort_by_NoDup, unique_NoDup.
  - now apply group_keys_sorted_In.
Qed.

End TimestampOrder.

(** ** The predicates of [should_explode] and [date_exploded] *)

Section Predicates.

Variable parse : string -> option date.
Variable JaroWinkler_similarity : string -> string -> PrimFloat.float.
Variable Levenshtein_distance : string -> string -> nat.

Lemma example_date_exploded_false ref var :
  ExampleExplodeAnalysis.date_exploded parse ref var = false
  <-> exists d, parse ref = Some d /\ parse var = Some d.
Proof.
  unfold ExampleExplodeAnalysis.date_exploded.
  destruct (parse ref) as [d1|]; [|split; [discriminate|]].
  - destruct (parse var) as [d2|]; [|split; [discriminate|]].
    + rewrite negb_false_iff, date_eqb_eq. split.
      * intros ->. eauto.
      * intros (d & E1 & E2). congruence.
    + intros (d & _ & E). discriminate.
  - intros (d & E & _). discriminate.
Qed.

Lemma profile_date_exploded_same ref var :
  ProfileExploded.date_exploded parse ref var
  = ExampleExplodeAnalysis.date_exploded parse ref var.
Proof. reflexivity. Qed.

Lemma should_explode_same (row : ProfileExploded.merged_row) :
  ProfileExploded.m_variant row = ProfileExploded.m_reference row ->
  ProfileExploded.should_explode parse JaroWinkler_similarity
    Levenshtein_distance row
  = false.
Proof.
  intros E. unfold ProfileExploded.should_explode.
  now rewrite E, String.eqb_refl.
Qed.

End Predicates.

(** ** Dictionaries keep their keys distinct *)

Section DictKeys.

Context {K V : Type} `{Key K}.

Lemma set_keys_In (k k' : K) (v : V) (d : list (K * V)) :
  In k' (PyDict.keys (PyDict.set k v d)) <-> k' = k \/ In k' (PyDict.keys d).
Proof.
  unfold PyDict.keys.
  induction d as [|[k0 v0] d IH]; simpl.
  - intuition congruence.
  - destruct (keqb k k0) eqn:E; simpl.
    + apply keqb_eq in E. subst k0. intuition congruence.
    + rewrite IH. intuition congruence.
Qed.

Lemma set_keys_NoDup (k : K) (v : V) (d : list (K * V)) :
  NoDup (PyDict.keys d) -> NoDup (PyDict.keys (PyDict.set k v d)).
Proof.
  unfold PyDict.keys.
  induction d as [|[k0 v0] d IH]; intros Hnd; simpl.
  - repeat constructor. intros [].
  - inversion Hnd as [|? ? Hk Hnd']; subst.
    destruct (keqb k k0) eqn:E; simpl.
    + apply keqb_eq in E. subst k0. now constructor.
    + constructor; [|now apply IH].
      intros Hin. apply set_keys_In in Hin.
      destruct Hin as [->|Hin]; [|contradiction].
      rewrite keqb_refl in E. discriminate.
Qed.

Lemma get_In (k : K) (v : V) (d : list (K * V)) :
  NoDup (PyDict.keys d) -> (PyDict.get k d = Some v <-> In (k, v) d).
Proof.
  unfold PyDict.keys.
  induction d as [|[k0 v0] d IH]; intros Hnd; simpl.
  - split; [discriminate|contradiction].
  - inversion Hnd as [|? ? Hk Hnd']; subst.
    destruct (keqb k k0) eqn:E.
    + apply keqb_eq in E. subst k0. split.
      * intros [= ->]. now left.
      * intros [[= ->]|Hin]; [reflexivity|].
        exfalso. apply Hk. apply in_map_iff. now exists (k, v).
    + apply keqb_neq in E. rewrite (IH Hnd'). split; [tauto|].
      intros [[= -> ->]|Hin]; [congruence|assumption].
Qed.

(** Building a dictionary from pairs with distinct keys keeps the pairs. *)
Lemma set_fresh (k : K) (v : V) (d : list (K * V)) :
  ~ In k (PyDict.keys d) -> PyDict.set k v d = d ++ [(k, v)].
Proof.
  unfold PyDict.keys.
  induction d as [|[k0 v0] d IH]; intros Hk; simpl.
  - reflexivity.
  - destruct (keqb k k0) eqn:E.
    + apply keqb_eq in E. subst k0. exfalso. apply Hk. now left.
    + f_equal. apply IH. intros Hin. apply Hk. now right.
Qed.

Lemma dict_of_pairs (kvs : list (K * V)) : forall d,
  NoDup (PyDict.keys d ++ map fst kvs) ->
  fold_left (fun d kv => PyDict.set (fst kv) (snd kv) d) kvs d = d ++ kvs.
Proof.
  induction kvs as [|[k v] kvs IH]; intros d Hnd; simpl.
  - now rewrite app_nil_r.
  - rewrite set_fresh.
    + rewrite IH.
      * now rewrite <- app_assoc.
      * unfold PyDict.keys in *. rewrite map_app, <- app_assoc. exact Hnd.
    + simpl in Hnd. apply NoDup_remove_2 in Hnd.
      intros Hin. apply Hnd. apply in_or_app. now left.
Qed.

End DictKeys.

(** ** The rows of [df_long] and the cells of [grouped] *)

Section ExampleGrouped.

Import ExampleExplodeAnalysis.

Variable parse : string -> option date.

Local Abbreviation explosions_by_id := (explosions_by_id parse).
Local Abbreviation field_entries := (field_entries parse).
Local Abbreviation variant_step := (variant_step parse).
Local Abbreviation field_step := (field_step parse).
Local Abbreviation group_step := (group_step parse).

Lemma append_to_NoDup rid x (d : explosions) :
  NoDup (PyDict.keys d) -> NoDup (PyDict.keys (append_to rid x d)).
Proof. apply set_keys_NoDup. Qed.

Lemma variant_loop_NoDup rid fld ref_val : forall variants d any,
  NoDup (PyDict.keys d) ->
  NoDup (PyDict.keys
           (fst (fold_left (variant_step rid fld ref_val) variants
                           (d, any)))).
Proof.
  induction variants as [|var variants IH]; intros d any Hnd;
    cbn [fold_left].
  - exact Hnd.
  - unfold variant_step at 2, ExampleExplodeAnalysis.variant_step.
    cbn [fst snd].
    destruct (ExampleExplodeAnalysis.explode_of parse fld ref_val var).
    + apply IH. now apply append_to_NoDup.
    + now apply IH.
Qed.

Lemma field_step_NoDup rid group d item d' :
  field_step rid group (Some d) item = Some d' ->
  NoDup (PyDict.keys d) -> NoDup (PyDict.keys d').
Proof.
  destruct item as [fld mapping].
  unfold field_step, ExampleExplodeAnalysis.field_step.
  destruct (PyDict.get rid mapping) as [ref_val|]; [|discriminate].
  intros [= <-] Hnd.
  pose proof (variant_loop_NoDup rid fld ref_val
                (unique (differing ref_val (series fld group))) d false Hnd)
    as Hloop.
  match goal with
  | |- context [if ?b then _ else _] => destruct b
  end; [|exact Hloop].
  now apply append_to_NoDup.
Qed.

Lemma field_step_None rid group item :
  field_step rid group None item = None.
Proof. reflexivity. Qed.

Lemma fold_option_inv {S X : Type} (P : S -> Prop)
    (f : option S -> X -> option S) (l : list X) :
  (forall x, f None x = None) ->
  (forall s x s', f (Some s) x = Some s' -> P s -> P s') ->
  forall s s', fold_left f l (Some s) = Some s' -> P s -> P s'.
Proof.
  intros Hnone Hstep. induction l as [|x l IH]; intros s s' Hf Hs;
    cbn [fold_left] in Hf.
  - now inversion Hf; subst.
  - destruct (f (Some s) x) as [s1|] eqn:E.
    + apply (IH s1 s' Hf). now apply (Hstep s x).
    + exfalso. clear -Hnone Hf.
      assert (Hn : forall l0, fold_left f l0 None = None).
      { induction l0 as [|y l0 IHl]; simpl; [reflexivity|].
        now rewrite Hnone. }
      rewrite Hn in Hf. discriminate.
Qed.

Lemma group_step_NoDup refs g d d' :
  group_step refs (Some d) g = Some d' ->
  NoDup (PyDict.keys d) -> NoDup (PyDict.keys d').
Proof.
  unfold group_step, ExampleExplodeAnalysis.group_step.
  apply (fold_option_inv (fun d => NoDup (PyDict.keys d))).
  - intros x. apply field_step_None.
  - intros s x s'. apply field_step_NoDup.
Qed.

Lemma group_step_None refs g : group_step refs None g = None.
Proof.
  unfold group_step, ExampleExplodeAnalysis.group_step.
  induction refs as [|x refs IH]; simpl; [reflexivity|exact IH].
Qed.

Lemma explosions_by_id_NoDup df e :
  explosions_by_id df = Some e -> NoDup (PyDict.keys e).
Proof.
  unfold explosions_by_id, ExampleExplodeAnalysis.explosions_by_id.
  intros He.
  apply (fold_option_inv (fun d : explosions => NoDup (PyDict.keys d))
           _ _ (group_step_None _) (fun s x s' => group_step_NoDup _ x s s')
           [] e He).
  constructor.
Qed.

(** The variants that [df_long] holds for an identifier and a field. *)
Lemma records_cell (e : explosions) rid fld :
  NoDup (PyDict.keys e) ->
  map l_variant
      (filter (fun r => (l_id r =? rid)%Z && String.eqb (l_field r) fld)
              (records e))
  = map snd (entries_for fld (entries rid e)).
Proof.
  unfold records, entries, PyDict.keys, entries_for.
  induction e as [|[k l] e IH]; intros Hnd; cbn [flat_map map PyDict.get].
  - reflexivity.
  - inversion Hnd as [|? ? Hk Hnd']; subst.
    rewrite filter_app, map_app. cbn [fst snd].
    change (keqb rid k) with (Z.eqb rid k).
    destruct (Z.eqb rid k) eqn:E.
    + apply Z.eqb_eq in E. subst k.
      assert (Hrest :
        filter (fun r => (l_id r =? rid)%Z && String.eqb (l_field r) fld)
               (flat_map
                  (fun item =>
                     map (fun fv => LongRow (fst item) (fst fv) (snd fv))
                         (snd item)) e) = []).
      { apply filter_none. intros r Hr. apply in_flat_map in Hr.
        destruct Hr as ([k' l'] & Hitem & Hr). apply in_map_iff in Hr.
        destruct Hr as (fv & <- & _). cbn [l_id fst].
        assert (Hne : k' <> rid).
        { intros ->. apply Hk. apply in_map_iff. now exists (rid, l'). }
        apply Z.eqb_neq in Hne. now rewrite Hne. }
      rewrite Hrest, app_nil_r.
      clear. induction l as [|fv l IHl]; cbn [map filter]; [reflexivity|].
      cbn [l_id l_field fst snd]. rewrite Z.eqb_refl. cbn [andb].
      destruct (String.eqb (fst fv) fld); cbn [map l_variant];
        now rewrite IHl.
    + rewrite (IH Hnd').
      rewrite (filter_none _ (map _ l)); [reflexivity|].
      intros r Hr. apply in_map_iff in Hr. destruct Hr as (fv & <- & _).
      cbn [l_id fst]. rewrite Z.eqb_sym, E. reflexivity.
Qed.

Lemma records_In (e : explosions) r :
  NoDup (PyDict.keys e) ->
  (In r (records e)
   <-> In (l_field r, l_variant r) (entries (l_id r) e)).
Proof.
  intros Hnd. unfold records. rewrite in_flat_map. split.
  - intros ([k l] & Hitem & Hr). apply in_map_iff in Hr.
    destruct Hr as ([f v] & <- & Hfv). cbn [l_id l_field l_variant fst snd].
    apply (get_In k l e Hnd) in Hitem. unfold entries. now rewrite Hitem.
  - intros Hin. unfold entries in Hin.
    destruct (PyDict.get (l_id r) e) as [l|] eqn:E; [|contradiction].
    apply (get_In _ _ e Hnd) in E.
    exists (l_id r, l). split; [assumption|].
    apply in_map_iff. exists (l_field r, l_variant r).
    split; [now destruct r|assumption].
Qed.

End ExampleGrouped.

(** ** The Cartesian product *)

Section Product.

Context {A : Type}.

Lemma product_length (lists : list (list A)) :
  len (product lists) = prod_sizes (map (fun l => len l) lists).
Proof.
  induction lists as [|l lists IH]; cbn [product map prod_sizes fold_right].
  - reflexivity.
  - fold (prod_sizes (map (fun l => len l) lists)). rewrite <- IH.
    induction l as [|x l IHl]; cbn [flat_map List.length].
    + reflexivity.
    + rewrite length_app, length_map, IHl. lia.
Qed.

Lemma product_In (lists : list (list A)) : forall combo,
  In combo (product lists) <-> Forall2 (fun v l => In v l) combo lists.
Proof.
  induction lists as [|l lists IH]; intros combo; cbn [product].
  - split.
    + intros [<-|[]]. constructor.
    + intros Hf. inversion Hf. now left.
  - rewrite in_flat_map. split.
    + intros (x & Hx & Hc). apply in_map_iff in Hc.
      destruct Hc as (rest & <- & Hrest).
      constructor; [assumption|]. now apply IH.
    + intros Hf. inversion Hf as [|x l' rest lists' Hx Hrest]; subst.
      exists x. split; [assumption|].
      apply in_map_iff. exists rest. split; [reflexivity|]. now apply IH.
Qed.

Lemma product_combo_length (lists : list (list A)) combo :
  In combo (product lists) -> len combo = len lists.
Proof.
  intros Hin. apply product_In in Hin.
  induction Hin; simpl; congruence.
Qed.

Lemma all_some_map {X : Type} (f : X -> option A) (g : X -> A) (l : list X) :
  (forall x, In x l -> f x = Some (g x)) ->
  all_some (map f l) = Some (map g l).
Proof.
  induction l as [|x l IH]; intros Hf; cbn [map all_some].
  - reflexivity.
  - rewrite (Hf x) by now left.
    rewrite IH; [reflexivity|]. intros y Hy. apply Hf. now right.
Qed.

End Product.

(** ** The combination loop of example_explode_analysis.py *)

Section ExampleCombinations.

Import ExampleExplodeAnalysis.

Variable parse : string -> option date.

Local Abbreviation explosions_by_id := (explosions_by_id parse).
Local Abbreviation field_entries := (field_entries parse).
Local Abbreviation exploded_variants := (exploded_variants parse).
Local Abbreviation df_wide := (df_wide parse).

Lemma field_entries_values_NoDup df rid fld :
  NoDup (map snd (field_entries df rid fld)).
Proof.
  unfold field_entries, ExampleExplodeAnalysis.field_entries.
  rewrite map_app, map_map. cbn [snd]. rewrite map_id.
  destruct (fallback_entry_cases parse df rid fld)
    as [(_ & N & E)|(_ & E)]; rewrite E.
  - rewrite N. simpl.
    constructor; [intros []|constructor].
  - simpl. rewrite app_nil_r. apply exploded_variants_NoDup.
Qed.

Lemma field_entries_key_nonempty df rid fld :
  In fld key_fields -> field_entries df rid fld <> [].
Proof.
  intros Hk. unfold field_entries, ExampleExplodeAnalysis.field_entries.
  destruct (fallback_entry_cases parse df rid fld)
    as [(_ & _ & E)|([K|N] & E)]; rewrite E.
  - intros H. apply app_eq_nil in H. destruct H. discriminate.
  - contradiction.
  - rewrite app_nil_r. intros H. apply map_eq_nil in H. contradiction.
Qed.

Lemma grouped_cell (e : explosions) rid fld :
  NoDup (PyDict.keys e) ->
  g_cell (grouped (records e)) rid fld
  = unique (map snd (entries_for fld (entries rid e))).
Proof. intros Hnd. cbn [g_cell grouped]. now rewrite records_cell. Qed.

(** A field without a column in [grouped] has no value in the list. *)
Lemma grouped_no_column (e : explosions) rid fld :
  NoDup (PyDict.keys e) ->
  mem fld (g_columns (grouped (records e))) = false ->
  map snd (entries_for fld (entries rid e)) = [].
Proof.
  intros Hnd Hm. apply mem_not_In in Hm. cbn [g_columns grouped] in Hm.
  rewrite sort_by_In, unique_In in Hm.
  destruct (entries_for fld (entries rid e)) as [|[f v] l] eqn:E;
    [reflexivity|].
  exfalso. apply Hm.
  assert (Hin : In (f, v) (entries_for fld (entries rid e)))
    by (rewrite E; now left).
  unfold entries_for in Hin. apply filter_In in Hin.
  destruct Hin as [Hin Hf]. cbn [fst] in Hf. apply String.eqb_eq in Hf.
  subst f. apply in_map_iff. exists (LongRow rid fld v).
  split; [reflexivity|]. now apply records_In.
Qed.

Lemma grouped_index_In (e : explosions) rid :
  NoDup (PyDict.keys e) ->
  (In rid (g_index (grouped (records e))) <-> entries rid e <> []).
Proof.
  intros Hnd. cbn [g_index grouped]. rewrite sort_by_In, unique_In.
  rewrite in_map_iff. split.
  - intros (r & <- & Hr). apply (records_In e r Hnd) in Hr.
    intros E. rewrite E in Hr. contradiction.
  - intros Hne. destruct (entries rid e) as [|[f v] l] eqn:E;
      [contradiction|].
    exists (LongRow rid f v). split; [reflexivity|].
    apply records_In; [assumption|]. cbn [l_id l_field l_variant].
    rewrite E. now left.
Qed.

Lemma grouped_index_NoDup (e : explosions) :
  NoDup (g_index (grouped (records e))).
Proof. apply sort_by_NoDup, unique_NoDup. Qed.

Section OneFrame.

Variable df : frame.
Variable e : explosions.

Hypothesis columns_NoDup : NoDup (columns df).
Hypothesis has_key_field : exists k, In k key_fields /\ In k (columns df).
Hypothesis e_result : explosions_by_id df = Some e.

Lemma e_entries rid :
  entries rid e
  = if mem rid (group_keys df)
    then flat_map (field_entries df rid) (columns df) else [].
Proof.
  destruct (explosions_by_id_spec parse df) as (e' & He' & Hent).
  rewrite e_result in He'. inversion He'; subst. apply Hent.
Qed.

Lemma e_field rid fld :
  In rid (group_keys df) -> In fld (columns df) ->
  entries_for fld (entries rid e) = field_entries df rid fld.
Proof.
  intros Hrid Hfld. rewrite e_entries. apply mem_In in Hrid.
  rewrite Hrid. now apply entries_for_flat_map.
Qed.

Lemma e_keys_NoDup : NoDup (PyDict.keys e).
Proof. apply (explosions_by_id_NoDup parse df), e_result. Qed.

Lemma e_index_In rid :
  In rid (g_index (grouped (records e))) <-> In rid (group_keys df).
Proof.
  rewrite (grouped_index_In e rid e_keys_NoDup), e_entries.
  destruct (mem rid (group_keys df)) eqn:E.
  - apply mem_In in E. split; [auto|]. intros _.
    destruct has_key_field as (k & Hk & Hc).
    intros Hnil.
    assert (Hin : forall x, In x (field_entries df rid k) -> False).
    { intros x Hx.
      assert (Hx' : In x (flat_map (field_entries df rid) (columns df)))
        by (apply in_flat_map; eauto).
      rewrite Hnil in Hx'. contradiction. }
    apply (field_entries_key_nonempty df rid k Hk).
    destruct (field_entries df rid k) as [|x l]; [reflexivity|].
    exfalso. apply (Hin x). now left.
  - apply mem_not_In in E. split; [congruence|contradiction].
Qed.

Lemma variant_list_spec rid fld :
  In rid (group_keys df) -> In fld (columns df) ->
  variant_list (reference_by_id df) (grouped (records e)) rid fld
  = Some (field_list e df rid fld).
Proof.
  intros Hrid Hfld. unfold variant_list, field_list.
  assert (Hcell :
    (if mem fld (g_columns (grouped (records e)))
     then g_cell (grouped (records e)) rid fld else [])
    = map snd (entries_for fld (entries rid e))).
  { destruct (mem fld (g_columns (grouped (records e)))) eqn:Em.
    - rewrite (grouped_cell e rid fld e_keys_NoDup).
      apply unique_id. rewrite e_field by assumption.
      apply field_entries_values_NoDup.
    - symmetry. now apply grouped_no_column; [apply e_keys_NoDup|]. }
  rewrite Hcell.
  destruct (map snd (entries_for fld (entries rid e))); [|reflexivity].
  now rewrite reference_of_spec.
Qed.

Lemma field_list_nonempty rid fld : 1 <= len (field_list e df rid fld).
Proof.
  unfold field_list.
  destruct (map snd (entries_for fld (entries rid e))); simpl; lia.
Qed.

Lemma combine_keys_NoDup {B : Type} (ks : list string) : forall vs : list B,
  NoDup ks -> NoDup (map fst (combine ks vs)).
Proof.
  induction ks as [|k ks IH]; intros vs Hnd; [constructor|].
  destruct vs as [|v vs]; [constructor|]. simpl.
  inversion Hnd as [|? ? Hk Hnd']; subst.
  constructor; [|now apply IH].
  intros Hin. apply Hk. apply in_map_iff in Hin.
  destruct Hin as ([k' v'] & <- & Hin). now apply in_combine_l in Hin.
Qed.

Lemma out_of_spec rid combo :
  out_of (columns df) rid combo = (rid, combine (columns df) combo).
Proof.
  unfold out_of. f_equal.
  rewrite (dict_of_pairs (combine (columns df) combo) []); [reflexivity|].
  simpl. now apply combine_keys_NoDup.
Qed.

Lemma all_fields_columns : PyDict.keys (reference_by_id df) = columns df.
Proof.
  unfold PyDict.keys, reference_by_id. rewrite map_map. apply map_id.
Qed.

Lemma rows_of_spec rid :
  In rid (group_keys df) ->
  rows_of (reference_by_id df) (grouped (records e)) (columns df) rid
  = Some (map (out_of (columns df) rid)
              (product (map (field_list e df rid) (columns df)))).
Proof.
  intros Hrid. unfold rows_of.
  rewrite (all_some_map _ (field_list e df rid)); [reflexivity|].
  intros fld Hfld. now apply variant_list_spec.
Qed.

Lemma filter_concat_single {B : Type} (key : B -> Z) (f : Z -> list B)
    (idx : list Z) rid :
  (forall k x, In x (f k) -> key x = k) ->
  NoDup idx -> In rid idx ->
  filter (fun x => (key x =? rid)%Z) (List.concat (map f idx)) = f rid.
Proof.
  intros Hkey. induction idx as [|k idx IH]; intros Hnd Hin;
    [contradiction|].
  inversion Hnd as [|? ? Hk Hnd']; subst.
  cbn [map List.concat]. rewrite filter_app.
  destruct Hin as [->|Hin].
  - rewrite filter_all.
    + rewrite filter_none; [apply app_nil_r|].
      intros x Hx. apply in_concat in Hx. destruct Hx as (l & Hl & Hx).
      apply in_map_iff in Hl. destruct Hl as (k & <- & Hk').
      apply Z.eqb_neq. rewrite (Hkey k x Hx). intros ->. contradiction.
    + intros x Hx. apply Z.eqb_eq. now apply Hkey.
  - rewrite filter_none.
    + now apply IH.
    + intros x Hx. apply Z.eqb_neq. rewrite (Hkey k x Hx).
      intros ->. contradiction.
Qed.

(** The frame that the script writes, and its rows for one identifier. *)
Lemma df_wide_spec rid :
  In rid (group_keys df) ->
  exists w,
    df_wide df = Some w
    /\ w_columns w = "id"%string :: sort_by String.leb (columns df)
    /\ rows_with_id rid w
       = map (wide_row (columns df) rid)
             (product (map (field_list e df rid) (columns df))).
Proof.
  intros Hrid. unfold df_wide, ExampleExplodeAnalysis.df_wide.
  rewrite e_result.
  assert (Hrec : records e <> []).
  { apply e_index_In in Hrid. cbn [g_index grouped] in Hrid.
    rewrite sort_by_In, unique_In in Hrid.
    intros E. rewrite E in Hrid. contradiction. }
  destruct (records e) as [|r0 recs] eqn:Erec; [contradiction|].
  rewrite <- Erec. rewrite all_fields_columns.
  set (rows_for := fun k =>
         map (out_of (columns df) k)
             (product (map (field_list e df k) (columns df)))).
  rewrite (all_some_map _ rows_for).
  - eexists. split; [reflexivity|]. split; [reflexivity|].
    unfold rows_with_id, reorder. cbn [w_rows].
    rewrite concat_map, map_map.
    rewrite (map_ext _ (fun k => map (wide_row (columns df) k)
                                     (product (map (field_list e df k)
                                                   (columns df))))).
    + apply (filter_concat_single fst
               (fun k => map (wide_row (columns df) k)
                             (product (map (field_list e df k)
                                           (columns df))))).
      * intros k x Hx. apply in_map_iff in Hx.
        destruct Hx as (combo & <- & _). reflexivity.
      * apply grouped_index_NoDup.
      * now apply e_index_In.
    + intros k. unfold rows_for. rewrite map_map. apply map_ext.
      intros combo. now rewrite out_of_spec.
  - intros k Hk. apply rows_of_spec. now apply e_index_In.
Qed.

End OneFrame.

End ExampleCombinations.

(** * The string metrics *)

Section MetricClaims.

#[local] Set Warnings "-inexact-float".

Local Open Scope string_scope.

Example levenshtein_kitten : levenshtein "kitten" "sitting" = 3.
Proof. reflexivity. Qed.

Example levenshtein_empty :
  levenshtein "" "abc" = 3 /\ levenshtein "abc" "" = 3.
Proof. split; reflexivity. Qed.

Example jaro_winkler_jahn_john :
  (jaro_winkler "jahn" "john" == 85 # 100)%Q
  /\ (jaro_winkler "jahn" "jon" == 75 # 100)%Q.
Proof. split; reflexivity. Qed.

Example jaro_winkler_float_jahn_john :
  jaro_winkler_float "jahn" "john" = 0.85000000000000009%float
  /\ PrimFloat.ltb (jaro_winkler_float "jahn" "john") 0.88%float = true
  /\ PrimFloat.ltb (jaro_winkler_float "jahn" "jon") 0.88%float = true.
Proof. repeat split; vm_compute; reflexivity. Qed.

(** C8.  [levenshtein] is a metric on strings: it is symmetric, it is zero
    exactly on equal strings, and it satisfies the triangle inequality. *)
Theorem levenshtein_is_metric :
  (forall a b : string, levenshtein a b = levenshtein b a)
  /\ (forall a b : string, levenshtein a b = 0 <-> a = b)
  /\ (forall a b c : string,
        levenshtein a c <= levenshtein a b + levenshtein b c).
Proof.
  split; [|split].
  - intros a b. rewrite !levenshtein_spec. apply lev_spec_sym.
  - apply levenshtein_zero_iff.
  - intros a b c. rewrite !levenshtein_spec. apply lev_spec_triangle.
Qed.


Example jaro_winkler_prefix_values :
  (jaro_winkler "aba" "bbabb" == 31 # 45)%Q
  /\ (jaro_winkler "zaba" "zbbabb" == 27 # 40)%Q
  /\ match_dist (list_ascii_of_string "aba") (list_ascii_of_string "bbabb")
     = 1%Z
  /\ match_dist (list_ascii_of_string "zaba") (list_ascii_of_string "zbbabb")
     = 2%Z.
Proof. repeat split; reflexivity. Qed.

(** The same two values in binary64, as Python computes them. *)
Example jaro_winkler_float_prefix_values :
  jaro_winkler_float "aba" "bbabb" = 0.68888888888888877%float
  /\ jaro_winkler_float "zaba" "zbbabb" = 0.67499999999999993%float
  /\ PrimFloat.ltb (jaro_winkler_float "zaba" "zbbabb")
                   (jaro_winkler_float "aba" "bbabb") = true.
Proof. repeat split; vm_compute; reflexivity. Qed.





End MetricClaims.

(** * The classifier, the references and the metadata *)

Section PipelineClaims.

Import ExampleExplodeAnalysis.
Local Open Scope string_scope.

Lemma script_columns_NoDup : NoDup (columns ScriptData.df).
Proof.
  repeat (constructor; [simpl; intuition discriminate|]). constructor.
Qed.

Example script_explosions :
  exists e,
    explosions_by_id ScriptData.fixture_parse ScriptData.df = Some e
    /\ entries 1 e
       = [("first_name", "john"); ("first_name", "jon");
          ("last_name", "smyth"); ("sex", "male");
          ("address", "123 main st"); ("address", "123 main street");
          ("postcode", "sw1a1aa"); ("postcode", "sw1a 1aa");
          ("telephone", "02079460000"); ("telephone", "+442079460000");
          ("email", "john.smith@exmaple.com");
          ("email", "john.smith@example.co.uk")].
Proof. eexists. split; [vm_compute; reflexivity|reflexivity]. Qed.

Example three_names_explosions :
  explosions_by_id ScriptData.fixture_parse ScriptData.three_names
  = Some [(1%Z, [("first_name", "john"); ("first_name", "jon")])].
Proof. reflexivity. Qed.

Example same_postcode_explosions :
  explosions_by_id ScriptData.fixture_parse ScriptData.same_postcode
  = Some [(2%Z, [("postcode", "sw1a1aa")])].
Proof. reflexivity. Qed.

(** X21.  The fallback of example_explode_analysis.py: for every group and
    every key field among the columns, the part of the output list that
    belongs to the field is not empty: it is the single pair of the field
    and the reference when no variant was classified as an explosion (also
    when there is no variant), and otherwise the classified variants, with
    no fallback pair. *)
Theorem fallback_rule (parse : string -> option date) (df : frame) :
  NoDup (columns df) ->
  exists e,
    explosions_by_id parse df = Some e
    /\ forall rid fld,
         In rid (group_keys df) -> In fld (columns df) ->
         In fld key_fields ->
         let l := entries_for fld (entries rid e) in
         let ex := exploded_variants parse df rid fld in
         l <> []
         /\ (ex = [] -> l = [(fld, reference df fld rid)])
         /\ (ex <> [] -> l = map (pair fld) ex).
Proof.
  intros Hnd. destruct (explosions_field parse df Hnd) as (e & He & Hf).
  exists e. split; [exact He|]. intros rid fld Hrid Hfld Hkey l ex.
  unfold l. rewrite (Hf rid fld Hrid Hfld). unfold field_entries. fold ex.
  destruct (fallback_entry_cases parse df rid fld)
    as [(_ & N & E)|([K|N] & E)]; rewrite E.
  - fold ex in N. rewrite N. simpl. repeat split; congruence.
  - contradiction.
  - fold ex in N. rewrite app_nil_r. repeat split; try congruence.
    destruct ex; [congruence|discriminate].
Qed.

Lemma fallback_rule_witness :
  NoDup (columns ScriptData.df)
  /\ exists e,
       explosions_by_id ScriptData.fixture_parse ScriptData.df = Some e
       /\ forall rid fld,
            In rid (group_keys ScriptData.df) ->
            In fld (columns ScriptData.df) ->
            In fld key_fields ->
            let l := entries_for fld (entries rid e) in
            let ex :=
              exploded_variants ScriptData.fixture_parse ScriptData.df
                                rid fld in
            l <> []
            /\ (ex = [] -> l = [(fld, reference ScriptData.df fld rid)])
            /\ (ex <> [] -> l = map (pair fld) ex).
Proof.
  split; [exact script_columns_NoDup|].
  apply (fallback_rule ScriptData.fixture_parse ScriptData.df).
  exact script_columns_NoDup.
Defined.

(** C2, the claim as the specification states it, fails on the script's own
    data: identifier 2 has the last name [smith] as its reference, neither
    [smih] nor [smiht] is classified as an explosion, and the fallback puts
    the reference itself in the list. *)
Lemma reference_in_explosion_list :
  exists e,
    explosions_by_id ScriptData.fixture_parse ScriptData.df = Some e
    /\ reference ScriptData.df "last_name" 2 = "smith"
    /\ In ("last_name", reference ScriptData.df "last_name" 2) (entries 2 e).
Proof.
  eexists. split; [vm_compute; reflexivity|]. split; [reflexivity|].
  vm_compute. do 2 right. left. reflexivity.
Qed.

(** C2, as amended.  A variant equal to the reference is never classified:
    the script classifies only values that differ from the reference, and
    [should_explode] answers [False] on an equal pair for every field and
    every metric.  The reference is in the list of its field exactly as the
    fallback pair, that is, when the field is a key field and no variant of
    it was classified as an explosion. *)
Theorem reference_only_as_fallback (parse : string -> option date)
    (df : frame) :
  NoDup (columns df) ->
  (exists e,
     explosions_by_id parse df = Some e
     /\ forall rid fld,
          In rid (group_keys df) -> In fld (columns df) ->
          ~ In (reference df fld rid) (exploded_variants parse df rid fld)
          /\ (In (fld, reference df fld rid) (entries rid e)
              <-> In fld key_fields
                  /\ exploded_variants parse df rid fld = []))
  /\ (forall jw lev (row : ProfileExploded.merged_row),
        ProfileExploded.m_variant row = ProfileExploded.m_reference row ->
        ProfileExploded.should_explode parse jw lev row = false).
Proof.
  intros Hnd. split; [|intros; now apply should_explode_same].
  destruct (explosions_In parse df Hnd) as (e & He & Hin).
  exists e. split; [exact He|]. intros rid fld Hrid Hfld.
  assert (Hno : ~ In (reference df fld rid)
                    (exploded_variants parse df rid fld)).
  { intros H. apply exploded_variants_In in H. tauto. }
  split; [exact Hno|].
  rewrite (Hin rid fld _ Hrid Hfld). tauto.
Qed.

Lemma reference_only_as_fallback_witness :
  NoDup (columns ScriptData.df)
  /\ (exists e,
        explosions_by_id ScriptData.fixture_parse ScriptData.df = Some e
        /\ forall rid fld,
             In rid (group_keys ScriptData.df) ->
             In fld (columns ScriptData.df) ->
             ~ In (reference ScriptData.df fld rid)
                  (exploded_variants ScriptData.fixture_parse ScriptData.df
                                     rid fld)
             /\ (In (fld, reference ScriptData.df fld rid) (entries rid e)
                 <-> In fld key_fields
                     /\ exploded_variants ScriptData.fixture_parse
                                          ScriptData.df rid fld = []))
  /\ (forall jw lev (row : ProfileExploded.merged_row),
        ProfileExploded.m_variant row = ProfileExploded.m_reference row ->
        ProfileExploded.should_explode ScriptData.fixture_parse jw lev row
        = false).
Proof.
  split; [exact script_columns_NoDup|].
  apply (reference_only_as_fallback ScriptData.fixture_parse ScriptData.df).
  exact script_columns_NoDup.
Defined.

(** The rounding decides at the threshold.  For these two names of 50
    characters the exact value of the expression is 22/25, which is not
    below 0.88; the value computed in binary64 is 0.8799999999999999, the
    comparison holds and the variant is classified. *)
Example threshold_rounding :
  let ref := "yyyyyyyyyaaaaaaaaaaaaaaaaaaaaaaaaaaaaaaaaaaaaaaaaa" in
  let var := "xxxxxxxxxaaaaaaaaaaaaaaaaaaaaaaaaaaaaaaaaaaaaaaaaa" in
  (jaro_winkler ref var == 22 # 25)%Q
  /\ jaro_winkler_float ref var = 0.87999999999999989%float
  /\ PrimFloat.ltb (jaro_winkler_float ref var) threshold = true
  /\ explosions_by_id ScriptData.fixture_parse
       (Frame ["first_name"] [Row 1 (fun _ => var); Row 1 (fun _ => ref)])
     = Some [(1%Z, [("first_name", var)])].
Proof. repeat split. Qed.

(** C3.  For a value observed in a group that differs from the reference,
    the decision of the classifier is the predicate of the field's class:
    for the two name fields, the value that [jaro_winkler] computes, a
    binary64 number, is below the literal 0.88; the date predicate for
    [dob]; an edit distance above 0 for [postcode] (which holds for every
    differing value); and always an explosion for any other field.
    [should_explode] of profile_exploded.py applies the same table to the
    metrics of its library, the similarity being a float as well. *)
Theorem classification_policy (parse : string -> option date) (df : frame) :
  NoDup (columns df) ->
  (exists e,
     explosions_by_id parse df = Some e
     /\ forall rid fld var,
          In rid (group_keys df) -> In fld (columns df) ->
          In var (series fld (get_group df rid)) ->
          var <> reference df fld rid ->
          let ref := reference df fld rid in
          let classified := In (fld, var) (entries rid e) in
          (In fld name_fields ->
           (classified
            <-> PrimFloat.ltb (jaro_winkler_float ref var) threshold = true))
          /\ (fld = "dob" ->
              (classified <-> date_exploded parse ref var = true))
          /\ (fld = "postcode" ->
              (classified <-> 0 < levenshtein ref var) /\ classified)
          /\ (~ In fld name_fields -> fld <> "dob" -> fld <> "postcode" ->
              classified))
  /\ (forall jw lev (row : ProfileExploded.merged_row),
        let fld := ProfileExploded.m_field row in
        let ref := ProfileExploded.m_reference row in
        let var := ProfileExploded.m_variant row in
        let decision := ProfileExploded.should_explode parse jw lev row in
        var <> ref ->
        (In fld name_fields ->
         decision = PrimFloat.ltb (jw ref var) threshold)
        /\ (fld = "dob" ->
            decision = ProfileExploded.date_exploded parse ref var)
        /\ (fld = "postcode" -> decision = (0 <? lev ref var)%nat)
        /\ (~ In fld name_fields -> fld <> "dob" -> fld <> "postcode" ->
            decision = true)).
Proof.
  intros Hnd. split.
  - destruct (explosions_In parse df Hnd) as (e & He & Hin).
    exists e. split; [exact He|].
    intros rid fld var Hrid Hfld Hobs Hne ref classified.
    assert (Hc : classified <-> explode_of parse fld ref var = true).
    { unfold classified. rewrite (Hin rid fld var Hrid Hfld).
      rewrite exploded_variants_In. fold ref. tauto. }
    split; [|split; [|split]].
    + intros Hn. rewrite Hc, (explode_of_name parse fld ref var Hn).
      reflexivity.
    + intros ->. now rewrite Hc, explode_of_dob.
    + intros ->. rewrite explode_of_postcode in Hc.
      assert (Hpos : (0 <? levenshtein ref var)%nat = true)
        by (apply levenshtein_pos; unfold ref; congruence).
      split; [|now apply Hc].
      rewrite Hc. apply Nat.ltb_lt.
    + intros Hn Hd Hp. apply Hc. now apply explode_of_other.
  - intros jw lev row fld ref var decision Hne.
    unfold decision, ProfileExploded.should_explode.
    fold fld ref var. apply String.eqb_neq in Hne. rewrite Hne.
    split; [|split; [|split]].
    + intros H. apply mem_In in H. now rewrite H.
    + intros E. now rewrite E.
    + intros E. now rewrite E.
    + intros H H0 H1. apply mem_not_In in H.
      apply String.eqb_neq in H0, H1. now rewrite H, H0, H1.
Qed.

Lemma classification_policy_witness :
  NoDup (columns ScriptData.df)
  /\ (exists e,
        explosions_by_id ScriptData.fixture_parse ScriptData.df = Some e
        /\ forall rid fld var,
             In rid (group_keys ScriptData.df) ->
             In fld (columns ScriptData.df) ->
             In var (series fld (get_group ScriptData.df rid)) ->
             var <> reference ScriptData.df fld rid ->
             let ref := reference ScriptData.df fld rid in
             let classified := In (fld, var) (entries rid e) in
             (In fld name_fields ->
              (classified
               <-> PrimFloat.ltb (jaro_winkler_float ref var) threshold
                   = true))
             /\ (fld = "dob" ->
                 (classified
                  <-> date_exploded ScriptData.fixture_parse ref var = true))
             /\ (fld = "postcode" ->
                 (classified <-> 0 < levenshtein ref var) /\ classified)
             /\ (~ In fld name_fields -> fld <> "dob" ->
                 fld <> "postcode" -> classified))
  /\ (forall jw lev (row : ProfileExploded.merged_row),
        let fld := ProfileExploded.m_field row in
        let ref := ProfileExploded.m_reference row in
        let var := ProfileExploded.m_variant row in
        let decision :=
          ProfileExploded.should_explode ScriptData.fixture_parse jw lev row
        in
        var <> ref ->
        (In fld name_fields ->
         decision = PrimFloat.ltb (jw ref var) threshold)
        /\ (fld = "dob" ->
            decision
            = ProfileExploded.date_exploded ScriptData.fixture_parse ref var)
        /\ (fld = "postcode" -> decision = (0 <? lev ref var)%nat)
        /\ (~ In fld name_fields -> fld <> "dob" -> fld <> "postcode" ->
            decision = true)).
Proof.
  split; [exact script_columns_NoDup|].
  apply (classification_policy ScriptData.fixture_parse ScriptData.df).
  exact script_columns_NoDup.
Defined.

Example script_references :
  reference_by_id ScriptData.df
  = [("first_name", [(1%Z, "jahn"); (2%Z, "johnny")]);
     ("last_name", [(1%Z, "smyth"); (2%Z, "smith")]);
     ("sex", [(1%Z, "m"); (2%Z, "female")]);
     ("dob", [(1%Z, "1985/06/15"); (2%Z, "19850615")]);
     ("address", [(1%Z, "124 main st"); (2%Z, "123 main st, apt 1")]);
     ("postcode", [(1%Z, "sw1a1a"); (2%Z, "sw1a1aa")]);
     ("telephone", [(1%Z, "0207946000"); (2%Z, "0207946000")]);
     ("email", [(1%Z, "johnsmith@example.com");
                (2%Z, "john.smith@example.com")])].
Proof. reflexivity. Qed.

(** C4.  Each group has exactly one reference per field, the cell of its
    last record: the last row of the group in row order in
    example_explode_analysis.py, and in profile_exploded.py a row of the
    group whose timestamp is the largest of the group, the one that the
    ascending sort puts last. *)
Theorem reference_is_last_record
    (sort_values : list ProfileExploded.row -> list ProfileExploded.row) :
  (forall df, Permutation df (sort_values df)) ->
  (forall df,
     Sorted (fun a b =>
               (ProfileExploded.row_ts a <= ProfileExploded.row_ts b)%Z)
            (sort_values df)) ->
  (forall (df : frame) fld rid,
     In fld (columns df) -> In rid (group_keys df) ->
     exists g r,
       get_group df rid = (g ++ [r])%list
       /\ reference_of (reference_by_id df) fld rid = Some (cell r fld))
  /\ (forall (df : list ProfileExploded.row) rid,
        In rid (map ProfileExploded.row_id df) ->
        exists g r rr,
          ProfileExploded.get_group (sort_values df) rid = (g ++ [r])%list
          /\ In r df /\ ProfileExploded.row_id r = rid
          /\ (forall r', In r' df -> ProfileExploded.row_id r' = rid ->
                         (ProfileExploded.row_ts r'
                          <= ProfileExploded.row_ts r)%Z)
          /\ filter (fun x => (ProfileExploded.r_id x =? rid)%Z)
                    (ProfileExploded.get_references sort_values df)
             = [rr]
          /\ ProfileExploded.r_id rr = rid
          /\ forall fld,
               ProfileExploded.r_cell rr fld = ProfileExploded.cell r fld).
Proof.
  intros Hperm Hsorted. split.
  - intros df fld rid Hfld Hrid.
    destruct (last_snoc_exists (get_group df rid)
                (get_group_nonempty df rid Hrid)) as (g & r & E).
    exists g, r. split; [exact E|].
    rewrite reference_of_spec by assumption.
    f_equal. now apply reference_last with g.
  - intros df rid Hrid.
    destruct (latest_row sort_values Hperm Hsorted df rid Hrid)
      as (g & r & E & Hr & Hid & Hmax).
    exists g, r. eexists. split; [exact E|].
    split; [exact Hr|]. split; [exact Hid|]. split; [exact Hmax|].
    split; [now apply get_references_row|].
    split; [reflexivity|].
    intros fld. simpl. unfold ProfileExploded.last_cell.
    rewrite E, map_app. cbn [map]. apply last_last.
Qed.

Lemma fixture_sort_perm :
  forall df, Permutation df (ScriptData.fixture_sort df).
Proof. intros df. apply sort_by_perm. Qed.

Lemma fixture_sort_sorted : forall df,
  Sorted (fun a b =>
            (ProfileExploded.row_ts a <= ProfileExploded.row_ts b)%Z)
         (ScriptData.fixture_sort df).
Proof.
  intros df.
  assert (Hs : Sorted (fun a b => ScriptData.ts_leb a b = true)
                      (ScriptData.fixture_sort df)).
  { apply sort_by_sorted. intros x y. unfold ScriptData.ts_leb.
    rewrite !Z.leb_le. lia. }
  induction Hs as [|x l Hs IH Hhd]; constructor; [assumption|].
  destruct Hhd as [|y l Hxy]; constructor.
  now apply Z.leb_le.
Qed.

Lemma reference_is_last_record_witness :
  (forall (df : frame) fld rid,
     In fld (columns df) -> In rid (group_keys df) ->
     exists g r,
       get_group df rid = (g ++ [r])%list
       /\ reference_of (reference_by_id df) fld rid = Some (cell r fld))
  /\ (forall (df : list ProfileExploded.row) rid,
        In rid (map ProfileExploded.row_id df) ->
        exists g r rr,
          ProfileExploded.get_group (ScriptData.fixture_sort df) rid
          = (g ++ [r])%list
          /\ In r df /\ ProfileExploded.row_id r = rid
          /\ (forall r', In r' df -> ProfileExploded.row_id r' = rid ->
                         (ProfileExploded.row_ts r'
                          <= ProfileExploded.row_ts r)%Z)
          /\ filter (fun x => (ProfileExploded.r_id x =? rid)%Z)
                    (ProfileExploded.get_references ScriptData.fixture_sort
                                                    df)
             = [rr]
          /\ ProfileExploded.r_id rr = rid
          /\ forall fld,
               ProfileExploded.r_cell rr fld = ProfileExploded.cell r fld).
Proof.
  apply (reference_is_last_record ScriptData.fixture_sort).
  - exact fixture_sort_perm.
  - exact fixture_sort_sorted.
Defined.

Example profile_references :
  map (fun rr => (ProfileExploded.r_id rr,
                  ProfileExploded.r_cell rr "first_name",
                  ProfileExploded.r_cell rr "postcode"))
      (ProfileExploded.get_references ScriptData.fixture_sort
                                      ScriptData.profile_rows)
  = [(1%Z, "jahn", "sw1a1a"); (2%Z, "johnny", "sw1a1aa")].
Proof. reflexivity. Qed.

Example date_exploded_scenarios :
  date_exploded ScriptData.fixture_parse "1985-06-15" "1985/06/15" = false
  /\ date_exploded ScriptData.fixture_parse "1985-06-15" "1985-06-16" = true
  /\ date_exploded ScriptData.fixture_parse "1985-06-15" "15 juin" = true.
Proof. repeat split. Qed.

(** C6.  [date_exploded] always returns: it answers [False] exactly when
    both strings parse and give the same calendar date, whatever their text,
    and [True] when the two dates differ or when either string fails to
    parse.  The function of profile_exploded.py is the same function. *)
Theorem date_exploded_total (parse : string -> option date)
    (ref var : string) :
  (date_exploded parse ref var = false
   <-> exists d, parse ref = Some d /\ parse var = Some d)
  /\ (forall d1 d2, parse ref = Some d1 -> parse var = Some d2 ->
                    d1 <> d2 -> date_exploded parse ref var = true)
  /\ (parse ref = None \/ parse var = None ->
      date_exploded parse ref var = true)
  /\ ProfileExploded.date_exploded parse ref var
     = date_exploded parse ref var.
Proof.
  split; [apply example_date_exploded_false|].
  split; [|split; [|reflexivity]].
  - intros d1 d2 E1 E2 Hne.
    destruct (date_exploded parse ref var) eqn:E; [reflexivity|].
    apply example_date_exploded_false in E. destruct E as (d & F1 & F2).
    congruence.
  - intros H.
    destruct (date_exploded parse ref var) eqn:E; [reflexivity|].
    apply example_date_exploded_false in E. destruct E as (d & F1 & F2).
    destruct H; congruence.
Qed.

Lemma date_exploded_total_witness :
  (exists d, ScriptData.fixture_parse "1985-06-15" = Some d
             /\ ScriptData.fixture_parse "1985/06/15" = Some d)
  /\ date_exploded ScriptData.fixture_parse "1985-06-15" "1985/06/15" = false.
Proof.
  assert (H : exists d, ScriptData.fixture_parse "1985-06-15" = Some d
                        /\ ScriptData.fixture_parse "1985/06/15" = Some d)
    by (exists (Date 1985 6 15); split; reflexivity).
  split; [exact H|].
  apply (proj2 (proj1 (date_exploded_total ScriptData.fixture_parse
                         "1985-06-15" "1985/06/15"))).
  exact H.
Defined.

(** C7 fails on the script's own data, by the assignment
    [metadata[fld][ref_val] = ...] that ends the loop over identifiers:
    identifiers 1 and 2 have the same telephone reference, both variants of
    identifier 1 were observed under it, and the entry of that reference
    holds the two variants of identifier 2 only. *)
Theorem metadata_overwritten_on_shared_reference :
  reference ScriptData.df "telephone" 1 = "0207946000"
  /\ reference ScriptData.df "telephone" 2 = "0207946000"
  /\ variants_of ScriptData.df 1 "telephone"
     = ["02079460000"; "+442079460000"]
  /\ variants_of ScriptData.df 2 "telephone"
     = ["2079460000"; "+44 20 79460000"]
  /\ forall parse,
       match PyDict.get "telephone" (metadata parse ScriptData.df) with
       | Some meta_fld =>
           PyDict.keys meta_fld = ["0207946000"]
           /\ option_map PyDict.keys (PyDict.get "0207946000" meta_fld)
              = Some ["2079460000"; "+44 20 79460000"]
       | None => False
       end.
Proof.
  repeat split; try reflexivity.
Qed.

(** [build_metadata] of profile_exploded.py groups by reference value: on
    the same six records it keeps the variants of both identifiers under
    the shared telephone reference. *)
Example build_metadata_aggregates :
  let fields := map fst ScriptData.fields in
  let freq_df :=
    ProfileExploded.compute_frequencies ScriptData.profile_rows fields in
  let ref_df :=
    ProfileExploded.get_references ScriptData.fixture_sort
                                   ScriptData.profile_rows in
  match PyDict.get "telephone"
          (ProfileExploded.build_metadata ScriptData.fixture_parse
             jaro_winkler_float levenshtein freq_df ref_df fields) with
  | Some meta_fld =>
      option_map PyDict.keys (PyDict.get "0207946000" meta_fld)
      = Some ["02079460000"; "+442079460000"; "2079460000";
              "+44 20 79460000"]
  | None => False
  end.
Proof. reflexivity. Qed.

(** Its [frequency] is the number of rows of [freq_df] that hold the
    variant, one per identifier, not the number of records: a variant seen
    twice under one identifier has frequency 1 there and 2 in the script. *)
Example build_metadata_counts_rows :
  let freq_df :=
    ProfileExploded.compute_frequencies ScriptData.repeated_variant ["x"] in
  let ref_df :=
    ProfileExploded.get_references ScriptData.fixture_sort
                                   ScriptData.repeated_variant in
  map (fun f => (ProfileExploded.f_variant f, ProfileExploded.f_frequency f))
      freq_df
  = [("a", 2); ("b", 1)]
  /\ ProfileExploded.build_metadata ScriptData.fixture_parse
       jaro_winkler_float levenshtein freq_df ref_df ["x"]
     = [("x", [("b", [("a", Info 1 None None None None)])])]
  /\ metadata ScriptData.fixture_parse
       (Frame ["x"] (map (fun v => Row 1 (fun _ => v)) ["a"; "a"; "b"]))
     = [("x", [("b", [("a", Info 2 None None None None)])])].
Proof. repeat split. Qed.

End PipelineClaims.

(** * The combination generator *)

Section CombinationClaims.

Import ExampleExplodeAnalysis.
Local Open Scope string_scope.

Example script_wide_frame :
  exists w,
    df_wide ScriptData.fixture_parse ScriptData.df = Some w
    /\ w_columns w
       = ["id"; "address"; "dob"; "email"; "first_name"; "last_name";
          "postcode"; "sex"; "telephone"]
    /\ len (w_rows w) = 64
    /\ len (rows_with_id 1 w) = 32
    /\ nth 0 (w_rows w) (0%Z, [])
       = (1%Z, [Some "123 main st"; Some "1985/06/15";
                Some "john.smith@exmaple.com"; Some "john"; Some "smyth";
                Some "sw1a1aa"; Some "male"; Some "02079460000"]).
Proof. eexists. split; [vm_compute; reflexivity|]. repeat split. Qed.

(** C5.  For an identifier of the frame, the generator takes for each
    column the values that the identifier's explosion list holds for it,
    or the reference alone when it holds none, and writes one row per tuple
    of the Cartesian product of these lists, taken in column order: the
    number of rows of the identifier is the product of the lengths of the
    lists, each of which is at least 1.  The columns of the result are
    [id] followed by the field names in ascending order. *)
Theorem combination_generator (parse : string -> option date) (df : frame) :
  NoDup (columns df) ->
  (exists k, In k key_fields /\ In k (columns df)) ->
  forall rid, In rid (group_keys df) ->
  exists e w,
    explosions_by_id parse df = Some e
    /\ df_wide parse df = Some w
    /\ w_columns w = "id" :: sort_by String.leb (columns df)
    /\ Sorted (fun a b => String.leb a b = true)
              (sort_by String.leb (columns df))
    /\ Permutation (columns df) (sort_by String.leb (columns df))
    /\ let lists := map (field_list e df rid) (columns df) in
       rows_with_id rid w = map (wide_row (columns df) rid) (product lists)
       /\ len (rows_with_id rid w) = prod_sizes (map (fun l => len l) lists)
       /\ Forall (fun l => 1 <= len l) lists
       /\ (forall combo,
             In combo (product lists)
             <-> Forall2 (fun v l => In v l) combo lists).
Proof.
  intros Hnd Hkey rid Hrid.
  destruct (explosions_by_id_spec parse df) as (e & He & _).
  destruct (df_wide_spec parse df e Hnd Hkey He rid Hrid)
    as (w & Hw & Hcols & Hrows).
  exists e, w. split; [exact He|]. split; [exact Hw|].
  split; [exact Hcols|].
  split; [apply sort_by_sorted, String.leb_total|].
  split; [apply sort_by_perm|].
  intros lists. split; [exact Hrows|]. split; [|split].
  - rewrite Hrows, length_map. apply product_length.
  - apply Forall_forall. intros l Hl. apply in_map_iff in Hl.
    destruct Hl as (fld & <- & _). apply field_list_nonempty.
  - apply product_In.
Qed.

Lemma script_has_key_field :
  exists k, In k key_fields /\ In k (columns ScriptData.df).
Proof. exists "postcode". split; simpl; tauto. Qed.

Lemma script_group_1 : In 1%Z (group_keys ScriptData.df).
Proof. vm_compute. tauto. Qed.

Lemma combination_generator_witness :
  NoDup (columns ScriptData.df)
  /\ (exists k, In k key_fields /\ In k (columns ScriptData.df))
  /\ In 1%Z (group_keys ScriptData.df)
  /\ exists e w,
       explosions_by_id ScriptData.fixture_parse ScriptData.df = Some e
       /\ df_wide ScriptData.fixture_parse ScriptData.df = Some w
       /\ w_columns w = "id" :: sort_by String.leb (columns ScriptData.df)
       /\ Sorted (fun a b => String.leb a b = true)
                 (sort_by String.leb (columns ScriptData.df))
       /\ Permutation (columns ScriptData.df)
                      (sort_by String.leb (columns ScriptData.df))
       /\ let lists :=
            map (field_list e ScriptData.df 1) (columns ScriptData.df) in
          rows_with_id 1 w
          = map (wide_row (columns ScriptData.df) 1) (product lists)
          /\ len (rows_with_id 1 w)
             = prod_sizes (map (fun l => len l) lists)
          /\ Forall (fun l => 1 <= len l) lists
          /\ (forall combo,
                In combo (product lists)
                <-> Forall2 (fun v l => In v l) combo lists).
Proof.
  split; [exact script_columns_NoDup|].
  split; [exact script_has_key_field|].
  split; [exact script_group_1|].
  apply (combination_generator ScriptData.fixture_parse ScriptData.df
           script_columns_NoDup script_has_key_field 1%Z script_group_1).
Defined.

End CombinationClaims.

(** * Further properties of the string metrics *)

Section LevenshteinMore.

Lemma chars_length (s : string) :
  len (list_ascii_of_string s) = String.length s.
Proof. induction s as [|c s IH]; simpl; congruence. Qed.

Lemma chars_append (s t : string) :
  list_ascii_of_string (s ++ t)
  = (list_ascii_of_string s ++ list_ascii_of_string t)%list.
Proof. induction s as [|c s IH]; simpl; congruence. Qed.

Lemma lev_spec_len_max a : forall b,
  lev_spec a b <= Nat.max (len a) (len b).
Proof.
  induction a as [|x a IHa]; intros b.
  - simpl. lia.
  - destruct b as [|y b].
    + simpl. lia.
    + rewrite lev_spec_cons. unfold min3.
      pose proof (IHa b) as H. pose proof (neq_cost_le1 x y).
      simpl List.length. lia.
Qed.

(** Deleting the first character costs at most one edit. *)
Lemma lev_spec_cons_l x a : forall b, lev_spec (x :: a) b <= lev_spec a b + 1.
Proof.
  intros [|y b].
  - rewrite !lev_spec_nil_r. simpl. lia.
  - rewrite lev_spec_cons. unfold min3. lia.
Qed.

Lemma lev_spec_same_head c a b :
  lev_spec (c :: a) (c :: b) = lev_spec a b.
Proof.
  rewrite lev_spec_cons, neq_cost_refl. unfold min3.
  pose proof (lev_spec_triangle a (c :: b) b) as T1.
  pose proof (lev_spec_cons_l c b b) as D1.
  pose proof (lev_spec_triangle a (c :: a) b) as T2.
  pose proof (lev_spec_cons_l c a a) as D2.
  rewrite (lev_spec_sym a (c :: a)) in T2.
  rewrite lev_spec_refl in D1, D2. lia.
Qed.

Lemma lev_spec_same_prefix p : forall a b,
  lev_spec (p ++ a) (p ++ b) = lev_spec a b.
Proof.
  induction p as [|c p IH]; intros a b; simpl app.
  - reflexivity.
  - now rewrite lev_spec_same_head.
Qed.

Lemma lev_spec_single_last c : forall b, lev_spec [c] (b ++ [c]) = len b.
Proof.
  induction b as [|y b IH].
  - simpl. now rewrite neq_cost_refl.
  - simpl app. rewrite lev_spec_cons, IH.
    change (lev_spec [] (y :: b ++ [c])) with (len (y :: b ++ [c])).
    change (lev_spec [] (b ++ [c])) with (len (b ++ [c])).
    simpl List.length. rewrite length_app. simpl List.length.
    unfold min3. pose proof (neq_cost_le1 c y). lia.
Qed.

Lemma lev_spec_same_last c a : forall b,
  lev_spec (a ++ [c]) (b ++ [c]) = lev_spec a b.
Proof.
  induction a as [|x a IHa]; intros b.
  - simpl app. apply lev_spec_single_last.
  - induction b as [|y b IHb].
    + simpl app at 2. rewrite lev_spec_sym, lev_spec_single_last.
      now rewrite lev_spec_nil_r.
    + simpl app. rewrite !lev_spec_cons.
      change (y :: b ++ [c]) with ((y :: b) ++ [c]).
      change (x :: a ++ [c]) with ((x :: a) ++ [c]).
      now rewrite (IHa (y :: b)), IHb, (IHa b).
Qed.

Lemma lev_spec_same_suffix s : forall a b,
  lev_spec (a ++ s) (b ++ s) = lev_spec a b.
Proof.
  induction s as [|c s IH] using rev_ind; intros a b.
  - now rewrite !app_nil_r.
  - rewrite !app_assoc, lev_spec_same_last. apply IH.
Qed.

(** X1.  The distance is at least the difference of the two lengths and at
    most the larger length; to the empty string it is the length of the
    other string. *)
Theorem levenshtein_length_bounds : forall a b : string,
  String.length a - String.length b <= levenshtein a b
  /\ String.length b - String.length a <= levenshtein a b
  /\ levenshtein a b <= Nat.max (String.length a) (String.length b)
  /\ levenshtein a "" = String.length a
  /\ levenshtein "" b = String.length b.
Proof.
  intros a b. rewrite levenshtein_spec.
  pose proof (lev_spec_len_lower (rev (list_ascii_of_string a))
                                 (rev (list_ascii_of_string b))) as [L1 L2].
  pose proof (lev_spec_len_max (rev (list_ascii_of_string a))
                               (rev (list_ascii_of_string b))) as U.
  rewrite !length_rev, !chars_length in *.
  repeat split; try lia.
  - rewrite levenshtein_spec. simpl.
    now rewrite lev_spec_nil_r, length_rev, chars_length.
  - rewrite levenshtein_spec. simpl.
    now rewrite length_rev, chars_length.
Qed.

(** X2.  A prefix and a suffix shared by the two strings do not change the
    distance. *)
Theorem levenshtein_common_affixes : forall p s a b : string,
  levenshtein (p ++ a ++ s) (p ++ b ++ s) = levenshtein a b.
Proof.
  intros p s a b. rewrite !levenshtein_spec, !chars_append, !rev_app_distr.
  rewrite <- !app_assoc.
  now rewrite lev_spec_same_prefix, lev_spec_same_suffix.
Qed.

End LevenshteinMore.

Section JaroWinklerMore.





Local Open Scope Q_scope.












Local Close Scope Q_scope.







End JaroWinklerMore.

(** * Further properties of the helpers of both files *)

Section MismatchMore.

Lemma mismatch_from_In a : forall b k i,
  In i (mismatch_from k a b)
  <-> exists ca cb,
        k <= i /\ nth_error a (i - k) = Some ca
        /\ nth_error b (i - k) = Some cb /\ ca <> cb.
Proof.
  induction a as [|x a IH]; intros [|y b] k i; simpl.
  - split; [contradiction|]. intros (ca & cb & _ & E & _).
    destruct (i - k); discriminate.
  - split; [contradiction|]. intros (ca & cb & _ & E & _).
    destruct (i - k); discriminate.
  - split; [contradiction|]. intros (ca & cb & _ & _ & E & _).
    destruct (i - k); discriminate.
  - assert (Hrest :
      In i (mismatch_from (S k) a b)
      <-> exists ca cb,
            k <= i /\ i <> k /\ nth_error (x :: a) (i - k) = Some ca
            /\ nth_error (y :: b) (i - k) = Some cb /\ ca <> cb).
    { rewrite IH. split.
      - intros (ca & cb & Hk & E1 & E2 & Hne). exists ca, cb.
        replace (i - k) with (S (i - S k)) by lia. simpl.
        repeat split; auto; lia.
      - intros (ca & cb & Hk & Hik & E1 & E2 & Hne). exists ca, cb.
        replace (i - k) with (S (i - S k)) in E1, E2 by lia.
        simpl in E1, E2. repeat split; auto; lia. }
    destruct (Ascii.eqb x y) eqn:E.
    + apply Ascii.eqb_eq in E. subst y. rewrite Hrest. split.
      * intros (ca & cb & Hk & _ & H). exists ca, cb. tauto.
      * intros (ca & cb & Hk & E1 & E2 & Hne). exists ca, cb.
        repeat split; auto. intros ->.
        rewrite Nat.sub_diag in E1, E2. simpl in E1, E2. congruence.
    + apply Ascii.eqb_neq in E. simpl. rewrite Hrest. split.
      * intros [<-|(ca & cb & Hk & _ & H)].
        -- exists x, y. rewrite Nat.sub_diag. simpl. auto.
        -- exists ca, cb. tauto.
      * intros (ca & cb & Hk & E1 & E2 & Hne).
        destruct (Nat.eq_dec i k) as [->|Hik]; [now left|].
        right. exists ca, cb. tauto.
Qed.

Lemma mismatch_from_sorted a : forall b k,
  StronglySorted lt (mismatch_from k a b)
  /\ Forall (fun i => k <= i) (mismatch_from k a b).
Proof.
  induction a as [|x a IH]; intros [|y b] k; simpl;
    try (split; constructor).
  destruct (IH b (S k)) as [Hs Hf].
  assert (Hf' : Forall (fun i => k <= i) (mismatch_from (S k) a b)).
  { eapply Forall_impl; [|exact Hf]. simpl. intros; lia. }
  destruct (Ascii.eqb x y); [now split|].
  split; constructor; auto.
Qed.

Lemma nth_error_chars (s : string) : forall i,
  nth_error (list_ascii_of_string s) i = String.get i s.
Proof.
  induction s as [|c s IH]; intros [|i]; simpl; auto.
Qed.

(** The first position reported is the length of the common prefix, when
    both strings go on after it. *)
Lemma mismatch_from_first4 n a : forall b k,
  existsb (fun p => p <? n) (mismatch_from k a b) = true
  <-> k + common_prefix a b < n
      /\ common_prefix a b < Nat.min (len a) (len b).
Proof.
  induction a as [|x a IH]; intros [|y b] k; simpl;
    try (split; [discriminate|lia]).
  destruct (Ascii.eqb x y) eqn:E.
  - rewrite (IH b (S k)). lia.
  - simpl. rewrite orb_true_iff, Nat.ltb_lt. split; [|lia].
    intros [H|H]; [lia|].
    apply existsb_exists in H. destruct H as (p & Hp & Hlt).
    apply Nat.ltb_lt in Hlt.
    destruct (mismatch_from_sorted a b (S k)) as [_ Hf].
    rewrite Forall_forall in Hf. specialize (Hf p Hp). lia.
Qed.

Lemma mismatch_from_prefix a t : forall k,
  mismatch_from k a (a ++ t) = [] /\ mismatch_from k (a ++ t) a = [].
Proof.
  induction a as [|x a IH]; intros k; simpl.
  - split; [reflexivity|]. now destruct t.
  - rewrite Ascii.eqb_refl. apply IH.
Qed.

(** X5.  [mismatch_positions] lists, in increasing order, exactly the
    positions at which both strings have a character and the two
    characters differ. *)
Theorem mismatch_positions_spec : forall (a b : string),
  StronglySorted lt (mismatch_positions a b)
  /\ forall i,
       In i (mismatch_positions a b)
       <-> exists ca cb,
             String.get i a = Some ca /\ String.get i b = Some cb
             /\ ca <> cb.
Proof.
  intros a b. unfold mismatch_positions. split.
  - apply mismatch_from_sorted.
  - intros i. rewrite mismatch_from_In, <- !nth_error_chars.
    rewrite Nat.sub_0_r. split.
    + intros (ca & cb & _ & H). eauto.
    + intros (ca & cb & H). exists ca, cb. split; [lia|assumption].
Qed.

(** X6.  The positions past the end of the shorter string are not
    compared: a string and any extension of it have no mismatch position.
    For a name field, [mismatch_first4] of the metadata is true exactly
    when the common prefix is shorter than 4 and shorter than both
    strings. *)
Theorem mismatch_first4_spec (parse : string -> option date) :
  (forall a t : string,
     mismatch_positions a (a ++ t) = []
     /\ mismatch_positions (a ++ t) a = [])
  /\ (forall fld ref_val var count,
        In fld name_fields ->
        (mismatch_first4
           (ExampleExplodeAnalysis.variant_info parse fld ref_val var count)
         = Some true
         <-> common_prefix (list_ascii_of_string ref_val)
                           (list_ascii_of_string var)
             < Nat.min 4 (Nat.min (String.length ref_val)
                                  (String.length var)))).
Proof.
  split.
  - intros a t. unfold mismatch_positions. rewrite chars_append.
    apply mismatch_from_prefix.
  - intros fld ref_val var count Hn. apply mem_In in Hn.
    unfold ExampleExplodeAnalysis.variant_info. rewrite Hn.
    cbn [mismatch_first4]. unfold mismatch_positions.
    rewrite <- !chars_length. split.
    + intros [= H]. apply mismatch_from_first4 in H. lia.
    + intros H. f_equal. apply mismatch_from_first4. lia.
Qed.

Lemma mismatch_first4_spec_witness :
  In "first_name"%string name_fields
  /\ mismatch_first4
       (ExampleExplodeAnalysis.variant_info ScriptData.fixture_parse
          "first_name" "john" "jahn" 1)
     = Some true.
Proof.
  assert (Hn : In "first_name"%string name_fields) by (simpl; tauto).
  split; [exact Hn|].
  apply (proj2 (mismatch_first4_spec ScriptData.fixture_parse)
           "first_name"%string "john"%string "jahn"%string 1 Hn).
  vm_compute. lia.
Defined.

End MismatchMore.

Section DateMore.

Variable parse : string -> option date.

Lemma date_eqb_sym d1 d2 : date_eqb d1 d2 = date_eqb d2 d1.
Proof.
  unfold date_eqb.
  now rewrite (Z.eqb_sym (year d1)), (Z.eqb_sym (month d1)),
    (Z.eqb_sym (day d1)).
Qed.

Lemma date_eqb_refl d : date_eqb d d = true.
Proof. now apply date_eqb_eq. Qed.

(** X7.  [date_exploded] does not depend on the order of its arguments,
    and a string compared with itself is exploded exactly when it fails to
    parse. *)
Theorem date_exploded_symmetric : forall ref var : string,
  ExampleExplodeAnalysis.date_exploded parse ref var
  = ExampleExplodeAnalysis.date_exploded parse var ref
  /\ (ExampleExplodeAnalysis.date_exploded parse ref ref = true
      <-> parse ref = None).
Proof.
  intros ref var. unfold ExampleExplodeAnalysis.date_exploded. split.
  - destruct (parse ref) as [d1|], (parse var) as [d2|]; try reflexivity.
    now rewrite date_eqb_sym.
  - destruct (parse ref) as [d|].
    + rewrite date_eqb_refl. simpl. split; discriminate.
    + tauto.
Qed.

End DateMore.

(** * Further properties of the classification loop *)

Section ExplosionsMore.

Import ExampleExplodeAnalysis.
Local Open Scope string_scope.

Variable parse : string -> option date.

Local Abbreviation explode_of := (explode_of parse).
Local Abbreviation explosions_by_id := (explosions_by_id parse).
Local Abbreviation field_entries := (field_entries parse).
Local Abbreviation exploded_variants := (exploded_variants parse).
Local Abbreviation fallback_entry := (fallback_entry parse).

Lemma reference_observed df fld rid :
  In rid (group_keys df) ->
  In (reference df fld rid) (series fld (get_group df rid)).
Proof.
  intros Hrid.
  destruct (last_snoc_exists (get_group df rid)
              (get_group_nonempty df rid Hrid)) as (g & r & Hg).
  rewrite (reference_last df fld rid g r Hg). unfold series.
  rewrite Hg. apply (in_map (fun r0 => cell r0 fld)), in_or_app.
  right. now left.
Qed.

Lemma field_entries_observed df rid fld fv :
  In rid (group_keys df) ->
  In fv (field_entries df rid fld) ->
  fst fv = fld /\ In (snd fv) (series fld (get_group df rid)).
Proof.
  intros Hrid Hin.
  pose proof (field_entries_fst parse df rid fld fv Hin) as Hf.
  split; [exact Hf|]. destruct fv as [f v]. simpl in *. subst f.
  apply (field_entries_In parse) in Hin. destruct Hin as [Hin|(-> & _)].
  - now apply (exploded_variants_In parse) in Hin.
  - now apply reference_observed.
Qed.

(** X8.  The classification loop never raises, and whatever it appends
    for an identifier is a column of the frame paired with a value that
    a record of that identifier carries in that column; identifiers
    absent from the frame have no entry. *)
Theorem explosions_entries_observed : forall df : frame,
  exists e,
    explosions_by_id df = Some e
    /\ forall rid fld v,
         In (fld, v) (entries rid e) ->
         In rid (group_keys df) /\ In fld (columns df)
         /\ In v (series fld (get_group df rid)).
Proof.
  intros df. destruct (explosions_by_id_spec parse df) as (e & He & Hent).
  exists e. split; [exact He|]. intros rid fld v Hin.
  rewrite Hent in Hin. destruct (mem rid (group_keys df)) eqn:Hm;
    [|contradiction].
  apply mem_In in Hm. split; [exact Hm|].
  apply in_flat_map in Hin. destruct Hin as (fld' & Hc & Hin).
  destruct (field_entries_observed df rid fld' (fld, v) Hm Hin)
    as [Hf Hv].
  simpl in Hf, Hv. subst fld'. now split.
Qed.

Lemma exploded_variants_all df rid fld :
  (forall v, v <> reference df fld rid ->
             explode_of fld (reference df fld rid) v = true) ->
  exploded_variants df rid fld = variants_of df rid fld.
Proof.
  intros Hall. unfold ExampleExplodeAnalysis.exploded_variants.
  apply filter_all. intros v Hv. apply (variants_of_In parse) in Hv.
  apply Hall, Hv.
Qed.

Lemma fallback_entry_not_key df rid fld :
  ~ In fld key_fields -> fallback_entry df rid fld = [].
Proof.
  intros Hk. destruct (fallback_entry_cases parse df rid fld)
    as [(Hin & _)|(_ & E)]; [contradiction|exact E].
Qed.

Lemma variants_of_nil df rid fld :
  (forall v, In v (series fld (get_group df rid)) ->
             v = reference df fld rid) ->
  variants_of df rid fld = [].
Proof.
  intros Hall. destruct (variants_of df rid fld) as [|v l] eqn:E;
    [reflexivity|].
  assert (Hv : In v (variants_of df rid fld)) by (rewrite E; now left).
  apply (variants_of_In parse) in Hv. destruct Hv as [Hs Hne].
  now apply Hall in Hs.
Qed.

(** X9.  Fields without a metric: for a column other than the names,
    [dob] and [postcode], the entries of an identifier are all its
    distinct values that differ from the reference, in order of first
    appearance; every differing postcode is an entry; and a column
    outside the key fields whose values all equal the reference gets no
    entry at all. *)
Theorem explosions_unmeasured_fields : forall df : frame,
  NoDup (columns df) ->
  exists e,
    explosions_by_id df = Some e
    /\ forall rid fld,
         In rid (group_keys df) -> In fld (columns df) ->
         (~ In fld name_fields -> fld <> "dob" -> fld <> "postcode" ->
          entries_for fld (entries rid e)
          = map (pair fld) (variants_of df rid fld))
         /\ (fld = "postcode" ->
             entries_for fld (entries rid e)
             = match variants_of df rid fld with
               | [] => [(fld, reference df fld rid)]
               | vs => map (pair fld) vs
               end)
         /\ (~ In fld key_fields ->
             (forall v, In v (series fld (get_group df rid)) ->
                        v = reference df fld rid) ->
             entries_for fld (entries rid e) = []).
Proof.
  intros df Hnd. destruct (explosions_field parse df Hnd) as (e & He & Hf).
  exists e. split; [exact He|]. intros rid fld Hrid Hfld.
  rewrite (Hf rid fld Hrid Hfld).
  unfold ExampleExplodeAnalysis.field_entries. split; [|split].
  - intros Hn Hd Hp.
    rewrite exploded_variants_all
      by (intros v _; now apply explode_of_other).
    rewrite fallback_entry_not_key; [apply app_nil_r|].
    unfold key_fields, name_fields in *. simpl in *. intuition.
  - intros ->.
    rewrite exploded_variants_all.
    2:{ intros v Hv. rewrite explode_of_postcode.
        apply levenshtein_pos. congruence. }
    destruct (fallback_entry_cases parse df rid "postcode")
      as [(_ & Hnil & E)|([Hk|Hne] & E)]; rewrite E.
    + rewrite exploded_variants_all in Hnil.
      2:{ intros v Hv. rewrite explode_of_postcode.
          apply levenshtein_pos. congruence. }
      rewrite Hnil. reflexivity.
    + exfalso. apply Hk. simpl. tauto.
    + rewrite exploded_variants_all in Hne.
      2:{ intros v Hv. rewrite explode_of_postcode.
          apply levenshtein_pos. congruence. }
      rewrite app_nil_r.
      destruct (variants_of df rid "postcode"); [congruence|reflexivity].
  - intros Hk Hall. rewrite fallback_entry_not_key by exact Hk.
    unfold ExampleExplodeAnalysis.exploded_variants.
    rewrite (variants_of_nil df rid fld Hall). reflexivity.
Qed.

Lemma NoDup_flat_map_fst {A B : Type} (key : B -> A) (f : A -> list B)
    (l : list A) :
  NoDup l ->
  (forall a, NoDup (f a)) ->
  (forall a x, In x (f a) -> key x = a) ->
  NoDup (flat_map f l).
Proof.
  intros Hl Hf Hk. induction Hl as [|a l Ha Hl IH]; simpl.
  - constructor.
  - apply NoDup_app; [apply Hf|exact IH|].
    intros x Hx Hx'. apply in_flat_map in Hx'.
    destruct Hx' as (a' & Ha' & Hx').
    apply Hk in Hx. apply Hk in Hx'. congruence.
Qed.

Lemma field_entries_NoDup df rid fld : NoDup (field_entries df rid fld).
Proof.
  eapply NoDup_map_inv. apply (field_entries_values_NoDup parse).
Qed.

Lemma flat_map_entries_for df rid (cols sub : list string) :
  NoDup cols -> incl sub cols ->
  flat_map (fun fld => entries_for fld (flat_map (field_entries df rid) cols))
           sub
  = flat_map (field_entries df rid) sub.
Proof.
  intros Hnd. induction sub as [|c sub IH]; intros Hincl; simpl.
  - reflexivity.
  - rewrite (entries_for_flat_map parse df rid c cols Hnd)
      by (apply Hincl; now left).
    f_equal. apply IH. intros x Hx. apply Hincl. now right.
Qed.

Lemma flat_map_nil {A B : Type} (l : list A) :
  flat_map (fun _ : A => @nil B) l = [].
Proof. induction l; simpl; auto. Qed.

(** X10.  With distinct column names, the list of an identifier holds no
    pair twice and is ordered by column: it is the concatenation, in
    column order, of its per-field parts. *)
Theorem explosions_list_shape : forall df : frame,
  NoDup (columns df) ->
  exists e,
    explosions_by_id df = Some e
    /\ forall rid,
         NoDup (entries rid e)
         /\ entries rid e
            = flat_map (fun fld => entries_for fld (entries rid e))
                       (columns df).
Proof.
  intros df Hnd. destruct (explosions_by_id_spec parse df) as (e & He & Hent).
  exists e. split; [exact He|]. intros rid. rewrite Hent.
  destruct (mem rid (group_keys df)).
  - split.
    + apply (NoDup_flat_map_fst fst); auto.
      * intros a. apply field_entries_NoDup.
      * intros a x. apply field_entries_fst.
    + symmetry. apply flat_map_entries_for; [exact Hnd|apply incl_refl].
  - split; [constructor|]. simpl. symmetry. apply flat_map_nil.
Qed.

End ExplosionsMore.

Lemma explosions_unmeasured_fields_witness :
  NoDup (ExampleExplodeAnalysis.columns ScriptData.df)
  /\ exists e,
       ExampleExplodeAnalysis.explosions_by_id ScriptData.fixture_parse
         ScriptData.df = Some e
       /\ ExampleExplodeAnalysis.entries_for "sex"%string (ExampleExplodeAnalysis.entries 1%Z e)
          = [("sex"%string, "male"%string)].
Proof.
  split; [exact script_columns_NoDup|].
  destruct (explosions_unmeasured_fields ScriptData.fixture_parse
              ScriptData.df script_columns_NoDup)
    as (e & He & Hf).
  exists e. split; [exact He|].
  destruct (Hf 1%Z "sex"%string script_group_1) as (H1 & _).
  - vm_compute. tauto.
  - rewrite H1.
    + reflexivity.
    + vm_compute. intuition discriminate.
    + discriminate.
    + discriminate.
Defined.

Lemma explosions_list_shape_witness :
  NoDup (ExampleExplodeAnalysis.columns ScriptData.df)
  /\ exists e,
       ExampleExplodeAnalysis.explosions_by_id ScriptData.fixture_parse
         ScriptData.df = Some e
       /\ NoDup (ExampleExplodeAnalysis.entries 2%Z e).
Proof.
  split; [exact script_columns_NoDup|].
  destruct (explosions_list_shape ScriptData.fixture_parse ScriptData.df script_columns_NoDup)
    as (e & He & Hf).
  exists e. split; [exact He|]. apply Hf.
Defined.

(** * The metadata loop of the script *)

Section DictFolds.

Context {K V : Type} `{Key K}.

Lemma get_none_keys (k : K) (d : list (K * V)) :
  PyDict.get k d = None <-> ~ In k (PyDict.keys d).
Proof.
  induction d as [|[k' v] d IH]; simpl.
  - tauto.
  - destruct (keqb k k') eqn:E.
    + apply keqb_eq in E. subst k'. split; [discriminate|tauto].
    + apply keqb_neq in E. rewrite IH. split.
      * intros Hn [Hk|Hk]; [congruence|tauto].
      * tauto.
Qed.

(** A loop of assignments [d[key(x)] = val(x)]: the last [x] with a given
    key decides. *)
Lemma get_fold_set {X : Type} (f : list (K * V) -> X -> list (K * V))
    (key : X -> K) (val : X -> V) (k : K) :
  (forall d x, f d x = PyDict.set (key x) (val x) d) ->
  forall l d,
    PyDict.get k (fold_left f l d)
    = match find (fun x => keqb k (key x)) (rev l) with
      | Some x => Some (val x)
      | None => PyDict.get k d
      end.
Proof.
  intros Hf l. induction l as [|x l IH] using rev_ind; intros d.
  - reflexivity.
  - rewrite fold_left_app, rev_app_distr. simpl. rewrite Hf.
    destruct (keqb k (key x)) eqn:E.
    + apply keqb_eq in E. subst k. apply PyDictFacts.get_set_eq.
    + apply keqb_neq in E. rewrite PyDictFacts.get_set_ne by congruence.
      apply IH.
Qed.

Lemma fold_left_map_list {X Y S : Type} (f : S -> Y -> S) (h : X -> Y)
    (l : list X) : forall s,
  fold_left f (map h l) s = fold_left (fun s x => f s (h x)) l s.
Proof. induction l as [|x l IH]; intros s; simpl; auto. Qed.

End DictFolds.

Section CounterFacts.

Local Abbreviation count_of d v :=
  (match PyDict.get v d with
   | Some n => n
   | None => 0
   end).

Lemma counter_fold (v : string) (xs : list string) :
  forall d : PyDict.t string nat,
    let d' :=
      fold_left
        (fun d x =>
           PyDict.set x (S (match PyDict.get x d with
                            | Some n => n
                            | None => 0
                            end)) d)
        xs d in
    count_of d' v = count_of d v + count_occ string_dec xs v
    /\ (PyDict.get v d' = None <-> PyDict.get v d = None /\ ~ In v xs)
    /\ (NoDup (PyDict.keys d) -> NoDup (PyDict.keys d')).
Proof.
  induction xs as [|x xs IH]; intros d; simpl.
  - repeat split; auto; tauto.
  - destruct (IH (PyDict.set x (S (match PyDict.get x d with
                                   | Some n => n
                                   | None => 0
                                   end)) d)) as (Hc & Hn & Hk).
    split; [|split].
    + rewrite Hc.
      destruct (string_dec x v) as [->|Hne].
      * rewrite PyDictFacts.get_set_eq. lia.
      * rewrite PyDictFacts.get_set_ne by exact Hne. lia.
    + rewrite Hn. destruct (string_dec x v) as [->|Hne].
      * rewrite PyDictFacts.get_set_eq. split; [intros [E _]|intros [_ E]].
        -- discriminate.
        -- exfalso. apply E. now left.
      * rewrite PyDictFacts.get_set_ne by exact Hne. split.
        -- intros [E Hin]. split; [exact E|]. intros [E'|E']; tauto.
        -- intros [E Hin]. split; [exact E|]. tauto.
    + intros Hd. apply Hk. now apply set_keys_NoDup.
Qed.

Lemma counter_get (xs : list string) (v : string) :
  PyDict.get v (counter xs)
  = if mem v xs then Some (count_occ string_dec xs v) else None.
Proof.
  destruct (counter_fold v xs []) as (Hc & Hn & _). simpl in Hc, Hn.
  fold (counter xs) in Hc, Hn.
  destruct (mem v xs) eqn:Hm.
  - apply mem_In in Hm.
    destruct (PyDict.get v (counter xs)) as [n|] eqn:E.
    + now subst n.
    + exfalso. apply (proj1 Hn); auto.
  - apply mem_not_In in Hm. apply Hn. now split.
Qed.

Lemma counter_keys_NoDup (xs : list string) : NoDup (PyDict.keys (counter xs)).
Proof.
  destruct (counter_fold EmptyString xs []) as (_ & _ & Hk).
  apply Hk. constructor.
Qed.

Lemma count_occ_differing (ref_val v : string) (xs : list string) :
  v <> ref_val ->
  count_occ string_dec (ExampleExplodeAnalysis.differing ref_val xs) v
  = count_occ string_dec xs v.
Proof.
  intros Hne. induction xs as [|x xs IH]; simpl; [reflexivity|].
  destruct (String.eqb x ref_val) eqn:E; simpl.
  - apply String.eqb_eq in E. subst x.
    destruct (string_dec ref_val v); [congruence|exact IH].
  - destruct (string_dec x v); now rewrite IH.
Qed.

(** The loop over [freq.items()] writes one entry per key of the
    counter. *)
Lemma get_items_loop {V : Type} (g : string -> nat -> V)
    (freq : PyDict.t string nat) (v : string) :
  NoDup (PyDict.keys freq) ->
  PyDict.get v
    (fold_left (fun vm vc => PyDict.set (fst vc) (g (fst vc) (snd vc)) vm)
               freq [])
  = match PyDict.get v freq with
    | Some n => Some (g v n)
    | None => None
    end.
Proof.
  intros Hnd.
  rewrite (get_fold_set _ fst (fun vc => g (fst vc) (snd vc)) v)
    by reflexivity.
  destruct (find (fun x => keqb v (fst x)) (rev freq)) as [[k n]|] eqn:E.
  - apply find_some in E. destruct E as [Hin E]. simpl in E.
    apply String.eqb_eq in E. subst k. apply in_rev in Hin.
    apply (get_In v n freq Hnd) in Hin. now rewrite Hin.
  - simpl. destruct (PyDict.get v freq) as [n|] eqn:G; [|reflexivity].
    apply (get_In v n freq Hnd) in G. apply in_rev in G.
    pose proof (find_none _ _ E _ G) as Hf. simpl in Hf.
    now rewrite String.eqb_refl in Hf.
Qed.

End CounterFacts.

Section MetadataMore.

Import ExampleExplodeAnalysis.
Import LoopParts.

Variable parse : string -> option date.

Local Abbreviation variant_info := (variant_info parse).
Local Abbreviation metadata := (metadata parse).
Local Abbreviation metadata_step := (metadata_step parse).
Local Abbreviation var_meta := (var_meta parse).

Lemma variant_info_frequency fld ref_val var count :
  frequency (variant_info fld ref_val var count) = count.
Proof.
  unfold ExampleExplodeAnalysis.variant_info.
  destruct (mem fld name_fields); [reflexivity|].
  destruct (mem fld ["dob"; "postcode"]%string); [|reflexivity].
  destruct (String.eqb fld "dob"); reflexivity.
Qed.

Lemma mem_differing ref_val v xs :
  mem v (differing ref_val xs)
  = negb (String.eqb v ref_val) && mem v xs.
Proof.
  destruct (mem v (differing ref_val xs)) eqn:E.
  - apply mem_In in E. apply filter_In in E. destruct E as [Hin Hne].
    rewrite Hne. simpl. symmetry. now apply mem_In.
  - apply mem_not_In in E.
    destruct (String.eqb v ref_val) eqn:Hv; [reflexivity|]. simpl.
    symmetry. apply mem_not_In. intros Hin. apply E.
    apply filter_In. split; [exact Hin|]. now rewrite Hv.
Qed.

Lemma var_meta_get (df : frame) (fld : string) (rid : Z)
    (ref_val v : string) :
  PyDict.get v (var_meta df fld rid ref_val)
  = if negb (String.eqb v ref_val)
       && mem v (series fld (get_group df rid))
    then Some (variant_info fld ref_val v
                 (count_occ string_dec (series fld (get_group df rid)) v))
    else None.
Proof.
  unfold LoopParts.var_meta.
  rewrite (get_items_loop (variant_info fld ref_val))
    by apply counter_keys_NoDup.
  rewrite counter_get, mem_differing.
  destruct (String.eqb v ref_val) eqn:Hv; simpl; [reflexivity|].
  apply String.eqb_neq in Hv.
  destruct (mem v (series fld (get_group df rid))); [|reflexivity].
  now rewrite count_occ_differing.
Qed.

(** X11.  [var_meta] of one identifier and field has an entry for exactly
    the values of the identifier's records that differ from the reference,
    and the frequency of an entry is the number of records that carry the
    value. *)
Theorem var_meta_spec : forall (df : frame) (fld : string) (rid : Z)
    (ref_val v : string),
  let observed := series fld (get_group df rid) in
  PyDict.get v (var_meta df fld rid ref_val)
  = (if negb (String.eqb v ref_val) && mem v observed
     then Some (variant_info fld ref_val v
                  (count_occ string_dec observed v))
     else None)
  /\ forall i, PyDict.get v (var_meta df fld rid ref_val) = Some i ->
       frequency i = count_occ string_dec observed v
       /\ 1 <= frequency i.
Proof.
  intros df fld rid ref_val v observed.
  pose proof (var_meta_get df fld rid ref_val v) as Hget.
  fold observed in Hget.
  split; [exact Hget|]. intros i Hi. rewrite Hget in Hi.
  destruct (negb (String.eqb v ref_val) && mem v observed) eqn:E;
    [|discriminate].
  injection Hi as <-. rewrite variant_info_frequency. split; [reflexivity|].
  apply andb_true_iff in E. destruct E as [_ E]. apply mem_In in E.
  apply (count_occ_In string_dec) in E. lia.
Qed.

Lemma StronglySorted_app_l {A : Type} (R : A -> A -> Prop) (l1 l2 : list A) :
  StronglySorted R (l1 ++ l2) -> StronglySorted R l1.
Proof.
  induction l1 as [|a l1 IH]; simpl; intros Hs; [constructor|].
  inversion Hs; subst. constructor; [now apply IH|].
  rewrite Forall_forall in *. intros x Hx. apply H2, in_or_app. now left.
Qed.

(** The first hit in the reversed list of a sorted list is the largest
    hit. *)
Lemma find_rev_sorted (f : Z -> bool) (l : list Z) :
  StronglySorted (fun a b => (a <=? b)%Z = true) l ->
  match find f (rev l) with
  | Some x =>
      In x l /\ f x = true
      /\ forall y, In y l -> f y = true -> (y <= x)%Z
  | None => forall y, In y l -> f y = false
  end.
Proof.
  induction l as [|a l IH] using rev_ind; intros Hs.
  - simpl. contradiction.
  - rewrite rev_app_distr. simpl. destruct (f a) eqn:Ea.
    + split; [apply in_or_app; right; now left|]. split; [exact Ea|].
      intros y Hy _. apply in_app_or in Hy. destruct Hy as [Hy|[<-|[]]].
      * apply Z.leb_le. now apply (StronglySorted_last _ l a Hs).
      * lia.
    + specialize (IH (StronglySorted_app_l _ _ _ Hs)).
      destruct (find f (rev l)) as [x|].
      * destruct IH as (Hin & Hx & Hmax). split; [|split]; auto.
        -- apply in_or_app. now left.
        -- intros y Hy Hfy. apply in_app_or in Hy.
           destruct Hy as [Hy|[<-|[]]]; [now apply Hmax|congruence].
      * intros y Hy. apply in_app_or in Hy.
        destruct Hy as [Hy|[<-|[]]]; auto.
Qed.

Lemma group_keys_sorted df :
  StronglySorted (fun a b => (a <=? b)%Z = true) (group_keys df).
Proof.
  unfold group_keys. apply Sorted_StronglySorted.
  - intros a b c Hab Hbc. apply Z.leb_le in Hab, Hbc. apply Z.leb_le. lia.
  - apply sort_by_sorted. intros x y.
    destruct (Z.leb_spec x y); [now left|right]. apply Z.leb_le. lia.
Qed.

Lemma metadata_field df fld :
  In fld (columns df) ->
  PyDict.get fld (metadata df)
  = Some (fold_left
            (fun m rid =>
               PyDict.set (reference df fld rid)
                          (var_meta df fld rid (reference df fld rid)) m)
            (group_keys df) []).
Proof.
  intros Hfld. unfold ExampleExplodeAnalysis.metadata.
  rewrite (get_fold_set _ fst
             (fun item =>
                fold_left (metadata_step df (fst item)) (snd item) [])
             fld) by reflexivity.
  match goal with
  | |- context [find ?f ?l] => destruct (find f l) as [[f' mapping]|] eqn:E
  end.
  - apply find_some in E. destruct E as [Hin E]. simpl in E.
    apply String.eqb_eq in E. subst f'. apply in_rev in Hin.
    unfold reference_by_id in Hin. apply in_map_iff in Hin.
    destruct Hin as (f & Hf & _). injection Hf as -> <-.
    simpl. f_equal. unfold groupby. rewrite map_map.
    rewrite fold_left_map_list. reflexivity.
  - exfalso.
    assert (Hin : In (fld, map (fun g => (fst g, iloc_last (series fld (snd g))))
                               (groupby df))
                     (rev (reference_by_id df))).
    { apply in_rev. rewrite rev_involutive. unfold reference_by_id.
      apply (in_map (fun f => (f, map (fun g => (fst g, iloc_last (series f (snd g))))
                                      (groupby df)))).
      exact Hfld. }
    pose proof (find_none _ _ E _ Hin) as Hf. simpl in Hf.
    now rewrite String.eqb_refl in Hf.
Qed.

(** X12.  [metadata[fld]] keeps one entry per reference value: the
    [var_meta] of the identifier with the largest id among the
    identifiers that have this reference; the variants of the other
    identifiers with the same reference are not in it.  A value that is
    the reference of no identifier is no key. *)
Theorem metadata_last_identifier_wins : forall (df : frame) (fld : string),
  In fld (columns df) ->
  exists meta_fld,
    PyDict.get fld (metadata df) = Some meta_fld
    /\ (forall ref_val vm,
          PyDict.get ref_val meta_fld = Some vm ->
          exists rid,
            In rid (group_keys df)
            /\ reference df fld rid = ref_val
            /\ (forall rid', In rid' (group_keys df) ->
                  reference df fld rid' = ref_val -> (rid' <= rid)%Z)
            /\ vm = var_meta df fld rid ref_val)
    /\ (forall ref_val,
          PyDict.get ref_val meta_fld = None
          <-> forall rid, In rid (group_keys df) ->
                reference df fld rid <> ref_val)
    /\ (forall rid, In rid (group_keys df) ->
          PyDict.get (reference df fld rid) meta_fld <> None).
Proof.
  intros df fld Hfld. eexists. split; [apply metadata_field, Hfld|].
  assert (Hget : forall ref_val,
    PyDict.get ref_val
      (fold_left
         (fun m rid =>
            PyDict.set (reference df fld rid)
                       (var_meta df fld rid (reference df fld rid)) m)
         (group_keys df) [])
    = match find (fun rid => String.eqb ref_val (reference df fld rid))
                 (rev (group_keys df)) with
      | Some rid => Some (var_meta df fld rid (reference df fld rid))
      | None => None
      end).
  { intros ref_val.
    now rewrite (get_fold_set _ (reference df fld)
                   (fun rid => var_meta df fld rid (reference df fld rid))
                   ref_val) by reflexivity. }
  assert (Hnone : forall ref_val,
    PyDict.get ref_val
      (fold_left
         (fun m rid =>
            PyDict.set (reference df fld rid)
                       (var_meta df fld rid (reference df fld rid)) m)
         (group_keys df) []) = None
    <-> forall rid, In rid (group_keys df) ->
          reference df fld rid <> ref_val).
  { intros ref_val. rewrite Hget.
    pose proof (find_rev_sorted
                  (fun rid => String.eqb ref_val (reference df fld rid))
                  (group_keys df) (group_keys_sorted df)) as Hfind.
    destruct (find _ (rev (group_keys df))) as [rid|].
    - destruct Hfind as (Hin & Hf & _). apply String.eqb_eq in Hf.
      split; [discriminate|]. intros Hall. exfalso.
      now apply (Hall rid Hin).
    - split; [|reflexivity]. intros _ rid Hin Hr.
      specialize (Hfind rid Hin). simpl in Hfind.
      apply String.eqb_neq in Hfind. congruence. }
  split; [|split].
  - intros ref_val vm Hvm. rewrite Hget in Hvm.
    pose proof (find_rev_sorted
                  (fun rid => String.eqb ref_val (reference df fld rid))
                  (group_keys df) (group_keys_sorted df)) as Hfind.
    destruct (find _ (rev (group_keys df))) as [rid|]; [|discriminate].
    destruct Hfind as (Hin & Hf & Hmax). apply String.eqb_eq in Hf.
    injection Hvm as <-. exists rid. repeat split; auto.
    + intros rid' Hin' Hr. apply Hmax; [exact Hin'|].
      apply String.eqb_eq. congruence.
    + now rewrite <- Hf.
  - exact Hnone.
  - intros rid Hin Hn. now apply (proj1 (Hnone _) Hn rid Hin).
Qed.

End MetadataMore.

Lemma metadata_last_identifier_wins_witness :
  In "telephone"%string (ExampleExplodeAnalysis.columns ScriptData.df)
  /\ exists meta_fld,
       PyDict.get "telephone"%string
         (ExampleExplodeAnalysis.metadata ScriptData.fixture_parse
            ScriptData.df) = Some meta_fld
       /\ PyDict.get "0207946000"%string meta_fld
          = Some (LoopParts.var_meta ScriptData.fixture_parse ScriptData.df
                    "telephone" 2 "0207946000").
Proof.
  assert (Hc : In "telephone"%string
                  (ExampleExplodeAnalysis.columns ScriptData.df))
    by (vm_compute; tauto).
  split; [exact Hc|].
  destruct (metadata_last_identifier_wins ScriptData.fixture_parse
              ScriptData.df "telephone"%string Hc)
    as (meta_fld & Hm & _).
  exists meta_fld. split; [exact Hm|].
  vm_compute in Hm. injection Hm as <-. vm_compute. reflexivity.
Defined.

(** * The frequency table and the references of profile_exploded.py *)

Section CountingFacts.

Context {K : Type} `{Key K}.

Lemma list_sum_map_add {A : Type} (f g : A -> nat) (l : list A) :
  list_sum (map (fun x => f x + g x) l)
  = list_sum (map f l) + list_sum (map g l).
Proof. induction l as [|x l IH]; simpl; lia. Qed.

Lemma list_sum_indicator (k : K) (ks : list K) :
  NoDup ks -> In k ks ->
  list_sum (map (fun k' => if keqb k k' then 1 else 0) ks) = 1.
Proof.
  induction 1 as [|a ks Ha Hnd IH]; intros Hin; [contradiction|].
  simpl. destruct (keqb k a) eqn:E.
  - apply keqb_eq in E. subst a.
    assert (Hz : forall l, ~ In k l ->
                 list_sum (map (fun k' => if keqb k k' then 1 else 0) l) = 0).
    { induction l as [|b l IHl]; intros Hn; simpl; [reflexivity|].
      destruct (keqb k b) eqn:Eb.
      - apply keqb_eq in Eb. subst b. exfalso. apply Hn. now left.
      - apply IHl. intros Hl. apply Hn. now right. }
    now rewrite Hz.
  - apply keqb_neq in E. destruct Hin as [->|Hin]; [congruence|].
    now rewrite IH.
Qed.

(** Group sizes add up to the number of rows. *)
Lemma group_sizes_sum {A : Type} (key : A -> K) (l : list A) :
  forall ks, NoDup ks -> (forall x, In x l -> In (key x) ks) ->
  list_sum (map (fun k => len (filter (fun x => keqb (key x) k) l)) ks)
  = len l.
Proof.
  induction l as [|x l IH]; intros ks Hnd Hin; simpl.
  - clear Hnd Hin. induction ks; simpl; auto.
  - transitivity
      (list_sum
         (map (fun k => (if keqb (key x) k then 1 else 0)
                        + len (filter (fun y => keqb (key y) k) l)) ks)).
    + f_equal. apply map_ext. intros k.
      destruct (keqb (key x) k); reflexivity.
    + rewrite list_sum_map_add.
      rewrite (list_sum_indicator (key x) ks Hnd) by (apply Hin; now left).
      rewrite (IH ks Hnd) by (intros y Hy; apply Hin; now right).
      reflexivity.
Qed.

Lemma filter_flat_map_single {B : Type} (key : B -> K) (f : K -> list B)
    (ks : list K) (k : K) :
  (forall k' x, In x (f k') -> key x = k') ->
  NoDup ks -> In k ks ->
  filter (fun x => keqb (key x) k) (flat_map f ks) = f k.
Proof.
  intros Hkey. induction 1 as [|a ks Ha Hnd IH]; intros Hin; [contradiction|].
  simpl. rewrite filter_app. destruct Hin as [->|Hin].
  - rewrite filter_all.
    2:{ intros x Hx. apply keqb_eq. now apply Hkey in Hx. }
    rewrite filter_none; [apply app_nil_r|].
    intros x Hx. apply in_flat_map in Hx. destruct Hx as (k' & Hk' & Hx).
    apply Hkey in Hx. apply keqb_neq. congruence.
  - rewrite filter_none.
    2:{ intros x Hx. apply Hkey in Hx. apply keqb_neq. congruence. }
    now apply IH.
Qed.

End CountingFacts.

Section FrequencyTable.

Import ProfileExploded.

(** The piece of [freq_df] made for one field. *)
Local Abbreviation piece df fld :=
  (map (fun iv : Z * string =>
          FreqRow (fst iv) (snd iv)
                  (len (filter (fun r => keqb (row_id r, cell r fld) iv) df))
                  fld)
       (unique (map (fun r => (row_id r, cell r fld)) df))).

Lemma pair_filter_eq (df : list row) fld (iv : Z * string) :
  filter (fun r => keqb (row_id r, cell r fld) iv) df
  = filter (fun r => (row_id r =? fst iv)%Z
                     && String.eqb (cell r fld) (snd iv)) df.
Proof. destruct iv as [i v]. reflexivity. Qed.

Lemma compute_frequencies_In df fields fr :
  In fr (compute_frequencies df fields)
  <-> exists fld iv,
        In fld fields
        /\ In iv (map (fun r => (row_id r, cell r fld)) df)
        /\ fr = FreqRow (fst iv) (snd iv)
                  (len (filter (fun r => (row_id r =? fst iv)%Z
                                         && String.eqb (cell r fld) (snd iv))
                               df))
                  fld.
Proof.
  unfold compute_frequencies. rewrite in_flat_map. split.
  - intros (fld & Hfld & Hin). apply in_map_iff in Hin.
    destruct Hin as (iv & <- & Hiv). rewrite unique_In in Hiv.
    exists fld, iv. rewrite pair_filter_eq. auto.
  - intros (fld & iv & Hfld & Hiv & ->). exists fld. split; [exact Hfld|].
    apply in_map_iff. exists iv. rewrite pair_filter_eq.
    split; [reflexivity|]. now apply unique_In.
Qed.

Lemma compute_frequencies_field df fields fld :
  NoDup fields -> In fld fields ->
  filter (fun fr => String.eqb (f_field fr) fld)
         (compute_frequencies df fields)
  = piece df fld.
Proof.
  intros Hnd Hin. unfold compute_frequencies.
  apply (@filter_flat_map_single string Key_string freq_row f_field
           (fun fld => piece df fld) fields fld); auto.
  intros k x Hx. apply in_map_iff in Hx. destruct Hx as (iv & <- & _).
  reflexivity.
Qed.

(** X13.  [compute_frequencies]: every row of [freq_df] belongs to a
    requested field, its frequency is the number of records of its
    identifier that carry its variant in that field, which is at least 1;
    every value of every record has its row; and with distinct field names
    no (identifier, variant, field) has two rows. *)
Theorem compute_frequencies_spec : forall (df : list row)
    (fields : list string),
  (forall fr, In fr (compute_frequencies df fields) ->
     In (f_field fr) fields
     /\ f_frequency fr
        = len (filter (fun r => (row_id r =? f_id fr)%Z
                                && String.eqb (cell r (f_field fr))
                                              (f_variant fr)) df)
     /\ 1 <= f_frequency fr)
  /\ (forall r fld, In r df -> In fld fields ->
        exists fr, In fr (compute_frequencies df fields)
                   /\ f_id fr = row_id r /\ f_variant fr = cell r fld
                   /\ f_field fr = fld)
  /\ (NoDup fields ->
      NoDup (map (fun fr => (f_field fr, (f_id fr, f_variant fr)))
                 (compute_frequencies df fields))).
Proof.
  intros df fields. split; [|split].
  - intros fr Hin. apply compute_frequencies_In in Hin.
    destruct Hin as (fld & iv & Hfld & Hiv & ->). simpl.
    split; [exact Hfld|]. split; [reflexivity|].
    apply in_map_iff in Hiv. destruct Hiv as (r & <- & Hr). simpl.
    assert (Hin : In r (filter (fun r0 => (row_id r0 =? row_id r)%Z
                                          && String.eqb (cell r0 fld)
                                                        (cell r fld)) df)).
    { apply filter_In. split; [exact Hr|].
      now rewrite Z.eqb_refl, String.eqb_refl. }
    destruct (filter _ df); [contradiction|simpl; lia].
  - intros r fld Hr Hfld. eexists. split.
    + apply compute_frequencies_In. exists fld, (row_id r, cell r fld).
      split; [exact Hfld|]. split; [|reflexivity].
      now apply (in_map (fun r => (row_id r, cell r fld))).
    + simpl. auto.
  - intros Hnd. unfold compute_frequencies. rewrite flat_map_concat_map.
    rewrite concat_map, map_map. rewrite <- flat_map_concat_map.
    apply (NoDup_flat_map_fst fst); [exact Hnd| |].
    + intros fld. rewrite map_map. simpl.
      apply Finite.Injective_map_NoDup; [|apply unique_NoDup].
      intros [i v] [i' v'] E. simpl in E. congruence.
    + intros fld x Hx. rewrite map_map in Hx. apply in_map_iff in Hx.
      destruct Hx as (iv & <- & _). reflexivity.
Qed.

(** X14.  The frequencies of one field add up to the number of records
    of the frame. *)
Theorem compute_frequencies_total : forall (df : list row)
    (fields : list string) (fld : string),
  NoDup fields -> In fld fields ->
  list_sum (map f_frequency
                (filter (fun fr => String.eqb (f_field fr) fld)
                        (compute_frequencies df fields)))
  = len df.
Proof.
  intros df fields fld Hnd Hin.
  rewrite (compute_frequencies_field df fields fld Hnd Hin), map_map.
  simpl.
  exact (@group_sizes_sum (Z * string) _ row
           (fun r => (row_id r, cell r fld)) df
           (unique (map (fun r => (row_id r, cell r fld)) df))
           (unique_NoDup _)
           (fun r Hr =>
              proj2 (unique_In _ _)
                    (in_map (fun r => (row_id r, cell r fld)) df r Hr))).
Qed.

End FrequencyTable.

Lemma compute_frequencies_total_witness :
  NoDup ["first_name"; "dob"]%string
  /\ In "dob"%string ["first_name"; "dob"]%string
  /\ list_sum
       (map ProfileExploded.f_frequency
            (filter (fun fr =>
                       String.eqb (ProfileExploded.f_field fr) "dob")
                    (ProfileExploded.compute_frequencies
                       ScriptData.profile_rows
                       ["first_name"; "dob"]%string)))
     = 6.
Proof.
  assert (Hnd : NoDup ["first_name"; "dob"]%string).
  { repeat constructor; simpl; intuition discriminate. }
  assert (Hin : In "dob"%string ["first_name"; "dob"]%string)
    by (simpl; tauto).
  split; [exact Hnd|]. split; [exact Hin|].
  exact (compute_frequencies_total ScriptData.profile_rows
           ["first_name"; "dob"]%string "dob"%string Hnd Hin).
Defined.

Section ReferenceTable.

Import ProfileExploded.

Variable sort_values : list row -> list row.

Hypothesis sort_values_perm : forall df, Permutation df (sort_values df).

Local Abbreviation get_references := (get_references sort_values).

Lemma sorted_NoDup_strict (l : list Z) :
  StronglySorted (fun a b => (a <=? b)%Z = true) l -> NoDup l ->
  StronglySorted Z.lt l.
Proof.
  induction 1 as [|a l Hs IH Hall]; intros Hnd; [constructor|].
  inversion Hnd as [|? ? Ha Hnd']; subst.
  constructor; [now apply IH|].
  rewrite Forall_forall in *. intros x Hx.
  specialize (Hall x Hx). apply Z.leb_le in Hall.
  assert (x <> a) by (intros ->; contradiction). lia.
Qed.

Lemma sort_by_Z_sorted (l : list Z) :
  StronglySorted (fun a b => (a <=? b)%Z = true) (sort_by Z.leb l).
Proof.
  apply Sorted_StronglySorted.
  - intros a b c Hab Hbc. apply Z.leb_le in Hab, Hbc. apply Z.leb_le. lia.
  - apply sort_by_sorted. intros x y.
    destruct (Z.leb_spec x y); [now left|right]. apply Z.leb_le. lia.
Qed.

Lemma strict_sorted_unique (l1 : list Z) : forall l2,
  StronglySorted Z.lt l1 -> StronglySorted Z.lt l2 ->
  (forall x, In x l1 <-> In x l2) -> l1 = l2.
Proof.
  induction l1 as [|a l1 IH]; intros [|b l2] H1 H2 Hin.
  - reflexivity.
  - exfalso. apply (proj2 (Hin b)). now left.
  - exfalso. apply (proj1 (Hin a)). now left.
  - inversion H1 as [|? ? H1' Ha]; subst.
    inversion H2 as [|? ? H2' Hb]; subst.
    rewrite Forall_forall in Ha, Hb.
    assert (a = b).
    { destruct (proj1 (Hin a) (or_introl eq_refl)) as [->|Hab];
        [reflexivity|].
      destruct (proj2 (Hin b) (or_introl eq_refl)) as [->|Hba];
        [reflexivity|].
      specialize (Ha b Hba). specialize (Hb a Hab). lia. }
    subst b. f_equal. apply IH; auto. intros x. split; intros Hx.
    + destruct (proj1 (Hin x) (or_intror Hx)) as [->|Hx']; [|exact Hx'].
      specialize (Ha x Hx). lia.
    + destruct (proj2 (Hin x) (or_intror Hx)) as [->|Hx']; [|exact Hx'].
      specialize (Hb x Hx). lia.
Qed.

(** X15.  [ref_df] lists the identifiers of the frame in strictly
    ascending order, so each of them once, whatever order the sort left
    the records in. *)
Theorem get_references_ids : forall df : list row,
  StronglySorted Z.lt (map r_id (get_references df))
  /\ (forall rid, In rid (map r_id (get_references df))
                  <-> In rid (map row_id df))
  /\ map r_id (get_references df) = group_keys df.
Proof.
  intros df.
  assert (E : map r_id (get_references df) = group_keys (sort_values df)).
  { unfold ProfileExploded.get_references. rewrite map_map. simpl.
    apply map_id. }
  rewrite E. split; [|split].
  - apply sorted_NoDup_strict; [apply sort_by_Z_sorted|].
    apply sort_by_NoDup, unique_NoDup.
  - intros rid. unfold group_keys. rewrite sort_by_In, unique_In.
    split; intros Hin.
    + eapply Permutation_in; [|exact Hin].
      apply Permutation_map. symmetry. apply sort_values_perm.
    + eapply Permutation_in; [|exact Hin].
      apply Permutation_map. apply sort_values_perm.
  - apply strict_sorted_unique.
    + apply sorted_NoDup_strict; [apply sort_by_Z_sorted|].
      apply sort_by_NoDup, unique_NoDup.
    + apply sorted_NoDup_strict; [apply sort_by_Z_sorted|].
      apply sort_by_NoDup, unique_NoDup.
    + intros rid. unfold group_keys. rewrite !sort_by_In, !unique_In.
      split; intros Hin.
      * eapply Permutation_in; [|exact Hin].
        apply Permutation_map. symmetry. apply sort_values_perm.
      * eapply Permutation_in; [|exact Hin].
        apply Permutation_map. apply sort_values_perm.
Qed.

End ReferenceTable.

Lemma get_references_ids_witness :
  (forall df, Permutation df (ScriptData.fixture_sort df))
  /\ map ProfileExploded.r_id
         (ProfileExploded.get_references ScriptData.fixture_sort
            ScriptData.profile_rows)
     = [1; 2]%Z.
Proof.
  split; [exact fixture_sort_perm|].
  rewrite (proj2 (proj2 (get_references_ids ScriptData.fixture_sort
                           fixture_sort_perm ScriptData.profile_rows))).
  reflexivity.
Defined.

(** * [build_metadata] on the tables of one frame *)

Section ListFacts.

Lemma flat_map_singleton {A B : Type} (f : A -> list B) (g : A -> B)
    (l : list A) :
  (forall x, In x l -> f x = [g x]) -> flat_map f l = map g l.
Proof.
  induction l as [|x l IH]; intros Hf; simpl; [reflexivity|].
  rewrite (Hf x) by now left. simpl. f_equal.
  apply IH. intros y Hy. apply Hf. now right.
Qed.

Lemma flat_map_map_list {A B C : Type} (f : B -> list C) (g : A -> B)
    (l : list A) :
  flat_map f (map g l) = flat_map (fun x => f (g x)) l.
Proof. induction l as [|x l IH]; simpl; [reflexivity|now rewrite IH]. Qed.

Lemma filter_map_comm {A B : Type} (p : B -> bool) (g : A -> B)
    (l : list A) :
  filter p (map g l) = map g (filter (fun x => p (g x)) l).
Proof.
  induction l as [|x l IH]; simpl; [reflexivity|].
  destruct (p (g x)); simpl; now rewrite IH.
Qed.

Lemma filter_filter_and {A : Type} (p q : A -> bool) (l : list A) :
  filter p (filter q l) = filter (fun x => q x && p x) l.
Proof.
  induction l as [|x l IH]; simpl; [reflexivity|].
  destruct (q x); simpl; [destruct (p x)|]; now rewrite IH.
Qed.

Lemma count_occ_map_filter {A : Type} (f : A -> string) (l : list A)
    (v : string) :
  count_occ string_dec (map f l) v
  = len (filter (fun x => String.eqb (f x) v) l).
Proof.
  induction l as [|x l IH]; simpl; [reflexivity|].
  destruct (string_dec (f x) v) as [E|E].
  - rewrite (proj2 (String.eqb_eq _ _) E). simpl. now rewrite IH.
  - rewrite (proj2 (String.eqb_neq _ _) E). exact IH.
Qed.

End ListFacts.

Section BuildMetadata.

Import ProfileExploded.

Variable parse : string -> option date.
Variable JaroWinkler_similarity : string -> string -> PrimFloat.float.
Variable Levenshtein_distance : string -> string -> nat.
Variable sort_values : list row -> list row.

Hypothesis sort_values_perm : forall df, Permutation df (sort_values df).

Local Abbreviation get_references := (get_references sort_values).
Local Abbreviation variant_info :=
  (variant_info parse JaroWinkler_similarity Levenshtein_distance).
Local Abbreviation reference_step :=
  (reference_step parse JaroWinkler_similarity Levenshtein_distance).
Local Abbreviation build_metadata :=
  (build_metadata parse JaroWinkler_similarity Levenshtein_distance).

Variable df : list row.
Variable fields : list string.
Variable fld : string.

Hypothesis fields_NoDup : NoDup fields.
Hypothesis fld_requested : In fld fields.

(** The reference of an identifier, the distinct (identifier, value)
    pairs of the field, and the row of [merged] made from a pair. *)
Local Abbreviation ref_of rid :=
  (last_cell fld (get_group (sort_values df) rid)).
Local Abbreviation pairs :=
  (unique (map (fun r => (row_id r, cell r fld)) df)).
Local Abbreviation merged_of iv :=
  (MergedRow (fst iv) (snd iv)
     (len (filter (fun r => keqb (row_id r, cell r fld) iv) df))
     fld (ref_of (fst iv))).

Lemma pairs_In iv :
  In iv pairs <-> exists r, In r df /\ row_id r = fst iv /\ cell r fld = snd iv.
Proof.
  rewrite unique_In, in_map_iff. split.
  - intros (r & <- & Hr). exists r. auto.
  - intros (r & Hr & E1 & E2). exists r. split; [|exact Hr].
    destruct iv; simpl in *; congruence.
Qed.

Lemma merged_rows :
  merge_reference
    (filter (fun fr => String.eqb (f_field fr) fld)
            (compute_frequencies df fields))
    (get_references df) fld
  = map (fun iv => merged_of iv) pairs.
Proof.
  rewrite (compute_frequencies_field df fields fld fields_NoDup
             fld_requested).
  unfold merge_reference. rewrite flat_map_map_list.
  apply flat_map_singleton. intros iv Hiv. simpl.
  rewrite (get_references_row sort_values sort_values_perm df (fst iv)).
  - reflexivity.
  - apply pairs_In in Hiv. destruct Hiv as (r & Hr & E & _).
    rewrite <- E. now apply in_map.
Qed.

Lemma build_metadata_field :
  PyDict.get fld
    (build_metadata (compute_frequencies df fields) (get_references df)
                    fields)
  = Some (fold_left
            (reference_step fld (map (fun iv => merged_of iv) pairs))
            (unique (map (fun iv => ref_of (fst iv)) pairs)) []).
Proof.
  unfold ProfileExploded.build_metadata.
  rewrite (get_fold_set _ (fun f : string => f)
             (fun f =>
                let fr := filter (fun fr => String.eqb (f_field fr) f)
                                 (compute_frequencies df fields) in
                let merged := merge_reference fr (get_references df) f in
                fold_left (reference_step f merged)
                          (unique (map m_reference merged)) [])
             fld) by reflexivity.
  match goal with
  | |- context [find ?f ?l] => destruct (find f l) as [f'|] eqn:E
  end.
  - apply find_some in E. destruct E as [_ E]. simpl in E.
    apply String.eqb_eq in E. subst f'. cbv zeta.
    rewrite merged_rows, map_map. reflexivity.
  - exfalso. apply in_rev in fld_requested.
    pose proof (find_none _ _ E _ fld_requested) as Hf. simpl in Hf.
    now rewrite String.eqb_refl in Hf.
Qed.

(** The dictionary written for one reference value. *)
Local Abbreviation variants_meta merged ref_val :=
  (fold_left
     (fun vm vc =>
        PyDict.set (fst vc) (variant_info fld ref_val (fst vc) (snd vc)) vm)
     (counter
        (map m_variant
             (filter (fun m => negb (String.eqb (m_variant m) ref_val))
                     (filter (fun m => String.eqb (m_reference m) ref_val)
                             merged))))
     []).

Lemma reference_loop merged (refs : list string) ref_val :
  PyDict.get ref_val (fold_left (reference_step fld merged) refs [])
  = if mem ref_val refs then Some (variants_meta merged ref_val) else None.
Proof.
  rewrite (get_fold_set _ (fun r : string => r)
             (fun r => variants_meta merged r) ref_val) by reflexivity.
  match goal with
  | |- context [find ?f ?l] => destruct (find f l) as [r|] eqn:E
  end.
  - apply find_some in E. destruct E as [Hin E]. simpl in E.
    apply String.eqb_eq in E. subst r. apply in_rev in Hin.
    now rewrite (proj2 (mem_In ref_val refs) Hin).
  - simpl. destruct (mem ref_val refs) eqn:Hm; [|reflexivity].
    apply mem_In in Hm. apply in_rev in Hm.
    pose proof (find_none _ _ E _ Hm) as Hf. simpl in Hf.
    now rewrite String.eqb_refl in Hf.
Qed.

(** The identifiers that have the reference [ref_val] and a record with
    the value [v]. *)
Local Abbreviation holders ref_val v :=
  (filter (fun rid =>
             String.eqb (ref_of rid) ref_val
             && mem v (map (fun r => cell r fld) (get_group df rid)))
          (group_keys df)).

Lemma holders_In ref_val v rid :
  In rid (holders ref_val v)
  <-> ref_of rid = ref_val
      /\ exists r, In r df /\ row_id r = rid /\ cell r fld = v.
Proof.
  rewrite filter_In, andb_true_iff, String.eqb_eq, mem_In, in_map_iff.
  unfold group_keys. rewrite sort_by_In, unique_In, in_map_iff. split.
  - intros (_ & Href & r & Hc & Hr). split; [exact Href|].
    apply filter_In in Hr. destruct Hr as [Hr Hid]. apply Z.eqb_eq in Hid.
    exists r. auto.
  - intros (Href & r & Hr & Hid & Hc). split; [exists r; auto|].
    split; [exact Href|]. exists r. split; [exact Hc|].
    apply filter_In. split; [exact Hr|]. now apply Z.eqb_eq.
Qed.

Lemma variant_count ref_val v :
  v <> ref_val ->
  count_occ string_dec
    (map m_variant
         (filter (fun m => negb (String.eqb (m_variant m) ref_val))
                 (filter (fun m => String.eqb (m_reference m) ref_val)
                         (map (fun iv => merged_of iv) pairs))))
    v
  = len (holders ref_val v).
Proof.
  intros Hne.
  rewrite count_occ_map_filter, !filter_filter_and, filter_map_comm.
  rewrite length_map. simpl.
  rewrite <- (length_map fst).
  apply Permutation_length, NoDup_Permutation.
  - apply Finite.Injective_map_NoDup_in.
    + intros [i1 v1] [i2 v2] H1 H2 E. simpl in E. subst i2.
      apply filter_In in H1. apply filter_In in H2.
      destruct H1 as [_ H1], H2 as [_ H2]. simpl in H1, H2.
      rewrite !andb_true_iff in H1, H2.
      destruct H1 as (_ & _ & H1), H2 as (_ & _ & H2).
      apply String.eqb_eq in H1. apply String.eqb_eq in H2. congruence.
    + apply NoDup_filter, unique_NoDup.
  - apply NoDup_filter, sort_by_NoDup, unique_NoDup.
  - intros rid. rewrite holders_In, in_map_iff. split.
    + intros ([i w] & <- & Hin). apply filter_In in Hin. simpl in Hin.
      destruct Hin as [Hin Hq]. rewrite !andb_true_iff in Hq.
      destruct Hq as (Href & _ & Hv). apply String.eqb_eq in Href, Hv.
      subst w. split; [exact Href|]. apply pairs_In in Hin. exact Hin.
    + intros (Href & r & Hr & Hid & Hc). exists (rid, v). split; [reflexivity|].
      apply filter_In. split.
      * apply pairs_In. exists r. auto.
      * simpl. rewrite !andb_true_iff, !String.eqb_eq. repeat split; auto.
        apply negb_true_iff. now apply String.eqb_neq.
Qed.

Lemma variants_meta_get ref_val v :
  PyDict.get v (variants_meta (map (fun iv => merged_of iv) pairs) ref_val)
  = if String.eqb v ref_val then None
    else match len (holders ref_val v) with
         | 0 => None
         | n => Some (variant_info fld ref_val v n)
         end.
Proof.
  rewrite (get_items_loop (variant_info fld ref_val))
    by apply counter_keys_NoDup.
  rewrite counter_get.
  destruct (String.eqb v ref_val) eqn:Hv.
  - apply String.eqb_eq in Hv. subst v.
    match goal with
    | |- context [mem ?x ?l] => destruct (mem x l) eqn:Hm
    end; [|reflexivity].
    exfalso. apply mem_In in Hm. apply in_map_iff in Hm.
    destruct Hm as (m & E & Hm). apply filter_In in Hm.
    destruct Hm as [_ Hm]. apply negb_true_iff, String.eqb_neq in Hm.
    contradiction.
  - apply String.eqb_neq in Hv.
    match goal with
    | |- context [mem ?x ?l] =>
        pose proof (count_occ_In string_dec l x) as Hc;
        pose proof (count_occ_not_In string_dec l x) as Hc';
        destruct (mem x l) eqn:Hm
    end.
    + apply mem_In in Hm. apply Hc in Hm.
      rewrite (variant_count ref_val v Hv) in *.
      destruct (len (holders ref_val v)); [lia|reflexivity].
    + apply mem_not_In in Hm. apply Hc' in Hm.
      rewrite (variant_count ref_val v Hv) in Hm. now rewrite Hm.
Qed.

(** X16.  [build_metadata] on the tables made from one frame groups by
    reference value: [meta[fld]] has a key for exactly the references of
    the identifiers; under a reference it lists a value different from the
    reference exactly when some identifier with this reference has a
    record with the value, and the frequency written is the number of
    those identifiers, not of their records. *)
Theorem build_metadata_spec :
  exists meta_fld,
    PyDict.get fld
      (build_metadata (compute_frequencies df fields) (get_references df)
                      fields)
    = Some meta_fld
    /\ (forall ref_val,
          PyDict.get ref_val meta_fld <> None
          <-> exists rid, In rid (group_keys df) /\ ref_of rid = ref_val)
    /\ (forall ref_val vm v,
          PyDict.get ref_val meta_fld = Some vm ->
          PyDict.get v vm
          = if String.eqb v ref_val then None
            else match len (holders ref_val v) with
                 | 0 => None
                 | n => Some (variant_info fld ref_val v n)
                 end).
Proof.
  eexists. split; [apply build_metadata_field|]. split.
  - intros ref_val. rewrite reference_loop.
    match goal with
    | |- context [mem ?x ?l] => destruct (mem x l) eqn:Hm
    end.
    + split; [|discriminate]. intros _. apply mem_In in Hm.
      rewrite unique_In in Hm. apply in_map_iff in Hm.
      destruct Hm as (iv & Href & Hiv). exists (fst iv).
      split; [|exact Href]. apply pairs_In in Hiv.
      destruct Hiv as (r & Hr & Hid & _). unfold group_keys.
      rewrite sort_by_In, unique_In, <- Hid. now apply in_map.
    + split; [congruence|]. intros (rid & Hin & Href). exfalso.
      apply mem_not_In in Hm. apply Hm. rewrite unique_In.
      unfold group_keys in Hin. rewrite sort_by_In, unique_In in Hin.
      apply in_map_iff in Hin. destruct Hin as (r & Hid & Hr).
      apply in_map_iff. exists (rid, cell r fld). split; [exact Href|].
      apply pairs_In. exists r. auto.
  - intros ref_val vm v Hvm. rewrite reference_loop in Hvm.
    match type of Hvm with
    | context [mem ?x ?l] => destruct (mem x l)
    end; [|discriminate].
    injection Hvm as <-. apply variants_meta_get.
Qed.

End BuildMetadata.

Lemma build_metadata_spec_witness :
  (forall df, Permutation df (ScriptData.fixture_sort df))
  /\ NoDup ["telephone"]%string
  /\ In "telephone"%string ["telephone"]%string
  /\ exists meta_fld,
       PyDict.get "telephone"%string
         (ProfileExploded.build_metadata ScriptData.fixture_parse
            jaro_winkler_float levenshtein
            (ProfileExploded.compute_frequencies ScriptData.profile_rows
               ["telephone"]%string)
            (ProfileExploded.get_references ScriptData.fixture_sort
               ScriptData.profile_rows)
            ["telephone"]%string)
       = Some meta_fld
       /\ PyDict.get "0207946000"%string meta_fld <> None.
Proof.
  assert (Hnd : NoDup ["telephone"]%string)
    by (repeat constructor; simpl; tauto).
  assert (Hin : In "telephone"%string ["telephone"]%string)
    by (simpl; tauto).
  split; [exact fixture_sort_perm|]. split; [exact Hnd|].
  split; [exact Hin|].
  destruct (build_metadata_spec ScriptData.fixture_parse jaro_winkler_float
              levenshtein ScriptData.fixture_sort fixture_sort_perm
              ScriptData.profile_rows ["telephone"]%string
              "telephone"%string Hnd Hin)
    as (meta_fld & Hm & Hkeys & _).
  exists meta_fld. split; [exact Hm|].
  apply Hkeys. exists 1%Z. split; vm_compute; tauto.
Defined.

(** * The whole frame of combinations *)

Section WideFrame.

Import ExampleExplodeAnalysis.
Local Open Scope string_scope.

Variable parse : string -> option date.

Local Abbreviation explosions_by_id := (explosions_by_id parse).
Local Abbreviation field_entries := (field_entries parse).
Local Abbreviation exploded_variants := (exploded_variants parse).
Local Abbreviation fallback_entry := (fallback_entry parse).
Local Abbreviation df_wide := (df_wide parse).

Variable df : frame.
Variable e : explosions.

Hypothesis columns_NoDup : NoDup (columns df).
Hypothesis has_key_field : exists k, In k key_fields /\ In k (columns df).
Hypothesis e_result : explosions_by_id df = Some e.

(** The rows written for one identifier. *)
Local Abbreviation rows_for k :=
  (map (wide_row (columns df) k)
       (product (map (field_list e df k) (columns df)))).

Lemma grouped_index_keys :
  g_index (grouped (records e)) = group_keys df.
Proof.
  apply strict_sorted_unique.
  - cbn [g_index grouped].
    apply sorted_NoDup_strict; [apply sort_by_Z_sorted|].
    apply sort_by_NoDup, unique_NoDup.
  - apply sorted_NoDup_strict; [apply sort_by_Z_sorted|].
    apply group_keys_NoDup.
  - intros rid.
    apply (e_index_In parse df e has_key_field e_result).
Qed.

Lemma df_wide_rows :
  group_keys df <> [] ->
  exists w,
    df_wide df = Some w
    /\ w_rows w = flat_map (fun k => rows_for k) (group_keys df).
Proof.
  intros Hne. unfold ExampleExplodeAnalysis.df_wide. rewrite e_result.
  assert (Hrec : records e <> []).
  { intros E. pose proof grouped_index_keys as Hk. rewrite E in Hk.
    cbn in Hk. congruence. }
  destruct (records e) as [|r0 recs] eqn:Erec; [contradiction|].
  rewrite <- Erec.
  rewrite (all_fields_columns df).
  rewrite (all_some_map _
             (fun k => map (out_of (columns df) k)
                           (product (map (field_list e df k)
                                         (columns df))))).
  - eexists. split; [reflexivity|].
    unfold reorder. cbn [w_rows].
    rewrite concat_map, map_map, grouped_index_keys.
    rewrite flat_map_concat_map. f_equal. apply map_ext. intros k.
    rewrite map_map. apply map_ext. intros combo.
    now rewrite (out_of_spec df columns_NoDup).
  - intros k Hk.
    apply (rows_of_spec parse df e); auto.
    now rewrite <- grouped_index_keys.
Qed.

Lemma StronglySorted_app {A : Type} (R : A -> A -> Prop) (l1 l2 : list A) :
  StronglySorted R l1 -> StronglySorted R l2 ->
  (forall x y, In x l1 -> In y l2 -> R x y) ->
  StronglySorted R (l1 ++ l2).
Proof.
  induction 1 as [|a l1 Hs IH Hall]; intros H2 Hx; simpl; [exact H2|].
  constructor.
  - apply IH; [exact H2|]. intros x y Hin. apply Hx. now right.
  - rewrite Forall_forall in *. intros y Hy. apply in_app_or in Hy.
    destruct Hy as [Hy|Hy]; [now apply Hall|]. apply Hx; [now left|exact Hy].
Qed.

Lemma StronglySorted_const (k : Z) (l : list Z) :
  (forall x, In x l -> x = k) -> StronglySorted Z.le l.
Proof.
  induction l as [|a l IH]; intros Hk; constructor.
  - apply IH. intros x Hx. apply Hk. now right.
  - apply Forall_forall. intros x Hx.
    rewrite (Hk a) by now left. rewrite (Hk x) by now right. lia.
Qed.

Lemma flat_map_ids_sorted {B : Type} (f : Z -> list (Z * B)) (ks : list Z) :
  (forall k x, In x (f k) -> fst x = k) ->
  StronglySorted Z.lt ks ->
  StronglySorted Z.le (map fst (flat_map f ks)).
Proof.
  intros Hf. induction 1 as [|k ks Hs IH Hall]; simpl; [constructor|].
  rewrite map_app. apply StronglySorted_app.
  - apply (StronglySorted_const k). intros x Hx. apply in_map_iff in Hx.
    destruct Hx as (y & <- & Hy). now apply Hf.
  - exact IH.
  - intros x y Hx Hy. apply in_map_iff in Hx. destruct Hx as (x' & <- & Hx).
    apply in_map_iff in Hy. destruct Hy as (y' & <- & Hy).
    apply in_flat_map in Hy. destruct Hy as (k' & Hk' & Hy).
    rewrite (Hf k x' Hx), (Hf k' y' Hy).
    rewrite Forall_forall in Hall. specialize (Hall k' Hk'). lia.
Qed.

Lemma length_flat_map {A B : Type} (f : A -> list B) (l : list A) :
  len (flat_map f l) = list_sum (map (fun x => len (f x)) l).
Proof.
  induction l as [|x l IH]; simpl; [reflexivity|].
  now rewrite length_app, IH.
Qed.

Lemma field_list_cases rid fld :
  In rid (group_keys df) -> In fld (columns df) ->
  field_list e df rid fld
  = match exploded_variants df rid fld with
    | [] => [reference df fld rid]
    | l => l
    end.
Proof.
  intros Hrid Hfld. unfold field_list.
  rewrite (e_field parse df e columns_NoDup e_result rid fld Hrid Hfld).
  unfold ExampleExplodeAnalysis.field_entries.
  rewrite map_app, map_map. simpl. rewrite map_id.
  destruct (fallback_entry_cases parse df rid fld)
    as [(_ & Hnil & E)|([Hk|Hne] & E)]; rewrite E.
  - rewrite Hnil. reflexivity.
  - simpl. rewrite app_nil_r. reflexivity.
  - simpl. rewrite app_nil_r.
    destruct (exploded_variants df rid fld); [congruence|reflexivity].
Qed.

Lemma field_list_observed rid fld v :
  In rid (group_keys df) -> In fld (columns df) ->
  In v (field_list e df rid fld) ->
  In v (series fld (get_group df rid)).
Proof.
  intros Hrid Hfld. rewrite (field_list_cases rid fld Hrid Hfld).
  destruct (exploded_variants df rid fld) as [|x l] eqn:E.
  - intros [<-|[]]. now apply reference_observed.
  - intros Hin. rewrite <- E in Hin.
    now apply (exploded_variants_In parse) in Hin.
Qed.

Lemma get_combine {B : Type} (F : string -> list B) (ks : list string) :
  forall (vs : list B) (c : string),
    Forall2 (fun v l => In v l) vs (map F ks) -> In c ks ->
    exists v, PyDict.get c (combine ks vs) = Some v /\ In v (F c).
Proof.
  induction ks as [|k ks IH]; intros vs c Hall Hc; [contradiction|].
  simpl in Hall. inversion Hall as [|v ? vs' ? Hv Hall']; subst.
  simpl. destruct (String.eqb c k) eqn:E.
  - apply String.eqb_eq in E. subst k. exists v. now split.
  - apply String.eqb_neq in E. destruct Hc as [->|Hc]; [congruence|].
    now apply IH.
Qed.

Lemma Forall2_map_r {A B : Type} (P : A -> B -> Prop) (f : A -> B)
    (l : list A) :
  (forall x, In x l -> P x (f x)) -> Forall2 P l (map f l).
Proof.
  induction l as [|x l IH]; intros H; simpl; constructor.
  - apply H. now left.
  - apply IH. intros y Hy. apply H. now right.
Qed.

(** X17.  On a frame with records, the generator returns a frame whose
    rows are those of the identifiers in ascending order of identifier,
    each identifier with the rows of its product: the number of rows is
    the sum over the identifiers of the products of the list lengths. *)
Theorem df_wide_all_rows :
  group_keys df <> [] ->
  exists w,
    df_wide df = Some w
    /\ w_rows w = flat_map (fun k => rows_for k) (group_keys df)
    /\ len (w_rows w)
       = list_sum
           (map (fun k =>
                   prod_sizes (map (fun fld => len (field_list e df k fld))
                                   (columns df)))
                (group_keys df))
    /\ StronglySorted Z.le (map fst (w_rows w))
    /\ forall rid, In rid (map fst (w_rows w)) <-> In rid (group_keys df).
Proof.
  intros Hne. destruct (df_wide_rows Hne) as (w & Hw & Hrows).
  exists w. split; [exact Hw|]. split; [exact Hrows|]. rewrite Hrows.
  split; [|split].
  - rewrite length_flat_map. f_equal. apply map_ext. intros k.
    now rewrite length_map, product_length, map_map.
  - apply flat_map_ids_sorted.
    + intros k x Hx. apply in_map_iff in Hx.
      destruct Hx as (combo & <- & _). reflexivity.
    + apply sorted_NoDup_strict; [apply sort_by_Z_sorted|].
      apply group_keys_NoDup.
  - intros rid. rewrite in_map_iff. split.
    + intros (row & <- & Hrow). apply in_flat_map in Hrow.
      destruct Hrow as (k & Hk & Hrow). apply in_map_iff in Hrow.
      destruct Hrow as (combo & <- & _). exact Hk.
    + intros Hrid.
      pose proof (field_list_nonempty df e) as Hlen.
      destruct (product (map (field_list e df rid) (columns df)))
        as [|combo l] eqn:Ep.
      * exfalso.
        pose proof (product_length (map (field_list e df rid) (columns df)))
          as Hp.
        rewrite Ep, map_map in Hp. simpl in Hp.
        assert (Hpos : forall cols,
                  1 <= prod_sizes
                         (map (fun x => len (field_list e df rid x)) cols)).
        { induction cols as [|c cols IHc]; simpl; [lia|].
          specialize (Hlen rid c). nia. }
        specialize (Hpos (columns df)). lia.
      * exists (wide_row (columns df) rid combo). split; [reflexivity|].
        apply in_flat_map. exists rid. split; [exact Hrid|].
        rewrite Ep. now left.
Qed.

(** X18.  Every row of the frame of combinations has a value in every
    column, none is missing: the cell of a column holds a value that a
    record of the row's identifier carries in that column, taken from the
    exploded variants of the column when there are any and the reference
    otherwise. *)
Theorem df_wide_cells :
  group_keys df <> [] ->
  exists w,
    df_wide df = Some w
    /\ forall row, In row (w_rows w) ->
         In (fst row) (group_keys df)
         /\ Forall2
              (fun c cell =>
                 exists v,
                   cell = Some v
                   /\ In v (series c (get_group df (fst row)))
                   /\ In v (match exploded_variants df (fst row) c with
                            | [] => [reference df c (fst row)]
                            | l => l
                            end))
              (sort_by String.leb (columns df)) (snd row).
Proof.
  intros Hne. destruct (df_wide_rows Hne) as (w & Hw & Hrows).
  exists w. split; [exact Hw|]. intros row Hrow. rewrite Hrows in Hrow.
  apply in_flat_map in Hrow. destruct Hrow as (k & Hk & Hrow).
  apply in_map_iff in Hrow. destruct Hrow as (combo & <- & Hcombo).
  simpl. split; [exact Hk|].
  apply product_In in Hcombo.
  apply Forall2_map_r. intros c Hc. apply sort_by_In in Hc.
  destruct (get_combine (field_list e df k) (columns df) combo c Hcombo Hc)
    as (v & Hget & Hv).
  exists v. split; [exact Hget|]. split.
  - now apply (field_list_observed k c).
  - now rewrite <- (field_list_cases k c Hk Hc).
Qed.

End WideFrame.

Lemma script_keys_nonempty :
  ExampleExplodeAnalysis.group_keys ScriptData.df <> [].
Proof. vm_compute. discriminate. Qed.

Lemma df_wide_all_rows_witness :
  NoDup (ExampleExplodeAnalysis.columns ScriptData.df)
  /\ (exists k, In k key_fields
                 /\ In k (ExampleExplodeAnalysis.columns ScriptData.df))
  /\ ExampleExplodeAnalysis.group_keys ScriptData.df <> []
  /\ exists e w,
       ExampleExplodeAnalysis.explosions_by_id ScriptData.fixture_parse
         ScriptData.df = Some e
       /\ ExampleExplodeAnalysis.df_wide ScriptData.fixture_parse
            ScriptData.df = Some w
       /\ StronglySorted Z.le
            (map fst (ExampleExplodeAnalysis.w_rows w)).
Proof.
  split; [exact script_columns_NoDup|].
  split; [exact script_has_key_field|].
  split; [exact script_keys_nonempty|].
  destruct (explosions_by_id_spec ScriptData.fixture_parse ScriptData.df)
    as (e & He & _).
  destruct (df_wide_all_rows ScriptData.fixture_parse ScriptData.df e
              script_columns_NoDup script_has_key_field He
              script_keys_nonempty)
    as (w & Hw & _ & _ & Hs & _).
  exists e, w. auto.
Defined.

Lemma df_wide_cells_witness :
  NoDup (ExampleExplodeAnalysis.columns ScriptData.df)
  /\ (exists k, In k key_fields
                 /\ In k (ExampleExplodeAnalysis.columns ScriptData.df))
  /\ ExampleExplodeAnalysis.group_keys ScriptData.df <> []
  /\ exists e w,
       ExampleExplodeAnalysis.explosions_by_id ScriptData.fixture_parse
         ScriptData.df = Some e
       /\ ExampleExplodeAnalysis.df_wide ScriptData.fixture_parse
            ScriptData.df = Some w
       /\ forall row, In row (ExampleExplodeAnalysis.w_rows w) ->
            In (fst row) (ExampleExplodeAnalysis.group_keys ScriptData.df).
Proof.
  split; [exact script_columns_NoDup|].
  split; [exact script_has_key_field|].
  split; [exact script_keys_nonempty|].
  destruct (explosions_by_id_spec ScriptData.fixture_parse ScriptData.df)
    as (e & He & _).
  destruct (df_wide_cells ScriptData.fixture_parse ScriptData.df e
              script_columns_NoDup script_has_key_field He
              script_keys_nonempty)
    as (w & Hw & Hcells).
  exists e, w. split; [exact He|]. split; [exact Hw|].
  intros row Hrow. exact (proj1 (Hcells row Hrow)).
Defined.

(** * The long table, and the flags of the metadata *)

Section LongTable.

Import ExampleExplodeAnalysis.
Import LoopParts.
Local Open Scope string_scope.

Variable parse : string -> option date.

Local Abbreviation explode_of := (explode_of parse).
Local Abbreviation explosions_by_id := (explosions_by_id parse).
Local Abbreviation field_entries := (field_entries parse).
Local Abbreviation exploded_variants := (exploded_variants parse).
Local Abbreviation variant_info := (variant_info parse).
Local Abbreviation var_meta := (var_meta parse).

Lemma entries_for_values_NoDup df fld (cols : list string) rid :
  NoDup cols ->
  NoDup (map snd (entries_for fld (flat_map (field_entries df rid) cols))).
Proof.
  intros Hnd. destruct (in_dec string_dec fld cols) as [Hin|Hout].
  - rewrite (entries_for_flat_map parse df rid fld cols Hnd Hin).
    apply field_entries_values_NoDup.
  - unfold entries_for. rewrite filter_none; [constructor|].
    intros fv Hfv. apply in_flat_map in Hfv.
    destruct Hfv as (c & Hc & Hfv).
    apply (field_entries_fst parse) in Hfv. apply String.eqb_neq.
    congruence.
Qed.

(** X19.  Nothing is lost or added between [explosions_by_id] and
    [grouped]: the long table has a row for exactly the pairs of the
    dictionary, and the cell of [grouped] for an identifier and a field
    is the list of the values that the dictionary holds for them, in the
    same order. *)
Theorem long_table_round_trip : forall df : frame,
  NoDup (columns df) ->
  exists e,
    explosions_by_id df = Some e
    /\ (forall r, In r (records e)
                  <-> In (l_field r, l_variant r) (entries (l_id r) e))
    /\ (forall rid fld,
          g_cell (grouped (records e)) rid fld
          = map snd (entries_for fld (entries rid e))).
Proof.
  intros df Hnd. destruct (explosions_by_id_spec parse df) as (e & He & Hent).
  pose proof (explosions_by_id_NoDup parse df e He) as Hkeys.
  exists e. split; [exact He|]. split.
  - intros r. now apply records_In.
  - intros rid fld. rewrite (grouped_cell e rid fld Hkeys).
    apply unique_id. rewrite Hent.
    destruct (mem rid (group_keys df)); [|constructor].
    now apply entries_for_values_NoDup.
Qed.

(** X20.  The flags written to the metadata are the ones the classifier
    acts on.  For a value other than the reference: in a name field it is
    in the identifier's explosion list exactly when its metadata entry
    has [low_similarity] true; in [dob], exactly when the entry has
    [exploded] true; in [postcode], exactly when the entry has a positive
    [edit_distance]. *)
Theorem classified_iff_flagged : forall df : frame,
  NoDup (columns df) ->
  exists e,
    explosions_by_id df = Some e
    /\ forall rid fld v,
         In rid (group_keys df) -> In fld (columns df) ->
         v <> reference df fld rid ->
         let vm := var_meta df fld rid (reference df fld rid) in
         (In fld name_fields ->
          (In (fld, v) (entries rid e)
           <-> exists i, PyDict.get v vm = Some i
                         /\ low_similarity i = Some true))
         /\ (fld = "dob" ->
             (In (fld, v) (entries rid e)
              <-> exists i, PyDict.get v vm = Some i
                            /\ exploded i = Some true))
         /\ (fld = "postcode" ->
             (In (fld, v) (entries rid e)
              <-> exists i d, PyDict.get v vm = Some i
                              /\ edit_distance i = Some d /\ 0 < d)).
Proof.
  intros df Hnd. destruct (explosions_In parse df Hnd) as (e & He & Hin).
  exists e. split; [exact He|]. intros rid fld v Hrid Hfld Hne vm.
  assert (Hcls :
    In (fld, v) (entries rid e)
    <-> In v (series fld (get_group df rid))
        /\ explode_of fld (reference df fld rid) v = true).
  { rewrite (Hin rid fld v Hrid Hfld), (exploded_variants_In parse).
    tauto. }
  assert (Hget :
    PyDict.get v vm
    = if mem v (series fld (get_group df rid))
      then Some (variant_info fld (reference df fld rid) v
                   (count_occ string_dec (series fld (get_group df rid)) v))
      else None).
  { unfold vm.
    rewrite (var_meta_get parse df fld rid (reference df fld rid) v).
    now rewrite (proj2 (String.eqb_neq _ _) Hne). }
  rewrite Hcls, Hget. clear Hcls Hget.
  destruct (mem v (series fld (get_group df rid))) eqn:Hm.
  - apply mem_In in Hm. split; [|split].
    + intros Hn. rewrite (explode_of_name parse fld _ _ Hn).
      apply mem_In in Hn. unfold ExampleExplodeAnalysis.variant_info.
      rewrite Hn. split.
      * intros [_ E]. eexists. split; [reflexivity|]. simpl. now rewrite E.
      * intros (i & [= <-] & E). simpl in E. split; [exact Hm|]. congruence.
    + intros ->. rewrite (explode_of_dob parse).
      unfold ExampleExplodeAnalysis.variant_info. simpl. split.
      * intros [_ E]. eexists. split; [reflexivity|]. simpl. now rewrite E.
      * intros (i & [= <-] & E). simpl in E. split; [exact Hm|]. congruence.
    + intros ->. rewrite (explode_of_postcode parse).
      unfold ExampleExplodeAnalysis.variant_info. simpl.
      rewrite Nat.ltb_lt. split.
      * intros [_ E]. eexists. eexists. split; [reflexivity|]. simpl.
        split; [reflexivity|exact E].
      * intros (i & d & [= <-] & E & Hd). simpl in E. split; [exact Hm|].
        congruence.
  - apply mem_not_In in Hm. split; [|split]; intros _; split;
      try (intros [H _]; contradiction);
      try (intros (i & H & _); discriminate);
      intros (i & d & H & _); discriminate.
Qed.

End LongTable.

Lemma long_table_round_trip_witness :
  NoDup (ExampleExplodeAnalysis.columns ScriptData.df)
  /\ exists e,
       ExampleExplodeAnalysis.explosions_by_id ScriptData.fixture_parse
         ScriptData.df = Some e
       /\ ExampleExplodeAnalysis.g_cell
            (ExampleExplodeAnalysis.grouped
               (ExampleExplodeAnalysis.records e)) 1%Z "sex"%string
          = map snd (ExampleExplodeAnalysis.entries_for "sex"%string
                       (ExampleExplodeAnalysis.entries 1%Z e)).
Proof.
  split; [exact script_columns_NoDup|].
  destruct (long_table_round_trip ScriptData.fixture_parse ScriptData.df
              script_columns_NoDup) as (e & He & _ & Hcell).
  exists e. split; [exact He|]. apply Hcell.
Defined.

Lemma classified_iff_flagged_witness :
  NoDup (ExampleExplodeAnalysis.columns ScriptData.df)
  /\ In 1%Z (ExampleExplodeAnalysis.group_keys ScriptData.df)
  /\ In "postcode"%string (ExampleExplodeAnalysis.columns ScriptData.df)
  /\ "sw1a 1aa"%string
     <> ExampleExplodeAnalysis.reference ScriptData.df "postcode" 1%Z
  /\ exists e,
       ExampleExplodeAnalysis.explosions_by_id ScriptData.fixture_parse
         ScriptData.df = Some e
       /\ In ("postcode"%string, "sw1a 1aa"%string)
             (ExampleExplodeAnalysis.entries 1%Z e).
Proof.
  assert (Hc : In "postcode"%string
                  (ExampleExplodeAnalysis.columns ScriptData.df))
    by (vm_compute; tauto).
  assert (Hne : "sw1a 1aa"%string
                <> ExampleExplodeAnalysis.reference ScriptData.df
                     "postcode" 1%Z)
    by (vm_compute; discriminate).
  split; [exact script_columns_NoDup|]. split; [exact script_group_1|].
  split; [exact Hc|]. split; [exact Hne|].
  destruct (classified_iff_flagged ScriptData.fixture_parse ScriptData.df
              script_columns_NoDup) as (e & He & Hflag).
  exists e. split; [exact He|].
  destruct (Hflag 1%Z "postcode"%string "sw1a 1aa"%string script_group_1
              Hc Hne) as (_ & _ & Hp).
  apply (Hp eq_refl).
  eexists. eexists. split; [vm_compute; reflexivity|].
  split; [reflexivity|]. lia.
Defined.

(** * [find_explosions] of profile_exploded.py *)

Section FindExplosions.

Import ProfileExploded.

Variable parse : string -> option date.
Variable JaroWinkler_similarity : string -> string -> PrimFloat.float.
Variable Levenshtein_distance : string -> string -> nat.
Variable sort_values : list row -> list row.
Variable empty_merged_outcome : exn + PyDict.t Z (list (string * string)).

Hypothesis sort_values_perm : forall df, Permutation df (sort_values df).

Local Abbreviation get_references := (get_references sort_values).
Local Abbreviation should_explode :=
  (should_explode parse JaroWinkler_similarity Levenshtein_distance).
Local Abbreviation with_explode :=
  (with_explode parse JaroWinkler_similarity Levenshtein_distance).
Local Abbreviation find_explosions :=
  (find_explosions parse JaroWinkler_similarity Levenshtein_distance
                   empty_merged_outcome).

Lemma fallback_step_raised ref_df rid exploded (fields : list string) ex :
  fold_left (fallback_step ref_df rid exploded) fields (inl ex) = inl ex.
Proof. induction fields as [|fld fields IH]; simpl; auto. Qed.

Lemma fallback_step_inr ref_df rid exploded pairs fld rr l :
  filter (fun x => (r_id x =? rid)%Z) ref_df = rr :: l ->
  fallback_step ref_df rid exploded (inr pairs) fld
  = if mem fld key_fields then inl ValueError else inr pairs.
Proof.
  intros E. unfold fallback_step. rewrite E.
  destruct (mem fld key_fields); reflexivity.
Qed.

(** The first key field met raises: the test [not ....any()] asks for the
    truth value of a Series. *)
Lemma fallback_loop_raises ref_df rid exploded (fields : list string) :
  filter (fun rr => (r_id rr =? rid)%Z) ref_df <> [] ->
  (exists k, In k key_fields /\ In k fields) ->
  forall pairs,
    fold_left (fallback_step ref_df rid exploded) fields (inr pairs)
    = inl ValueError.
Proof.
  intros Href. induction fields as [|fld fields IH]; intros (k & Hk & Hin) pairs.
  - contradiction.
  - cbn [fold_left].
    destruct (filter (fun rr => (r_id rr =? rid)%Z) ref_df) as [|rr l] eqn:E;
      [contradiction|].
    rewrite (fallback_step_inr ref_df rid exploded pairs fld rr l E).
    destruct (mem fld key_fields) eqn:Hm.
    + apply fallback_step_raised.
    + apply IH. exists k. split; [exact Hk|].
      destruct Hin as [->|Hin]; [|exact Hin].
      apply mem_not_In in Hm. contradiction.
Qed.

Lemma id_step_raised ref_df fields merged (ids : list Z) ex :
  fold_left (id_step ref_df fields merged) ids (inl ex) = inl ex.
Proof. induction ids as [|k ids IH]; simpl; auto. Qed.

(** An identifier of [merged] has a row in [ref_df]: the merge is inner. *)
Lemma merged_id_has_reference freq_df ref_df fields m :
  In m (merge_refs freq_df (melt ref_df fields)) ->
  filter (fun rr => (r_id rr =? m_id m)%Z) ref_df <> [].
Proof.
  unfold merge_refs, melt. intros Hin. apply in_flat_map in Hin.
  destruct Hin as (fr & _ & Hin). apply in_map_iff in Hin.
  destruct Hin as (mr & <- & Hmr). apply filter_In in Hmr.
  destruct Hmr as [Hmr Hid]. apply andb_true_iff in Hid.
  destruct Hid as [Hid _]. apply Z.eqb_eq in Hid.
  apply in_flat_map in Hmr. destruct Hmr as (fld & _ & Hmr).
  apply in_map_iff in Hmr. destruct Hmr as (rr & <- & Hrr).
  simpl in *. intros E.
  assert (H : In rr (filter (fun rr0 => (r_id rr0 =? f_id fr)%Z) ref_df)).
  { apply filter_In. split; [exact Hrr|]. now apply Z.eqb_eq. }
  rewrite E in H. contradiction.
Qed.

Lemma find_explosions_on_rows freq_df ref_df fields :
  merge_refs freq_df (melt ref_df fields) <> [] ->
  (exists k, In k key_fields /\ In k fields) ->
  find_explosions freq_df ref_df fields = inl ValueError.
Proof.
  intros Hne Hkey. unfold ProfileExploded.find_explosions.
  destruct (merge_refs freq_df (melt ref_df fields)) as [|m0 rows] eqn:E;
    [contradiction|].
  set (merged := with_explode (m0 :: rows)).
  destruct (sort_by Z.leb (unique (map (fun r => m_id (fst r)) merged)))
    as [|k ids] eqn:Eids.
  - exfalso.
    assert (H : In (m_id m0)
                   (sort_by Z.leb
                      (unique (map (fun r => m_id (fst r)) merged)))).
    { apply sort_by_In, unique_In. now left. }
    rewrite Eids in H. contradiction.
  - assert (Hk : In k (map (fun r => m_id (fst r)) merged)).
    { apply (unique_In _ k), (sort_by_In Z.leb). rewrite Eids. now left. }
    apply in_map_iff in Hk. destruct Hk as ([m b] & <- & Hm).
    unfold merged, ProfileExploded.with_explode in Hm.
    apply in_map_iff in Hm. destruct Hm as (m' & [= -> _] & Hm).
    rewrite <- E in Hm.
    cbn [fold_left id_step fst].
    rewrite (fallback_loop_raises ref_df (m_id m) _ fields
               (merged_id_has_reference freq_df ref_df fields m Hm) Hkey).
    apply id_step_raised.
Qed.

(** The tables that [main] builds from a frame with a record give [merged]
    a row for every requested field. *)
Lemma main_merged_nonempty (df : list row) (fields : list string) :
  df <> [] -> fields <> [] ->
  merge_refs (compute_frequencies df fields)
             (melt (get_references df) fields) <> [].
Proof.
  intros Hdf Hfields.
  destruct df as [|r df']; [contradiction|].
  destruct fields as [|k fields']; [contradiction|].
  set (df := r :: df'). set (fields := k :: fields').
  set (rr := RefRow (row_id r)
               (fun fld => last_cell fld (get_group (sort_values df)
                                                    (row_id r)))).
  assert (Hrr : In rr (get_references df)).
  { assert (H : In rr (filter (fun x => (r_id x =? row_id r)%Z)
                              (get_references df))).
    { rewrite (get_references_row sort_values sort_values_perm df (row_id r)).
      - now left.
      - now left. }
    now apply filter_In in H. }
  set (fr := FreqRow (row_id r) (cell r k)
               (len (filter (fun r0 => (row_id r0 =? row_id r)%Z
                                       && String.eqb (cell r0 k) (cell r k))
                            df))
               k).
  assert (Hfr : In fr (compute_frequencies df fields)).
  { apply compute_frequencies_In. exists k, (row_id r, cell r k).
    split; [now left|]. split; [now left|reflexivity]. }
  intros E.
  assert (H : In (MergedRow (row_id r) (cell r k) (f_frequency fr) k
                            (r_cell rr k))
                 (merge_refs (compute_frequencies df fields)
                             (melt (get_references df) fields))).
  { unfold merge_refs. apply in_flat_map. exists fr. split; [exact Hfr|].
    apply in_map_iff. exists (MeltedRow (row_id r) k (r_cell rr k)).
    split; [reflexivity|]. apply filter_In. split.
    - unfold melt. apply in_flat_map. exists k. split; [now left|].
      apply in_map_iff. exists rr. split; [reflexivity|exact Hrr].
    - simpl. now rewrite Z.eqb_refl, String.eqb_refl. }
  rewrite E in H. contradiction.
Qed.

(** C1.  In profile_exploded.py the fallback is never reached:
    [find_explosions] raises [ValueError] at the test
    [not exploded[exploded['field'] == fld].any()] of the first key field
    of the first identifier, whenever [merged] has a row and a key field is
    requested; in particular on the tables that [main] builds from any
    frame with a record.  No list is returned, so no fallback pair is. *)
Theorem find_explosions_fallback_raises :
  forall fields : list string,
    (exists k, In k key_fields /\ In k fields) ->
    (forall freq_df ref_df,
       merge_refs freq_df (melt ref_df fields) <> [] ->
       find_explosions freq_df ref_df fields = inl ValueError)
    /\ (forall df,
          df <> [] ->
          find_explosions (compute_frequencies df fields)
                          (get_references df) fields
          = inl ValueError).
Proof.
  intros fields Hkey. split.
  - intros freq_df ref_df Hne. now apply find_explosions_on_rows.
  - intros df Hdf. apply find_explosions_on_rows; [|exact Hkey].
    apply main_merged_nonempty; [exact Hdf|].
    destruct Hkey as (k & _ & Hin). intros E. rewrite E in Hin.
    contradiction.
Qed.

End FindExplosions.

Lemma find_explosions_fallback_raises_witness :
  (forall df, Permutation df (ScriptData.fixture_sort df))
  /\ (exists k, In k key_fields /\ In k (map fst ScriptData.fields))
  /\ ProfileExploded.find_explosions ScriptData.fixture_parse
       jaro_winkler_float levenshtein (inr [])
       (ProfileExploded.compute_frequencies ScriptData.profile_rows
          (map fst ScriptData.fields))
       (ProfileExploded.get_references ScriptData.fixture_sort
          ScriptData.profile_rows)
       (map fst ScriptData.fields)
     = inl ProfileExploded.ValueError.
Proof.
  assert (Hkey : exists k, In k key_fields
                           /\ In k (map fst ScriptData.fields)).
  { exists "postcode"%string. split; vm_compute; tauto. }
  split; [exact fixture_sort_perm|]. split; [exact Hkey|].
  apply (proj2 (find_explosions_fallback_raises ScriptData.fixture_parse
                  jaro_winkler_float levenshtein ScriptData.fixture_sort
                  (inr []) fixture_sort_perm (map fst ScriptData.fields)
                  Hkey)).
  vm_compute. discriminate.
Defined.
